(** * pytrimal, NEON backend ([src/pytrimal/impl/neon.cpp])

    A shallow embedding of the vectorised pairwise-comparison engine:
    the lane reduction [vhaddq_u8], the identity matrix builder
    [NEONSimilarity::calculateMatrixIdentity], the column conservation
    scorer [NEONSimilarity::calculateVectors], the constructor of
    [NEONCleaner], the masked identity builder
    [NEONCleaner::calculateSeqIdentity] and the overlap scorer
    [NEONCleaner::calculateSpuriousVector].

    Conventions.
    - C integers are [Z]; every narrowing is written out ([wrap8],
      [wrap16], [wrap32], [wrap64] for unsigned types, [to_int] for the
      conversion to a 32-bit [int]).
    - A [uint8x16_t] register is the list of its sixteen lanes.
    - [float] is IEEE binary32, taken from the standard library's
      [SpecFloat] at precision 24 and [emax] 128.
    - A [while]/[for] loop whose guard goes through a narrowing cast is
      run with fuel; running out of fuel is [None]. *)

From Stdlib Require Import ZArith List Bool Lia String.
From Stdlib Require Import Floats.SpecFloat.
From Stdlib Require Import Reals Lra.
From stdpp Require Import base option list gmap.

Local Open Scope Z_scope.

(** ** Machine integers *)

Definition wrap8  (z : Z) : Z := z mod 2^8.
Definition wrap16 (z : Z) : Z := z mod 2^16.
Definition wrap32 (z : Z) : Z := z mod 2^32.
Definition wrap64 (z : Z) : Z := z mod 2^64.

Definition INT_MAX : Z := 2^31 - 1.

(** Conversion of an integer value to [int] (two's complement). *)
Definition to_int (z : Z) : Z := (z + 2^31) mod 2^32 - 2^31.

(** [size_t] arithmetic on an [int] operand: the operand is converted to
    the 64-bit unsigned type first. *)
Definition to_size_t (z : Z) : Z := wrap64 z.

(** [#define NLANES_8 sizeof(uint8x16_t) / sizeof(uint8_t)] *)
Definition NLANES_8 : Z := 16 / 1.
Definition UCHAR_MAX : Z := 255.

Definition b2z (b : bool) : Z := if b then 1 else 0.

Definition sumZ (l : list Z) : Z := fold_right Z.add 0 l.

(** ** NEON intrinsics on 8-bit lanes *)

Definition uint8x16_t := list Z.

Definition lanes16 : list nat := seq 0 16.

Definition vdupq_n_u8 (c : Z) : uint8x16_t := map (fun _ => c) lanes16.

(** [vld1q_u8(&p[k])]: sixteen consecutive bytes starting at index [k];
    the load does not need an aligned address. *)
Definition byte_at (p : list Z) (k : Z) : Z := nth (Z.to_nat k) p 0.

Definition vld1q_u8 (p : list Z) (k : Z) : uint8x16_t :=
  map (fun t => byte_at p (k + Z.of_nat t)) lanes16.

Definition vceqq_u8 (a b : uint8x16_t) : uint8x16_t :=
  zip_with (fun x y => if x =? y then 255 else 0) a b.
Definition vorrq_u8 (a b : uint8x16_t) : uint8x16_t := zip_with Z.lor a b.
Definition vandq_u8 (a b : uint8x16_t) : uint8x16_t := zip_with Z.land a b.
(** [vbicq_u8(a, b)] is [a & ~b]. *)
Definition vbicq_u8 (a b : uint8x16_t) : uint8x16_t := zip_with Z.ldiff a b.
Definition vmvnq_u8 (a : uint8x16_t) : uint8x16_t := map (fun x => Z.lxor x 255) a.
Definition vaddq_u8 (a b : uint8x16_t) : uint8x16_t :=
  zip_with (fun x y => wrap8 (x + y)) a b.

(** Pairwise widening addition: adjacent lanes are added into a lane of
    [w] bits ([vpaddlq_u8], [vpaddlq_u16], [vpaddlq_u32]). *)
Fixpoint vpaddl (w : Z) (a : list Z) : list Z :=
  match a with
  | x :: y :: r => ((x + y) mod 2^w) :: vpaddl w r
  | _ => []
  end.

Definition vpaddlq_u8  (a : uint8x16_t) : list Z := vpaddl 16 a.
Definition vpaddlq_u16 (a : list Z) : list Z := vpaddl 32 a.
Definition vpaddlq_u32 (a : list Z) : list Z := vpaddl 64 a.

(** [vaddvq_u16]: add across the eight 16-bit lanes, result [uint16_t]. *)
Definition vaddvq_u16 (a : list Z) : Z := wrap16 (sumZ a).

Definition vgetq_lane_u64 (a : list Z) (i : nat) : Z := nth i a 0.

(** [vhaddq_u8], lines 17-27.  [aarch64] selects the [#ifdef] branch. *)
Definition vhaddq_u8 (aarch64 : bool) (a : uint8x16_t) : Z :=
  if aarch64 then
    let paired := vpaddlq_u8 a in
    wrap32 (vaddvq_u16 paired)
  else
    let paired := vpaddlq_u32 (vpaddlq_u16 (vpaddlq_u8 a)) in
    wrap32 (wrap64 (vgetq_lane_u64 paired 0 + vgetq_lane_u64 paired 1)).

(** ** Loops *)

(** A guarded loop, run with fuel. *)
Fixpoint while {S : Type} (fuel : nat) (cond : S -> bool) (body : S -> S)
    (s : S) : option S :=
  match fuel with
  | O => None
  | Datatypes.S f => if cond s then while f cond body (body s) else Some s
  end.

(** [for (l = 0; l < n; l++) body] with a loop variable that the body
    does not read. *)
Definition for_l {S : Type} (n : Z) (body : S -> S) (s : S) : S :=
  Nat.iter (Z.to_nat n) body s.

(** [(int) (k + c)] for an [int k] and a [size_t c]. *)
Definition int_plus_size (k c : Z) : Z := to_int (wrap64 (to_size_t k + c)).

(** [t += h] for an [int t] and a [uint32_t h]. *)
Definition int_add_u32 (t h : Z) : Z := to_int (wrap32 (wrap32 t + h)).

(** ** The chunked scan shared by the two identity builders

    Lines 77-130 and 339-395 are the same three loops around two byte
    accumulators and two [int] totals.  [lanes k] gives the two lane
    increments computed from the sixteen positions starting at [k];
    [tail k] gives the two increments of the scalar loop at [k]. *)

Record scan_state := ScanState {
  sc_k : Z;
  sc_acc1 : uint8x16_t;
  sc_acc2 : uint8x16_t;
  sc_tot1 : Z;
  sc_tot2 : Z
}.

Section ChunkedScan.
Variable aarch64 : bool.
Variable lanes : Z -> uint8x16_t * uint8x16_t.
Variable tail : Z -> Z * Z.
Variable n : Z.

(** One vector iteration: load, classify, update the byte counters,
    [k += NLANES_8]. *)
Definition vec_body (s : scan_state) : scan_state :=
  let inc := lanes (sc_k s) in
  ScanState (int_plus_size (sc_k s) NLANES_8)
            (vaddq_u8 (sc_acc1 s) (fst inc))
            (vaddq_u8 (sc_acc2 s) (snd inc))
            (sc_tot1 s) (sc_tot2 s).

(** Merge the accumulators into the totals. *)
Definition merge_acc (s : scan_state) : scan_state :=
  ScanState (sc_k s) (sc_acc1 s) (sc_acc2 s)
            (int_add_u32 (sc_tot1 s) (vhaddq_u8 aarch64 (sc_acc1 s)))
            (int_add_u32 (sc_tot2 s) (vhaddq_u8 aarch64 (sc_acc2 s))).

Definition reset_acc (s : scan_state) : scan_state :=
  ScanState (sc_k s) (vdupq_n_u8 0) (vdupq_n_u8 0) (sc_tot1 s) (sc_tot2 s).

(** The unrolled block: [UCHAR_MAX] vector iterations, then merge and
    reset. *)
Definition block_body (s : scan_state) : scan_state :=
  reset_acc (merge_acc (for_l UCHAR_MAX vec_body s)).

(** One iteration of the scalar loop.  Its additions are on [int]
    operands only; they stay in range as long as [n] is an [int]. *)
Definition tail_body (s : scan_state) : scan_state :=
  let inc := tail (sc_k s) in
  ScanState (sc_k s + 1) (sc_acc1 s) (sc_acc2 s)
            (sc_tot1 s + fst inc) (sc_tot2 s + snd inc).

Definition scan_fuel : nat := Datatypes.S (Z.to_nat n).

Definition chunked_scan : option (Z * Z) :=
  (* run with unrolled loops of UCHAR_MAX iterations first *)
  s1 ← while scan_fuel
          (fun s => int_plus_size (sc_k s) (NLANES_8 * UCHAR_MAX) <? n)
          block_body
          (ScanState 0 (vdupq_n_u8 0) (vdupq_n_u8 0) 0 0);
  (* run remaining iterations in SIMD while possible *)
  s2 ← while scan_fuel
          (fun s => int_plus_size (sc_k s) NLANES_8 <? n)
          vec_body s1;
  (* merge accumulators, then process the tail elements *)
  s3 ← while scan_fuel (fun s => sc_k s <? n) tail_body (merge_acc s2);
  Some (sc_tot1 s3, sc_tot2 s3).
End ChunkedScan.

(** The naive scan: one position at a time, unbounded totals. *)
Definition naive_scan (contrib : Z -> Z * Z) (n : Z) : Z * Z :=
  fold_left (fun t p => (fst t + fst (contrib (Z.of_nat p)),
                         snd t + snd (contrib (Z.of_nat p))))
            (seq 0 (Z.to_nat n)) (0, 0).

(** ** binary32 arithmetic *)

Definition float32 := spec_float.
Definition prec32 : Z := 24.
Definition emax32 : Z := 128.

(** Conversion of an integer to [float], round to nearest even. *)
Definition f32_of_int (z : Z) : float32 := binary_normalize prec32 emax32 z 0 false.
Definition f32_add : float32 -> float32 -> float32 := SFadd prec32 emax32.
Definition f32_sub : float32 -> float32 -> float32 := SFsub prec32 emax32.
Definition f32_mul : float32 -> float32 -> float32 := SFmul prec32 emax32.
Definition f32_div : float32 -> float32 -> float32 := SFdiv prec32 emax32.
Definition f32_neg : float32 -> float32 := SFopp.
Definition f32_eqb : float32 -> float32 -> bool := SFeqb.
Definition f32_ltb : float32 -> float32 -> bool := SFltb.
Definition f32_leb : float32 -> float32 -> bool := SFleb.

Definition f32_zero : float32 := S754_zero false.
(** [1.0F] *)
Definition f32_one : float32 := S754_finite false 8388608 (-23).
(** [0.8F], the binary32 number nearest to 0.8. *)
Definition f32_0_8 : float32 := S754_finite false 13421773 (-24).
Definition f32_nan : float32 := S754_nan.

(** Membership in the closed interval [0,1], with [float] comparisons. *)
Definition f32_in_unit (x : float32) : bool := f32_leb f32_zero x && f32_leb x f32_one.

(** [ceil] followed by the conversion to an integer value; [None] for a
    NaN or an infinity. *)
Definition f32_ceil (x : float32) : option Z :=
  match x with
  | S754_zero _ => Some 0
  | S754_finite s m e =>
      let v := cond_Zopp s (Zpos m) in
      Some (if 0 <=? e then v * 2 ^ e else - ((- v) / 2 ^ (- e)))
  | _ => None
  end.

(** [uint32_t(x)] for an integral [x]: defined inside the range of the
    type only. *)
Definition to_uint32 (z : Z) : option Z :=
  if (0 <=? z) && (z <? 2^32) then Some z else None.

(** The real number a finite binary32 value stands for (0 for the
    others, which have none). *)
Definition f32_real (x : float32) : R :=
  match x with
  | S754_finite s m e => (IZR (cond_Zopp s (Zpos m)) * powerRZ 2 e)%R
  | _ => 0%R
  end.

(** A score kept in the [MDK] vector.  The C library's [exp] is not part
    of this file: the [float] that [exp(x)] returns is kept as the call,
    [ExpOf x]; every other score is a [float] the code computes itself. *)
Inductive score :=
  | Lit (f : float32)
  | ExpOf (x : float32).

(** The real number a score stands for, with the exponential function of
    the reals for the library call. *)
Definition score_real (v : score) : R :=
  match v with
  | Lit f => f32_real f
  | ExpOf x => exp (f32_real x)
  end.

(** ** The alignment and its collaborators *)

(** Character codes. *)
Definition ch_gap : Z := 45.   (* '-' *)
Definition ch_A : Z := 65.
Definition ch_N : Z := 78.
Definition ch_X : Z := 88.
Definition ch_Z : Z := 90.

(** What the code reads of [Alignment]: the residues of every sequence
    as bytes, the names, the sizes, whether the type has the [AA] bit
    set, the two keep/remove vectors ([-1] marks a removed entry) and
    the per-column gap counts held by the gap statistics
    ([Statistics->gaps->getGapsWindow()]). *)
Record Alignment := {
  sequences : list (list Z);
  seqsName : list string;
  originalNumberOfSequences : Z;
  originalNumberOfResidues : Z;
  numberOfResidues : Z;
  isAA : bool;
  saveSequences : list Z;
  saveResidues : list Z;
  gapsWindow : list Z
}.

(** [getAlignmentType() & SequenceTypes::AA ? 'X' : 'N'] *)
Definition indet_of (a : Alignment) : Z := if isAA a then ch_X else ch_N.

(** [alig->sequences[i].data()] *)
Definition seq_data (a : Alignment) (i : nat) : list Z := nth i (sequences a) [].

(** The diagnostics passed to [debug.report]. *)
Inductive report :=
  | IncorrectSymbol (letter : Z)
  | UndefinedSymbol (letter : Z)
  | NoResidueSequences (name_i name_j : string).

(** [for (i = lo; i < hi; i++)] over [int] bounds. *)
Definition index_range (lo hi : Z) : list nat :=
  seq (Z.to_nat lo) (Z.to_nat (hi - lo)).

(** A loop over indices whose body may have no result. *)
Fixpoint for_each {S : Type} (idx : list nat) (body : nat -> S -> option S)
    (s : S) : option S :=
  match idx with
  | [] => Some s
  | i :: rest => s' ← body i s; for_each rest body s'
  end.

(** ** [NEONSimilarity::calculateMatrixIdentity], lines 32-136 *)

(** Lines 82-91 and 104-116: the lane increments of [sum_acc] and
    [len_acc] for the sixteen positions from [k]. *)
Definition identity_lanes (indet : Z) (datai dataj : list Z) (k : Z)
    : uint8x16_t * uint8x16_t :=
  let allindet := vdupq_n_u8 indet in
  let allgap := vdupq_n_u8 ch_gap in
  let ONES := vdupq_n_u8 1 in
  let seqi := vld1q_u8 datai k in
  let seqj := vld1q_u8 dataj k in
  let gapsi := vorrq_u8 (vceqq_u8 seqi allgap) (vceqq_u8 seqi allindet) in
  let gapsj := vorrq_u8 (vceqq_u8 seqj allgap) (vceqq_u8 seqj allindet) in
  let eq := vceqq_u8 seqi seqj in
  (vandq_u8 eq (vbicq_u8 ONES (vorrq_u8 gapsi gapsj)),
   vbicq_u8 ONES (vandq_u8 gapsi gapsj)).

(** Lines 126-129: the increments of [sum] and [length] at [k]. *)
Definition identity_tail (indet : Z) (datai dataj : list Z) (k : Z) : Z * Z :=
  let gapi := (byte_at datai k =? ch_gap) || (byte_at datai k =? indet) in
  let gapj := (byte_at dataj k =? ch_gap) || (byte_at dataj k =? indet) in
  (b2z (negb gapi && negb gapj && (byte_at datai k =? byte_at dataj k)),
   b2z (negb gapi || negb gapj)).

(** Line 133: [1.0F - ((float)sum / length)]. *)
Definition identity_value (sum length : Z) : float32 :=
  f32_sub f32_one (f32_div (f32_of_int sum) (f32_of_int length)).

Definition identity_pair (aarch64 : bool) (a : Alignment) (i j : nat)
    : option float32 :=
  t ← chunked_scan aarch64
        (identity_lanes (indet_of a) (seq_data a i) (seq_data a j))
        (identity_tail (indet_of a) (seq_data a i) (seq_data a j))
        (originalNumberOfResidues a);
  Some (identity_value (fst t) (snd t)).

(** A [float**] matrix: the entries written so far, by row and column.
    An entry that was never written is absent. *)
Abbreviation matrix := (gmap (nat * nat) float32).

(** [matrixIdentity[i][j] = matrixIdentity[j][i] = v] *)
Definition mirror (i j : nat) (v : float32) (m : matrix) : matrix :=
  <[(i, j) := v]> (<[(j, i) := v]> m).

(** The instance state of [NEONSimilarity] that the two methods touch;
    [sim_debug] collects what is passed to [debug.report]. *)
Record SimilarityMatrix := {
  vhash : Z -> Z;
  distMat : Z -> Z -> float32
}.

Record NEONSimilarity := {
  sim_alig : Alignment;
  simMatrix : option SimilarityMatrix;
  matrixIdentity : option matrix;
  MDK : list score;
  sim_debug : list report
}.

Definition set_matrixIdentity (m : option matrix) (s : NEONSimilarity) : NEONSimilarity :=
  {| sim_alig := sim_alig s; simMatrix := simMatrix s; matrixIdentity := m;
     MDK := MDK s; sim_debug := sim_debug s |}.

Definition identity_rows (aarch64 : bool) (a : Alignment) : option matrix :=
  let N := originalNumberOfSequences a in
  for_each (index_range 0 N) (fun i m =>
    for_each (index_range (Z.of_nat i + 1) N) (fun j m =>
      v ← identity_pair aarch64 a i j;
      Some (mirror i j v m)) m) ∅.

Definition calculateMatrixIdentity (aarch64 : bool) (s : NEONSimilarity)
    : option NEONSimilarity :=
  match matrixIdentity s with
  | Some _ => Some s
  | None =>
      m ← identity_rows aarch64 (sim_alig s);
      Some (set_matrixIdentity (Some m) s)
  end.

(** Spec, section 4.2: "A position contributes to length if at least one
    of the two characters is non-gap/non-indeterminate; it contributes
    to sum only if both are non-gap/non-indeterminate and equal.  The
    pair's matrix value is 1 - sum/length." *)
Definition is_gap_or_indet (indet c : Z) : bool := (c =? ch_gap) || (c =? indet).

Definition naive_identity_contrib (indet : Z) (datai dataj : list Z) (k : Z) : Z * Z :=
  let ci := byte_at datai k in
  let cj := byte_at dataj k in
  (if negb (is_gap_or_indet indet ci) && negb (is_gap_or_indet indet cj) && (ci =? cj)
   then 1 else 0,
   if negb (is_gap_or_indet indet ci && is_gap_or_indet indet cj) then 1 else 0).

Definition naive_identity (a : Alignment) (i j : nat) : float32 :=
  let t := naive_scan (naive_identity_contrib (indet_of a) (seq_data a i) (seq_data a j))
                      (originalNumberOfResidues a) in
  f32_sub f32_one (f32_div (f32_of_int (fst t)) (f32_of_int (snd t))).

(** ** [NEONSimilarity::calculateVectors], lines 138-266 *)

Section CalculateVectors.
(** [utils::toUpper] is declared in [utils.h]; it is a parameter here. *)
Variable toUpper : Z -> Z.
Variable aarch64 : bool.

(** [matrixIdentity[j][k]]; reading an entry that was never written
    gives an indeterminate value, taken to be a NaN. *)
Definition mat_get (m : matrix) (j k : nat) : float32 :=
  default f32_nan (m !! (j, k)).

(** Lines 197-213.  [colnum] and [colgap] are the two [std::vector<char>]
    buffers, allocated once before the column loop and reused. *)
Fixpoint fill_column (sim : SimilarityMatrix) (a : Alignment) (i : Z)
    (js : list nat) (colnum colgap : list Z) : report + (list Z * list Z) :=
  match js with
  | [] => inr (colnum, colgap)
  | j :: rest =>
      let letter := toUpper (byte_at (seq_data a j) i) in
      if (letter =? indet_of a) || (letter =? ch_gap) then
        fill_column sim a i rest colnum (<[j := 1]> colgap)
      else
        let colgap := <[j := 0]> colgap in
        if (letter <? ch_A) || (letter >? ch_Z) then
          inl (IncorrectSymbol letter)
        else if vhash sim (letter - ch_A) =? -1 then
          inl (UndefinedSymbol letter)
        else
          fill_column sim a i rest
            (<[j := wrap8 (vhash sim (letter - ch_A))]> colnum) colgap
  end.

(** Lines 216-239: [num] and [den] of one column.  The product and the
    sum of [num += identityRow[k] * distRow[numB]] are rounded one after
    the other. *)
Definition column_sums (sim : SimilarityMatrix) (m : matrix) (N : Z)
    (colnum colgap : list Z) : float32 * float32 :=
  fold_left (fun nd j =>
    if negb (nth j colgap 0 =? 0) then nd
    else
      let numA := nth j colnum 0 in
      fold_left (fun nd k =>
        if negb (nth k colgap 0 =? 0) then nd
        else
          let numB := nth k colnum 0 in
          (f32_add (fst nd) (f32_mul (mat_get m j k) (distMat sim numA numB)),
           f32_add (snd nd) (mat_get m j k)))
        (index_range (Z.of_nat j + 1) N) nd)
    (index_range 0 N) (f32_of_int 0, f32_of_int 0).

(** Lines 241-257. *)
Definition column_score (nd : float32 * float32) : score :=
  let (num, den) := nd in
  if f32_eqb den (f32_of_int 0) then Lit (f32_of_int 0)
  else
    let Q := f32_div num den in
    if f32_ltb Q (f32_of_int 0) then Lit f32_one
    else ExpOf (f32_neg Q).

(** Line 190: [cutByGap && gaps[i] >= gapThreshold]. *)
Definition column_cut (cutByGap : bool) (a : Alignment) (i : nat) : bool :=
  let gapThreshold := f32_mul f32_0_8 (f32_of_int (numberOfResidues a)) in
  cutByGap && f32_leb gapThreshold (f32_of_int (nth i (gapsWindow a) 0)).

(** Lines 188-258, the loop over the columns.  The result is the error
    that stopped it, if any, with the scores and buffers as they are
    at that point. *)
Fixpoint columns_loop (cutByGap : bool) (sim : SimilarityMatrix) (a : Alignment)
    (m : matrix) (cols : list nat) (colnum colgap : list Z) (mdk : list score)
    : option report * list score :=
  match cols with
  | [] => (None, mdk)
  | i :: rest =>
      if column_cut cutByGap a i then
        columns_loop cutByGap sim a m rest colnum colgap (<[i := Lit f32_zero]> mdk)
      else
        match fill_column sim a (Z.of_nat i)
                (index_range 0 (originalNumberOfSequences a)) colnum colgap with
        | inl r => (Some r, mdk)
        | inr (colnum', colgap') =>
            let v := column_score
                       (column_sums sim m (originalNumberOfSequences a) colnum' colgap') in
            columns_loop cutByGap sim a m rest colnum' colgap' (<[i := v]> mdk)
        end
  end.

Definition calculateVectors (cutByGap : bool) (s : NEONSimilarity)
    : option (bool * NEONSimilarity) :=
  match simMatrix s with
  | None => Some (false, s)
  | Some sim =>
      s1 ← match matrixIdentity s with
            | None => calculateMatrixIdentity aarch64 s
            | Some _ => Some s
            end;
      m ← matrixIdentity s1;
      let a := sim_alig s1 in
      let N := Z.to_nat (originalNumberOfSequences a) in
      match columns_loop cutByGap sim a m
              (index_range 0 (originalNumberOfResidues a))
              (repeat 0 N) (repeat 0 N) (MDK s1) with
      | (Some r, mdk) =>
          Some (false,
                {| sim_alig := a; simMatrix := simMatrix s1;
                   matrixIdentity := matrixIdentity s1;
                   MDK := mdk; sim_debug := sim_debug s1 ++ [r] |})
      | (None, mdk) =>
          Some (true,
                {| sim_alig := a; simMatrix := simMatrix s1;
                   matrixIdentity := None;
                   MDK := mdk; sim_debug := sim_debug s1 |})
      end
  end.
End CalculateVectors.

(** ** [NEONCleaner], lines 269-414 *)

(** The constructor's index of residues to skip, lines 280-282. *)
Definition skipResidues (a : Alignment) : list Z :=
  map (fun i => if nth i (saveResidues a) 0 =? -1 then 255 else 0)
      (index_range 0 (originalNumberOfResidues a)).

(** The constructor, lines 269-283.

    [((uintptr_t) p + 15) & (~0xF)], lines 275-277.  [~0xF] is the [int]
    -16; the conversion to the 64-bit unsigned type of the other operand
    makes it 2^64 - 16. *)
Definition align16 (p : Z) : Z := Z.land (wrap64 (p + 15)) (wrap64 (Z.lnot 15)).

(** [sizeof(T) * alig->originalNumberOfResidues + 0xF] in [size_t], the
    size passed to [malloc] on lines 271-273. *)
Definition padded_bytes (elem n : Z) : Z := wrap64 (wrap64 (elem * to_size_t n) + 15).

(** The instance state set up by the constructor: the addresses of the
    three blocks obtained from [malloc], the aligned pointers into them
    ([hits], [hits_u8] and [skipResidues] in the source) and the
    contents of [skipResidues]. *)
Record NEONCleaner := {
  cl_alig : Alignment;
  hits_unaligned : Z;
  hits_u8_unaligned : Z;
  skipResidues_unaligned : Z;
  hits_ptr : Z;
  hits_u8_ptr : Z;
  skipResidues_ptr : Z;
  cl_skipResidues : list Z
}.

(** [blk_hits], [blk_hits_u8] and [blk_skip] are the addresses that the
    three calls of [malloc] return. *)
Definition NEONCleaner_new (parent : Alignment) (blk_hits blk_hits_u8 blk_skip : Z)
    : NEONCleaner :=
  {| cl_alig := parent;
     hits_unaligned := blk_hits;
     hits_u8_unaligned := blk_hits_u8;
     skipResidues_unaligned := blk_skip;
     hits_ptr := align16 blk_hits;
     hits_u8_ptr := align16 blk_hits_u8;
     skipResidues_ptr := align16 blk_skip;
     cl_skipResidues := skipResidues parent |}.

(** Lines 343-354 and 367-381: the lane increments of [dst_acc] and
    [hit_acc]. *)
Definition seqid_lanes (indet : Z) (skipv datai dataj : list Z) (k : Z)
    : uint8x16_t * uint8x16_t :=
  let allindet := vdupq_n_u8 indet in
  let allgap := vdupq_n_u8 ch_gap in
  let ONES := vdupq_n_u8 1 in
  let seqi := vld1q_u8 datai k in
  let seqj := vld1q_u8 dataj k in
  let skip := vld1q_u8 skipv k in
  let eq := vceqq_u8 seqi seqj in
  let gapsi := vorrq_u8 (vceqq_u8 seqi allgap) (vceqq_u8 seqi allindet) in
  let gapsj := vorrq_u8 (vceqq_u8 seqj allgap) (vceqq_u8 seqj allindet) in
  let mask := vbicq_u8 (vbicq_u8 ONES (vandq_u8 gapsi gapsj)) skip in
  (mask, vandq_u8 eq mask).

(** Lines 391-394: the increments of [dst] and [hit] at [k]. *)
Definition seqid_tail (indet : Z) (skipv datai dataj : list Z) (k : Z) : Z * Z :=
  let gapi := (byte_at datai k =? indet) || (byte_at datai k =? ch_gap) in
  let gapj := (byte_at dataj k =? indet) || (byte_at dataj k =? ch_gap) in
  (b2z (negb (gapi && gapj) && (byte_at skipv k =? 0)),
   b2z (negb (gapi && gapj) && (byte_at skipv k =? 0)
        && (byte_at datai k =? byte_at dataj k))).

(** Lines 397-409: the value stored for a pair, and the diagnostic. *)
Definition seqid_value (a : Alignment) (i j : nat) (dst hit : Z)
    : float32 * list report :=
  if dst =? 0 then
    (f32_of_int 0,
     [NoResidueSequences (nth i (seqsName a) EmptyString)
                         (nth j (seqsName a) EmptyString)])
  else (f32_div (f32_of_int hit) (f32_of_int dst), []).

Definition seqid_pair (aarch64 : bool) (a : Alignment) (i j : nat)
    : option (float32 * list report) :=
  t ← chunked_scan aarch64
        (seqid_lanes (indet_of a) (skipResidues a) (seq_data a i) (seq_data a j))
        (seqid_tail (indet_of a) (skipResidues a) (seq_data a i) (seq_data a j))
        (originalNumberOfResidues a);
  Some (seqid_value a i j (fst t) (snd t)).

(** [alig->saveSequences[i] == -1] *)
Definition removed (a : Alignment) (i : nat) : bool :=
  nth i (saveSequences a) 0 =? -1.

(** [calculateSeqIdentity]: the new [alig->identities] and what was
    reported. *)
Definition calculateSeqIdentity (aarch64 : bool) (a : Alignment)
    : option (matrix * list report) :=
  let N := originalNumberOfSequences a in
  (* lines 308-313 *)
  let ident0 : matrix :=
    fold_left (fun m i => if removed a i then m else <[(i, i) := f32_of_int 0]> m)
              (index_range 0 N) ∅ in
  (* lines 316-413 *)
  for_each (index_range 0 N) (fun i st =>
    if removed a i then Some st
    else
      for_each (index_range (Z.of_nat i + 1) N) (fun j st =>
        if removed a j then Some st
        else
          r ← seqid_pair aarch64 a i j;
          (* identities[i][j] = v; identities[j][i] = identities[i][j] *)
          Some (<[(j, i) := fst r]> (<[(i, j) := fst r]> (fst st)),
                snd st ++ snd r)) st)
    (ident0, []).

(** Spec, section 4.4: "count dst = positions where the position is
    unmasked and not both residues are gap/indeterminate; count hit =
    the subset of those where the residues are equal.  If dst == 0 ...
    set identity to 0 ...  Otherwise identity = hit/dst". *)
Definition naive_seqid_contrib (indet : Z) (a : Alignment) (datai dataj : list Z)
    (k : Z) : Z * Z :=
  let ci := byte_at datai k in
  let cj := byte_at dataj k in
  let unmasked := negb (nth (Z.to_nat k) (saveResidues a) 0 =? -1) in
  let counted := unmasked && negb (is_gap_or_indet indet ci && is_gap_or_indet indet cj) in
  (if counted then 1 else 0, if counted && (ci =? cj) then 1 else 0).

Definition naive_seqid (a : Alignment) (i j : nat) : float32 :=
  let t := naive_scan (naive_seqid_contrib (indet_of a) a (seq_data a i) (seq_data a j))
                      (originalNumberOfResidues a) in
  if fst t =? 0 then f32_zero
  else f32_div (f32_of_int (snd t)) (f32_of_int (fst t)).

(** ** [NEONCleaner::calculateSpuriousVector], lines 416-516 *)

(** [vst1q_u8(&p[k], v)] *)
Definition vst1q_u8 (p : list Z) (k : Z) (v : uint8x16_t) : list Z :=
  take (Z.to_nat k) p ++ v ++ drop (Z.to_nat k + 16) p.

(** Lines 467-480: one vector iteration on [hits_u8]. *)
Definition spurious_vec (indet : Z) (datai dataj : list Z)
    (st : Z * list Z) : Z * list Z :=
  let (k, hits_u8) := st in
  let allindet := vdupq_n_u8 indet in
  let allgap := vdupq_n_u8 ch_gap in
  let ONES := vdupq_n_u8 1 in
  let seqi := vld1q_u8 datai k in
  let seqj := vld1q_u8 dataj k in
  let gapsi := vorrq_u8 (vceqq_u8 seqi allgap) (vceqq_u8 seqi allindet) in
  let gapsj := vorrq_u8 (vceqq_u8 seqj allgap) (vceqq_u8 seqj allindet) in
  let gaps := vmvnq_u8 (vorrq_u8 gapsi gapsj) in
  let eq := vceqq_u8 seqi seqj in
  let n := vandq_u8 (vorrq_u8 eq gaps) ONES in
  let hit := vld1q_u8 hits_u8 k in
  let hit := vaddq_u8 hit n in
  (int_plus_size k NLANES_8, vst1q_u8 hits_u8 k hit).

(** Line 488: what the scalar loop adds to [hits_u8[k]]. *)
Definition spurious_agree (indet : Z) (datai dataj : list Z) (k : Z) : Z :=
  let nongapi := negb (byte_at datai k =? indet) && negb (byte_at datai k =? ch_gap) in
  let nongapj := negb (byte_at dataj k =? indet) && negb (byte_at dataj k =? ch_gap) in
  b2z ((nongapi && nongapj) || (byte_at datai k =? byte_at dataj k)).

(** Lines 485-489. *)
Definition spurious_tail (indet : Z) (datai dataj : list Z)
    (st : Z * list Z) : Z * list Z :=
  let (k, hits_u8) := st in
  (k + 1,
   <[Z.to_nat k := wrap8 (byte_at hits_u8 k + spurious_agree indet datai dataj k)]> hits_u8).

(** [for (k = 0; k < n; k++) hits[k] += hits_u8[k]] *)
Definition drain (hits hits_u8 : list Z) : list Z :=
  zip_with (fun h u => wrap32 (h + u)) hits hits_u8.

(** Lines 444-498, one [j]: the comparison of sequence [i] with sequence
    [j], on the pair ([hits], [hits_u8]). *)
Definition spurious_compare (a : Alignment) (i j : nat)
    (st : list Z * list Z) : option (list Z * list Z) :=
  let n := originalNumberOfResidues a in
  let (hits, hits_u8) := st in
  if Nat.eqb j i then Some st
  else
    let datai := seq_data a i in
    let dataj := seq_data a j in
    s1 ← while (scan_fuel n) (fun s => int_plus_size (fst s) NLANES_8 <=? n)
            (spurious_vec (indet_of a) datai dataj) (0, hits_u8);
    s2 ← while (scan_fuel n) (fun s => fst s <? n)
            (spurious_tail (indet_of a) datai dataj) s1;
    let hits_u8 := snd s2 in
    if Z.rem (Z.of_nat j) UCHAR_MAX =? 0 then
      Some (drain hits hits_u8, repeat 0 (Z.to_nat n))
    else Some (hits, hits_u8).

(** Lines 439-501: [hits] for sequence [i] after the last transfer. *)
Definition spurious_hits (a : Alignment) (i : nat) : option (list Z) :=
  let n := Z.to_nat (originalNumberOfResidues a) in
  st ← for_each (index_range 0 (originalNumberOfSequences a))
         (spurious_compare a i) (repeat 0 n, repeat 0 n);
  Some (drain (fst st) (snd st)).

(** Lines 504-507: [seqValue]. *)
Definition count_reached (ovrlap : Z) (hits : list Z) : Z :=
  fold_left (fun seqValue h => if ovrlap <=? h then wrap32 (seqValue + 1) else seqValue)
            hits 0.

(** Line 426. *)
Definition spurious_threshold (overlap : float32) (a : Alignment) : option Z :=
  c ← f32_ceil (f32_mul overlap (f32_of_int (originalNumberOfSequences a - 1)));
  to_uint32 c.

(** [spuriousVector] is [None] for a null pointer.  The result is the
    returned flag and the vector afterwards; there is no result when the
    conversion to [uint32_t] on line 426 is undefined. *)
Definition calculateSpuriousVector (overlap : float32) (a : Alignment)
    (spuriousVector : option (list float32))
    : option (bool * option (list float32)) :=
  match spuriousVector with
  | None => Some (false, None)
  | Some v =>
      ovrlap ← spurious_threshold overlap a;
      v' ← for_each (index_range 0 (originalNumberOfSequences a)) (fun i v =>
              hits ← spurious_hits a i;
              let seqValue := count_reached ovrlap hits in
              Some (<[i := f32_div (f32_of_int seqValue)
                                   (f32_of_int (originalNumberOfResidues a))]> v)) v;
      Some (true, Some v')
  end.

(** [utils::toUpper] as the spec describes it ("after uppercasing"):
    lower-case ASCII letters are mapped to upper case, every other
    character is left alone.  Used for running the scorer on examples. *)
Definition ascii_toUpper (c : Z) : Z :=
  if (97 <=? c) && (c <=? 122) then c - 32 else c.

(** Residues of a sequence written as a string. *)
Definition residues (s : string) : list Z :=
  map (fun c => Z.of_N (Ascii.N_of_ascii c)) (list_ascii_of_string s).

(** The same reductions with no narrowing at all, to compare against. *)
Fixpoint pair_sums (a : list Z) : list Z :=
  match a with
  | x :: y :: r => (x + y) :: pair_sums r
  | _ => []
  end.

Definition is_u8x16 (a : uint8x16_t) : Prop :=
  length a = 16%nat /\ Forall (fun x => 0 <= x <= 255) a.

(** ** Sums over ranges of positions *)

(** The sum of [f] over the [m] positions from [a]. *)
Definition rsum (f : Z -> Z) (a : Z) (m : nat) : Z :=
  sumZ (map (fun p => f (a + Z.of_nat p)) (seq 0 m)).

(** The count held by lane [t] after [m] vector iterations from [k0]. *)
Definition lane_count (f : Z -> Z) (k0 : Z) (m : nat) (t : nat) : Z :=
  sumZ (map (fun s => f (k0 + 16 * Z.of_nat s + Z.of_nat t)) (seq 0 m)).

(** State of the chunked scan once the positions below [sc_k] have been
    counted into the totals; [f1] and [f2] give what a position
    contributes to each. *)
Definition counted (f1 f2 : Z -> Z) (n : Z) (s : scan_state) : Prop :=
  0 <= sc_k s <= n /\
  sc_tot1 s = rsum f1 0 (Z.to_nat (sc_k s)) /\
  sc_tot2 s = rsum f2 0 (Z.to_nat (sc_k s)).

(** ** Sizes

    The residue counts for which the guards [(int)(k + NLANES_8*UCHAR_MAX)]
    and [(int)(k + NLANES_8)] cannot wrap. *)
Definition residues_in_range (a : Alignment) : Prop :=
  0 <= originalNumberOfResidues a <= INT_MAX - NLANES_8 * UCHAR_MAX.

Definition spurious_in_range (a : Alignment) : Prop :=
  0 <= originalNumberOfResidues a <= INT_MAX - NLANES_8.

(** A block of [size] bytes at address [p] that [malloc] can have
    returned: not null, and with an end address that a pointer can
    hold. *)
Definition block_at (p size : Z) : Prop := 0 < p /\ p + size < 2^64.

(** ** The matrices in closed form *)

(** The matrix left by the double loop over pairs [i < j]: [keep] says
    which sequences take part, [put i j] writes the two mirrored slots. *)
Definition fill_pairs (keep : nat -> bool) (put : nat -> nat -> matrix -> matrix)
    (N : Z) (m0 : matrix) : matrix :=
  fold_left (fun m i =>
    if keep i then
      fold_left (fun m j => if keep j then put i j m else m)
                (index_range (Z.of_nat i + 1) N) m
    else m) (index_range 0 N) m0.

(** [identities[i][j] = v; identities[j][i] = identities[i][j]] *)
Definition mirror_back (i j : nat) (v : float32) (m : matrix) : matrix :=
  <[(j, i) := v]> (<[(i, j) := v]> m).

(** What [calculateSeqIdentity] computes for a pair: the stored value
    and the diagnostics, from the naive counts. *)
Definition seqid_result (a : Alignment) (i j : nat) : float32 * list report :=
  let t := naive_scan (naive_seqid_contrib (indet_of a) a (seq_data a i) (seq_data a j))
                      (originalNumberOfResidues a) in
  seqid_value a i j (fst t) (snd t).

Definition kept (a : Alignment) (i : nat) : bool := negb (removed a i).

Definition seqid_diagonal (a : Alignment) : matrix :=
  fold_left (fun m i => if removed a i then m else <[(i, i) := f32_of_int 0]> m)
            (index_range 0 (originalNumberOfSequences a)) ∅.

(** The diagnostics in the order the double loop reports them. *)
Definition seqid_log (a : Alignment) : list report :=
  flat_map (fun i =>
    if removed a i then []
    else flat_map (fun j => if removed a j then [] else snd (seqid_result a i j))
                  (index_range (Z.of_nat i + 1) (originalNumberOfSequences a)))
    (index_range 0 (originalNumberOfSequences a)).

(** The identity matrix the scorer works with: the memoized one, or the
    one it builds first. *)
Definition matrix_used (aarch64 : bool) (s : NEONSimilarity) : option matrix :=
  match matrixIdentity s with
  | Some m => Some m
  | None => identity_rows aarch64 (sim_alig s)
  end.

(** ** The hit counters in closed form *)

(** [hits_u8] after sequence [i] has been compared with sequence [j]:
    every counter is advanced by the agreement bit of its column. *)
Definition add_agree (a : Alignment) (i j : nat) (u : list Z) : list Z :=
  map (fun p => wrap8 (nth p u 0
                       + spurious_agree (indet_of a) (seq_data a i) (seq_data a j)
                                        (Z.of_nat p)))
      (seq 0 (Z.to_nat (originalNumberOfResidues a))).

(** State of the loops of one comparison: the byte counters below the
    current position have been advanced by [agree], the others are as
    in [u]. *)
Definition advanced_to (n : Z) (agree : Z -> Z) (u : list Z) (s : Z * list Z) : Prop :=
  0 <= fst s <= n /\ length (snd s) = Z.to_nat n /\
  forall p : nat, Z.of_nat p < n ->
    nth p (snd s) 0 =
    if Z.of_nat p <? fst s then wrap8 (nth p u 0 + agree (Z.of_nat p))
    else nth p u 0.

(** One [j] of lines 444-498 without the loops: skip [j = i], advance
    the byte counters, transfer them when [j] is a multiple of 255. *)
Definition compare_step (a : Alignment) (i : nat) (st : list Z * list Z) (j : nat)
    : list Z * list Z :=
  if Nat.eqb j i then st
  else
    let u' := add_agree a i j (snd st) in
    if Z.rem (Z.of_nat j) UCHAR_MAX =? 0
    then (drain (fst st) u', repeat 0 (Z.to_nat (originalNumberOfResidues a)))
    else (fst st, u').

(** [hits] for sequence [i], in closed form. *)
Definition hits_of (a : Alignment) (i : nat) : list Z :=
  let n := Z.to_nat (originalNumberOfResidues a) in
  let st := fold_left (compare_step a i)
                      (index_range 0 (originalNumberOfSequences a))
                      (repeat 0 n, repeat 0 n) in
  drain (fst st) (snd st).

(** Spec, section 4.5: "for every other sequence j, mark each column as
    agreeing if the two residues are equal or neither is
    gap/indeterminate, and add 1 to that column's per-position hit
    counter".  [agree_count a i p js] is the number of sequences of [js]
    other than [i] that agree with sequence [i] at column [p]. *)
Definition agree_count (a : Alignment) (i : nat) (p : Z) (js : list nat) : Z :=
  sumZ (map (fun j =>
    if Nat.eqb j i then 0
    else spurious_agree (indet_of a) (seq_data a i) (seq_data a j) p) js).

(** The two counter vectors of sequence [i] after the sequences
    [0 .. k-1]: [hits] and [hits_u8] together hold the agreement count,
    and [hits_u8] holds no more than what was added since the last
    transfer. *)
Definition counters_after (a : Alignment) (i : nat) (n : Z) (k : nat)
    (st : list Z * list Z) : Prop :=
  length (fst st) = Z.to_nat n /\ length (snd st) = Z.to_nat n /\
  forall p : nat, Z.of_nat p < n ->
    0 <= nth p (fst st) 0 /\
    0 <= nth p (snd st) 0 <= Z.rem (Z.of_nat k - 1) UCHAR_MAX /\
    nth p (fst st) 0 + nth p (snd st) 0 = agree_count a i (Z.of_nat p) (seq 0 k).

(** ** The column scorer, read off the alignment *)

Section ColumnSpec.
Variable toUpper : Z -> Z.
Variable sim : SimilarityMatrix.
Variable a : Alignment.

(** The residue of sequence [j] at column [i], upper-cased. *)
Definition col_letter (i : Z) (j : nat) : Z := toUpper (byte_at (seq_data a j) i).

Definition col_gap (i : Z) (j : nat) : bool :=
  (col_letter i j =? indet_of a) || (col_letter i j =? ch_gap).

Definition col_class (i : Z) (j : nat) : Z := wrap8 (vhash sim (col_letter i j - ch_A)).

(** The diagnostic that sequence [j] raises at column [i], if any. *)
Definition col_error (i : Z) (j : nat) : option report :=
  if col_gap i j then None
  else if (col_letter i j <? ch_A) || (col_letter i j >? ch_Z)
       then Some (IncorrectSymbol (col_letter i j))
  else if vhash sim (col_letter i j - ch_A) =? -1
       then Some (UndefinedSymbol (col_letter i j))
  else None.

Fixpoint first_error (i : Z) (js : list nat) : option report :=
  match js with
  | [] => None
  | j :: rest =>
      match col_error i j with
      | Some r => Some r
      | None => first_error i rest
      end
  end.

(** The buffers after a column has been filled without error. *)
Definition filled_gap (i : Z) (js : list nat) (colgap : list Z) : list Z :=
  fold_left (fun g j => <[j := b2z (col_gap i j)]> g) js colgap.

Definition filled_num (i : Z) (js : list nat) (colnum : list Z) : list Z :=
  fold_left (fun c j => if col_gap i j then c else <[j := col_class i j]> c) js colnum.

(** [num] and [den] of column [i], read off the alignment. *)
Definition column_sums_of (m : matrix) (i : Z) : float32 * float32 :=
  fold_left (fun nd j =>
    if col_gap i j then nd
    else
      fold_left (fun nd k =>
        if col_gap i k then nd
        else
          (f32_add (fst nd)
             (f32_mul (mat_get m j k) (distMat sim (col_class i j) (col_class i k))),
           f32_add (snd nd) (mat_get m j k)))
        (index_range (Z.of_nat j + 1) (originalNumberOfSequences a)) nd)
    (index_range 0 (originalNumberOfSequences a)) (f32_of_int 0, f32_of_int 0).

Variable cutByGap : bool.
Variable m : matrix.

(** The score of column [i] and the diagnostic that stops the loop at
    column [i], read off the alignment. *)
Definition column_value (i : nat) : score :=
  if column_cut cutByGap a i then Lit f32_zero
  else column_score (column_sums_of m (Z.of_nat i)).

Definition column_fails (i : nat) : option report :=
  if column_cut cutByGap a i then None
  else first_error (Z.of_nat i) (index_range 0 (originalNumberOfSequences a)).

Fixpoint columns_spec (cols : list nat) (mdk : list score)
    : option report * list score :=
  match cols with
  | [] => (None, mdk)
  | i :: rest =>
      match column_fails i with
      | Some r => (Some r, mdk)
      | None => columns_spec rest (<[i := column_value i]> mdk)
      end
  end.

End ColumnSpec.

(** ** Concrete alignments *)

(** A similarity table in which every letter is its own class and two
    different classes are at distance 1. *)
Definition unit_distance : SimilarityMatrix :=
  {| vhash := fun x => x;
     distMat := fun x y => if x =? y then f32_zero else f32_one |}.

(** The same table with the letter [C] left undefined. *)
Definition unit_distance_without_C : SimilarityMatrix :=
  {| vhash := fun x => if x =? 2 then -1 else x;
     distMat := fun x y => if x =? y then f32_zero else f32_one |}.

(** An untrimmed alignment of the given rows, with [n] residues per row
    and the given gap count per column. *)
Definition alignment_of (rows : list string) (aa : bool) (n : Z) (gaps : list Z)
    : Alignment :=
  {| sequences := map residues rows;
     seqsName := rows;
     originalNumberOfSequences := Z.of_nat (length rows);
     originalNumberOfResidues := n;
     numberOfResidues := n;
     isAA := aa;
     saveSequences := map (fun _ => 0) rows;
     saveResidues := repeat 0 (Z.to_nat n);
     gapsWindow := gaps |}.

(** A scorer on which nothing has been computed yet. *)
Definition fresh_scorer (sim : SimilarityMatrix) (a : Alignment) : NEONSimilarity :=
  {| sim_alig := a; simMatrix := Some sim; matrixIdentity := None;
     MDK := repeat (Lit f32_nan) (Z.to_nat (originalNumberOfResidues a));
     sim_debug := [] |}.

(** The example of the spec, section 8. *)
Definition acgt3 : Alignment :=
  alignment_of ["ACGT"; "ACGA"; "AGGT"]%string false 4 [0; 0; 0; 0].

(** Two sequences of one residue that differ. *)
Definition a_vs_c : Alignment := alignment_of ["A"; "C"]%string false 1 [0].

(** A gap against the indeterminate symbol of an amino-acid alignment. *)
Definition gap_vs_indet : Alignment := alignment_of ["-"; "X"]%string true 1 [1].

(** Ten sequences of eleven residues; eight of them have a gap in the
    first column. *)
Definition eight_gaps_of_ten : Alignment :=
  alignment_of
    ["AAAAAAAAAAA"; "CAAAAAAAAAA"; "-AAAAAAAAAA"; "-AAAAAAAAAA"; "-AAAAAAAAAA";
     "-AAAAAAAAAA"; "-AAAAAAAAAA"; "-AAAAAAAAAA"; "-AAAAAAAAAA"; "-AAAAAAAAAA"]%string
    false 11 [8; 0; 0; 0; 0; 0; 0; 0; 0; 0; 0].

(** One sequence with no residue. *)
Definition no_residues : Alignment := alignment_of [""]%string false 0 [].

(** A question mark in the third column. *)
Definition bad_symbol : Alignment :=
  alignment_of ["AC?T"; "ACGT"]%string false 4 [0; 0; 0; 0].

Definition single_sequence : Alignment := alignment_of ["ACGT"]%string false 4 [0; 0; 0; 0].

(** [k] copies of the one-residue sequence "A". *)
Definition copies_of_A (k : nat) : Alignment :=
  alignment_of (repeat "A"%string k) false 1 [0].

(** Two sequences of [n] residues that cycle through A, C, gap, N and G
    with different phases; every seventh column is marked as removed. *)
Definition residue_cycle (phase n : nat) : list Z :=
  map (fun p => nth ((p + phase) mod 5) [65; 67; 45; 78; 71] 0) (seq 0 n).

Definition cycled_pair (n : nat) : Alignment :=
  {| sequences := [residue_cycle 0 n; residue_cycle 2 n];
     seqsName := ["s0"; "s1"]%string;
     originalNumberOfSequences := 2;
     originalNumberOfResidues := Z.of_nat n;
     numberOfResidues := Z.of_nat n;
     isAA := false;
     saveSequences := [0; 1];
     saveResidues := map (fun p => if (p mod 7 =? 0)%nat then -1 else Z.of_nat p) (seq 0 n);
     gapsWindow := repeat 0 n |}.

(** ** Rounding to 24 bits *)

(** Round to nearest, ties to even, of [n / 2^k]. *)
Definition round_half_even (n k : Z) : Z :=
  let q := n / 2 ^ k in
  let r := n mod 2 ^ k in
  match 2 * r ?= 2 ^ k with
  | Lt => q
  | Eq => if Z.even q then q else q + 1
  | Gt => q + 1
  end.

(** The integer that [(float) n] stands for, for [0 <= n]: [n] itself
    when it has at most 24 bits, [n] rounded to 24 bits otherwise. *)
Definition int_rounded (n : Z) : Z :=
  let k := Z.max (Zdigits2 n - 24) 0 in
  2 ^ k * round_half_even n k.

(** ** More alignments *)

(** The alignment [a] with other residues in its sequences. *)
Definition with_sequences (a : Alignment) (seqs : list (list Z)) : Alignment :=
  {| sequences := seqs;
     seqsName := seqsName a;
     originalNumberOfSequences := originalNumberOfSequences a;
     originalNumberOfResidues := originalNumberOfResidues a;
     numberOfResidues := numberOfResidues a;
     isAA := isAA a;
     saveSequences := saveSequences a;
     saveResidues := saveResidues a;
     gapsWindow := gapsWindow a |}.

(** Sequences 0 and 1 are the same, sequence 2 has no residue in common
    with them; the second column is marked as removed. *)
Definition twins_and_stranger : Alignment :=
  {| sequences := map residues ["AC-T"; "AC-T"; "CAGA"]%string;
     seqsName := ["s0"; "s1"; "s2"]%string;
     originalNumberOfSequences := 3;
     originalNumberOfResidues := 4;
     numberOfResidues := 4;
     isAA := false;
     saveSequences := [0; 1; 2];
     saveResidues := [0; -1; 2; 3];
     gapsWindow := [0; 0; 2; 0] |}.

(** The same three sequences with another residue in the removed
    column of the first one. *)
Definition twins_and_stranger_edited : list (list Z) :=
  map residues ["AG-T"; "AC-T"; "CAGA"]%string.

(** The sequences of [acgt3] stored in longer buffers. *)
Definition acgt3_padded : list (list Z) :=
  map residues ["ACGTAAAA"; "ACGAC"; "AGGT-"]%string.

(** Two sequences; the second column holds one residue only. *)
Definition lonely_column : Alignment := alignment_of ["A-"; "AC"]%string false 2 [0; 1].

Definition f32_minus_one : float32 := S754_finite true 8388608 (-23).
Definition f32_half : float32 := S754_finite false 8388608 (-24).

(** * Proofs *)

(** ** Lane reduction *)

Lemma is_u8x16_inv a :
  is_u8x16 a ->
  exists x0 x1 x2 x3 x4 x5 x6 x7 x8 x9 xa xb xc xd xe xf,
    a = [x0; x1; x2; x3; x4; x5; x6; x7; x8; x9; xa; xb; xc; xd; xe; xf] /\
    Forall (fun x => 0 <= x <= 255)
      [x0; x1; x2; x3; x4; x5; x6; x7; x8; x9; xa; xb; xc; xd; xe; xf].
Proof.
  intros [Hlen Hall].
  do 16 (destruct a as [|? a]; [discriminate Hlen|]).
  destruct a; [|discriminate Hlen].
  do 16 eexists. split; [reflexivity | exact Hall].
Qed.

Ltac mod_small_inner :=
  repeat match goal with
         | |- context [?a mod ?m] => rewrite (Z.mod_small a m) by lia
         end.

Ltac lanes_bounds H :=
  repeat match type of H with
         | Forall _ (_ :: _) =>
             let Hx := fresh "Hx" in
             apply Forall_cons_1 in H; destruct H as [Hx H]
         end.

Lemma vhaddq_u8_sum aarch64 a :
  is_u8x16 a -> vhaddq_u8 aarch64 a = sumZ a.
Proof.
  intros Ha. destruct (is_u8x16_inv a Ha) as
    (x0&x1&x2&x3&x4&x5&x6&x7&x8&x9&xa&xb&xc&xd&xe&xf&->&H).
  lanes_bounds H.
  destruct aarch64; cbn [vhaddq_u8 vpaddlq_u8 vpaddlq_u16 vpaddlq_u32 vpaddl
    vaddvq_u16 vgetq_lane_u64 nth sumZ fold_right];
    unfold vaddvq_u16, sumZ, wrap16, wrap32, wrap64; cbn [fold_right];
    change (2^16) with 65536; change (2^32) with 4294967296;
    change (2^64) with 18446744073709551616;
    mod_small_inner; lia.
Qed.

(** C8.  For a register whose sixteen lanes are 8-bit counters (each at
    most 255), [vhaddq_u8] returns the exact arithmetic sum of the lanes,
    on either branch of the [#ifdef]; the first step widens adjacent
    pairs into 16-bit lanes and none of the additions wraps: the paired
    lanes equal the unbounded pair sums (and so do the 32-bit and 64-bit
    lanes of the second branch), and the total stays below 2^16. *)
Theorem C8_vhaddq_u8_exact (aarch64 : bool) (a : uint8x16_t)
    (Ha : is_u8x16 a) :
  vhaddq_u8 aarch64 a = sumZ a /\
  vpaddlq_u8 a = pair_sums a /\
  vpaddlq_u16 (vpaddlq_u8 a) = pair_sums (pair_sums a) /\
  vpaddlq_u32 (vpaddlq_u16 (vpaddlq_u8 a)) = pair_sums (pair_sums (pair_sums a)) /\
  Forall (fun p => 0 <= p < 2^16) (pair_sums a) /\
  sumZ (pair_sums a) = sumZ a /\
  0 <= sumZ a <= 16 * 255.
Proof.
  split; [apply vhaddq_u8_sum; exact Ha|].
  destruct (is_u8x16_inv a Ha) as
    (x0&x1&x2&x3&x4&x5&x6&x7&x8&x9&xa&xb&xc&xd&xe&xf&->&H).
  lanes_bounds H.
  cbn [vpaddlq_u8 vpaddlq_u16 vpaddlq_u32 vpaddl pair_sums sumZ fold_right].
  change (2^16) with 65536. change (2^32) with 4294967296.
  change (2^64) with 18446744073709551616.
  repeat split.
  - mod_small_inner. reflexivity.
  - mod_small_inner. reflexivity.
  - mod_small_inner. reflexivity.
  - repeat constructor; lia.
  - lia.
  - lia.
  - lia.
Qed.

Lemma C8_vhaddq_u8_exact_witness :
  is_u8x16 (vdupq_n_u8 255) /\
  vhaddq_u8 true (vdupq_n_u8 255) = sumZ (vdupq_n_u8 255) /\
  vhaddq_u8 false (vdupq_n_u8 255) = sumZ (vdupq_n_u8 255) /\
  sumZ (vdupq_n_u8 255) = 4080.
Proof.
  assert (H : is_u8x16 (vdupq_n_u8 255)).
  { split; [reflexivity|]. repeat constructor; lia. }
  split; [exact H|]. split; [|split].
  - exact (proj1 (C8_vhaddq_u8_exact true _ H)).
  - exact (proj1 (C8_vhaddq_u8_exact false _ H)).
  - reflexivity.
Defined.

(** ** Loop rule *)

Lemma while_rule {S : Type} (I : S -> Prop) (mu : S -> nat)
    (cond : S -> bool) (body : S -> S) :
  (forall s, I s -> cond s = true -> I (body s) /\ (mu (body s) < mu s)%nat) ->
  forall fuel s, I s -> (mu s < fuel)%nat ->
  exists s', while fuel cond body s = Some s' /\ I s' /\ cond s' = false.
Proof.
  intros Hstep fuel. induction fuel as [|fuel IH]; intros s HI Hmu; [lia|].
  cbn [while]. destruct (cond s) eqn:Hc.
  - destruct (Hstep s HI Hc) as [HI' Hlt]. apply IH; [exact HI' | lia].
  - exists s. auto.
Qed.

(** ** Sums over ranges of positions: lemmas *)

Lemma sumZ_app l1 l2 : sumZ (l1 ++ l2) = sumZ l1 + sumZ l2.
Proof.
  unfold sumZ. induction l1 as [|x l1 IH]; cbn; [reflexivity | rewrite IH; lia].
Qed.

Lemma sumZ_map_add {A} (f g : A -> Z) l :
  sumZ (map (fun x => f x + g x) l) = sumZ (map f l) + sumZ (map g l).
Proof.
  unfold sumZ. induction l as [|x l IH]; cbn; [reflexivity | rewrite IH; lia].
Qed.

Lemma rsum_S f a m : rsum f a (S m) = rsum f a m + f (a + Z.of_nat m).
Proof.
  unfold rsum. rewrite seq_S, map_app, sumZ_app. cbn. lia.
Qed.

Lemma rsum_app f a m1 m2 :
  rsum f a (m1 + m2) = rsum f a m1 + rsum f (a + Z.of_nat m1) m2.
Proof.
  induction m2 as [|m2 IH].
  - rewrite Nat.add_0_r. unfold rsum at 3. cbn. lia.
  - rewrite Nat.add_succ_r, !rsum_S, IH.
    replace (a + Z.of_nat (m1 + m2)) with (a + Z.of_nat m1 + Z.of_nat m2) by lia.
    lia.
Qed.

Lemma rsum_bounds f a m :
  (forall p, 0 <= f p <= 1) -> 0 <= rsum f a m <= Z.of_nat m.
Proof.
  intros Hf. induction m as [|m IH].
  - unfold rsum. cbn. lia.
  - rewrite rsum_S. specialize (Hf (a + Z.of_nat m)). lia.
Qed.

Lemma lane_count_S f k0 m t :
  lane_count f k0 (S m) t =
  lane_count f k0 m t + f (k0 + 16 * Z.of_nat m + Z.of_nat t).
Proof.
  unfold lane_count. rewrite seq_S, map_app, sumZ_app. cbn. lia.
Qed.

Lemma lane_count_bounds f k0 m t :
  (forall p, 0 <= f p <= 1) -> 0 <= lane_count f k0 m t <= Z.of_nat m.
Proof.
  intros Hf. induction m as [|m IH].
  - unfold lane_count. cbn. lia.
  - rewrite lane_count_S. specialize (Hf (k0 + 16 * Z.of_nat m + Z.of_nat t)). lia.
Qed.

Lemma lane_count_total f k0 m :
  sumZ (map (lane_count f k0 m) lanes16) = rsum f k0 (16 * m).
Proof.
  induction m as [|m IH].
  - reflexivity.
  - replace (16 * S m)%nat with (16 * m + 16)%nat by lia.
    rewrite rsum_app, <- IH.
    rewrite (map_ext _ (fun t => lane_count f k0 m t
                                 + f (k0 + 16 * Z.of_nat m + Z.of_nat t)))
      by (intros; apply lane_count_S).
    rewrite sumZ_map_add. f_equal.
    unfold rsum, lanes16. apply f_equal, map_ext. intros t. f_equal. lia.
Qed.

Lemma naive_scan_rsum contrib n :
  naive_scan contrib n =
  (rsum (fun p => fst (contrib p)) 0 (Z.to_nat n),
   rsum (fun p => snd (contrib p)) 0 (Z.to_nat n)).
Proof.
  unfold naive_scan. induction (Z.to_nat n) as [|m IH].
  - reflexivity.
  - rewrite seq_S, fold_left_app, IH, !rsum_S. reflexivity.
Qed.

(** ** Casts that do not wrap *)

Lemma int_plus_size_small k c :
  0 <= k -> 0 <= c -> k + c <= INT_MAX -> int_plus_size k c = k + c.
Proof.
  unfold int_plus_size, to_int, to_size_t, wrap64, INT_MAX. intros.
  change (2^64) with 18446744073709551616. change (2^31) with 2147483648 in *.
  change (2^32) with 4294967296.
  mod_small_inner. lia.
Qed.

Lemma int_add_u32_small t h :
  0 <= t -> 0 <= h -> t + h <= INT_MAX -> int_add_u32 t h = t + h.
Proof.
  unfold int_add_u32, to_int, wrap32, INT_MAX. intros.
  change (2^31) with 2147483648 in *. change (2^32) with 4294967296.
  mod_small_inner. lia.
Qed.

(** ** Byte accumulators *)

Lemma vaddq_u8_maps (A B : nat -> Z) :
  vaddq_u8 (map A lanes16) (map B lanes16) =
  map (fun t => wrap8 (A t + B t)) lanes16.
Proof. reflexivity. Qed.

Lemma lanes_is_u8x16 (A : nat -> Z) :
  (forall t, 0 <= A t <= 255) -> is_u8x16 (map A lanes16).
Proof.
  intros H. split; [reflexivity|].
  apply Forall_map, Forall_forall. intros t _. apply H.
Qed.

(** ** The chunked scan computes the naive totals *)

Section ChunkedScanCorrect.
Variable aarch64 : bool.
Variable lanes : Z -> uint8x16_t * uint8x16_t.
Variable tail : Z -> Z * Z.
Variable n : Z.

Let f1 (p : Z) : Z := fst (tail p).
Let f2 (p : Z) : Z := snd (tail p).

(** The vector code and the scalar code agree on what a position
    contributes, and a contribution is 0 or 1. *)
Hypothesis lanes_tail : forall k, 0 <= k ->
  lanes k = (map (fun t => f1 (k + Z.of_nat t)) lanes16,
             map (fun t => f2 (k + Z.of_nat t)) lanes16).
Hypothesis tail_bit : forall p,
  0 <= fst (tail p) <= 1 /\ 0 <= snd (tail p) <= 1.
Hypothesis n_range : 0 <= n <= INT_MAX - NLANES_8 * UCHAR_MAX.

Local Abbreviation vec := (vec_body lanes).

Lemma f1_bit p : 0 <= f1 p <= 1.
Proof. apply tail_bit. Qed.
Lemma f2_bit p : 0 <= f2 p <= 1.
Proof. apply tail_bit. Qed.

Lemma lane_step f k0 m :
  (forall p, 0 <= f p <= 1) -> (m < 255)%nat ->
  vaddq_u8 (map (lane_count f k0 m) lanes16)
           (map (fun t => f (k0 + 16 * Z.of_nat m + Z.of_nat t)) lanes16) =
  map (lane_count f k0 (S m)) lanes16.
Proof.
  intros Hf Hm. rewrite vaddq_u8_maps. apply map_ext. intros t.
  rewrite lane_count_S. unfold wrap8. apply Z.mod_small.
  pose proof (lane_count_bounds f k0 m t Hf).
  specialize (Hf (k0 + 16 * Z.of_nat m + Z.of_nat t)).
  change (2^8) with 256. lia.
Qed.

Lemma vec_step m k0 t1 t2 :
  (m < 255)%nat -> 0 <= k0 -> k0 + 16 * Z.of_nat (S m) <= INT_MAX ->
  vec (ScanState (k0 + 16 * Z.of_nat m)
                 (map (lane_count f1 k0 m) lanes16)
                 (map (lane_count f2 k0 m) lanes16) t1 t2) =
  ScanState (k0 + 16 * Z.of_nat (S m))
            (map (lane_count f1 k0 (S m)) lanes16)
            (map (lane_count f2 k0 (S m)) lanes16) t1 t2.
Proof.
  intros Hm Hk0 Hmax.
  unfold vec_body. cbn [sc_k sc_acc1 sc_acc2 sc_tot1 sc_tot2].
  rewrite lanes_tail by lia. cbn [fst snd].
  rewrite int_plus_size_small by (change NLANES_8 with 16; lia).
  change NLANES_8 with 16.
  rewrite <- (lane_step f1 k0 m f1_bit) by lia.
  rewrite <- (lane_step f2 k0 m f2_bit) by lia.
  f_equal. lia.
Qed.

Lemma vec_iter m k0 t1 t2 :
  (m <= 255)%nat -> 0 <= k0 -> k0 + 16 * Z.of_nat m <= INT_MAX ->
  Nat.iter m vec (ScanState k0 (vdupq_n_u8 0) (vdupq_n_u8 0) t1 t2) =
  ScanState (k0 + 16 * Z.of_nat m)
            (map (lane_count f1 k0 m) lanes16)
            (map (lane_count f2 k0 m) lanes16) t1 t2.
Proof.
  induction m as [|m IH]; intros Hm Hk0 Hmax.
  - change (Nat.iter 0 vec ?x) with x. f_equal; try reflexivity; lia.
  - rewrite Nat.iter_succ, IH by lia. apply vec_step; lia.
Qed.

Lemma vhaddq_lane_count f k0 m :
  (forall p, 0 <= f p <= 1) -> (m <= 255)%nat ->
  vhaddq_u8 aarch64 (map (lane_count f k0 m) lanes16) = rsum f k0 (16 * m).
Proof.
  intros Hf Hm. rewrite vhaddq_u8_sum.
  - apply lane_count_total.
  - apply lanes_is_u8x16. intros t.
    pose proof (lane_count_bounds f k0 m t Hf). lia.
Qed.

Local Abbreviation counted := (counted f1 f2 n).

Lemma rsum_extend f k (m : nat) :
  0 <= k ->
  rsum f 0 (Z.to_nat k) + rsum f k m = rsum f 0 (Z.to_nat (k + Z.of_nat m)).
Proof.
  intros Hk. replace (Z.to_nat (k + Z.of_nat m)) with (Z.to_nat k + m)%nat by lia.
  rewrite rsum_app. do 2 f_equal. lia.
Qed.

Lemma merge_counted k0 m t1 t2 :
  (m <= 255)%nat -> 0 <= k0 -> k0 + 16 * Z.of_nat m <= n ->
  t1 = rsum f1 0 (Z.to_nat k0) -> t2 = rsum f2 0 (Z.to_nat k0) ->
  counted (merge_acc aarch64
    (ScanState (k0 + 16 * Z.of_nat m)
               (map (lane_count f1 k0 m) lanes16)
               (map (lane_count f2 k0 m) lanes16) t1 t2)).
Proof.
  intros Hm Hk0 Hn -> ->. unfold counted, merge_acc.
  cbn [sc_k sc_acc1 sc_acc2 sc_tot1 sc_tot2].
  rewrite !vhaddq_lane_count by (auto using f1_bit, f2_bit).
  pose proof (rsum_bounds f1 0 (Z.to_nat k0) f1_bit).
  pose proof (rsum_bounds f2 0 (Z.to_nat k0) f2_bit).
  pose proof (rsum_bounds f1 k0 (16 * m) f1_bit).
  pose proof (rsum_bounds f2 k0 (16 * m) f2_bit).
  assert (n <= INT_MAX) by (change (NLANES_8 * UCHAR_MAX) with 4080 in n_range; lia).
  rewrite !int_add_u32_small by lia.
  replace (16 * Z.of_nat m) with (Z.of_nat (16 * m)) by lia.
  rewrite <- !rsum_extend by lia. split; [lia | split; reflexivity].
Qed.

Lemma block_step s :
  counted s -> sc_acc1 s = vdupq_n_u8 0 -> sc_acc2 s = vdupq_n_u8 0 ->
  (int_plus_size (sc_k s) (NLANES_8 * UCHAR_MAX) <? n) = true ->
  let s' := block_body aarch64 lanes s in
  counted s' /\ sc_acc1 s' = vdupq_n_u8 0 /\ sc_acc2 s' = vdupq_n_u8 0 /\
  sc_k s' = sc_k s + 4080.
Proof.
  intros (Hk & Ht1 & Ht2) Ha1 Ha2 Hg.
  change (NLANES_8 * UCHAR_MAX) with 4080 in *.
  rewrite int_plus_size_small in Hg by lia. apply Z.ltb_lt in Hg.
  destruct s as [k a1 a2 t1 t2]. cbn [sc_k sc_acc1 sc_acc2 sc_tot1 sc_tot2] in *.
  subst a1 a2. unfold block_body, for_l.
  set (m := Z.to_nat UCHAR_MAX).
  assert (Hm255 : Z.of_nat m = 255) by reflexivity.
  rewrite vec_iter by lia.
  destruct (merge_counted k m t1 t2 ltac:(lia) ltac:(lia) ltac:(lia) Ht1 Ht2)
    as (Hk' & Ht1' & Ht2').
  unfold merge_acc in *. cbn [sc_k sc_acc1 sc_acc2 sc_tot1 sc_tot2] in *.
  replace (k + 16 * Z.of_nat m) with (k + 4080) in * by lia.
  unfold counted, reset_acc. cbn [sc_k sc_acc1 sc_acc2 sc_tot1 sc_tot2].
  repeat split; try assumption; lia.
Qed.

Lemma tail_step s :
  counted s -> (sc_k s <? n) = true ->
  counted (tail_body tail s) /\ sc_k (tail_body tail s) = sc_k s + 1.
Proof.
  intros (Hk & Ht1 & Ht2) Hg. apply Z.ltb_lt in Hg.
  unfold counted, tail_body. cbn [sc_k sc_acc1 sc_acc2 sc_tot1 sc_tot2].
  replace (Z.to_nat (sc_k s + 1)) with (S (Z.to_nat (sc_k s))) by lia.
  rewrite !rsum_S, Ht1, Ht2.
  replace (0 + Z.of_nat (Z.to_nat (sc_k s))) with (sc_k s) by lia.
  repeat split; lia.
Qed.

Theorem chunked_scan_naive :
  chunked_scan aarch64 lanes tail n = Some (naive_scan tail n).
Proof.
  unfold chunked_scan.
  assert (Hn4 : 0 <= n <= INT_MAX - 4080) by exact n_range.
  (* the unrolled blocks *)
  destruct (while_rule
    (fun s => counted s /\ sc_acc1 s = vdupq_n_u8 0 /\ sc_acc2 s = vdupq_n_u8 0)
    (fun s => Z.to_nat (n - sc_k s))
    (fun s => int_plus_size (sc_k s) (NLANES_8 * UCHAR_MAX) <? n)
    (block_body aarch64 lanes)) with (fuel := scan_fuel n)
    (s := ScanState 0 (vdupq_n_u8 0) (vdupq_n_u8 0) 0 0)
    as (s1 & -> & (Hc1 & Ha1 & Ha2) & Hx1).
  { intros s (Hc & Hz1 & Hz2) Hg.
    destruct (block_step s Hc Hz1 Hz2 Hg) as (Hc' & Hz1' & Hz2' & Hk').
    split; [auto|]. rewrite Hk'. destruct Hc as [Hk _], Hc' as [Hk'' _]. lia. }
  { repeat split; cbn; lia. }
  { unfold scan_fuel. cbn [sc_k]. lia. }
  cbn [mbind option_bind].
  change (NLANES_8 * UCHAR_MAX) with 4080 in Hx1.
  destruct Hc1 as (Hk1 & Ht1 & Ht2).
  rewrite int_plus_size_small in Hx1 by lia. apply Z.ltb_ge in Hx1.
  (* the remaining vector iterations *)
  destruct s1 as [k1 a1 a2 t1 t2]. cbn [sc_k sc_acc1 sc_acc2 sc_tot1 sc_tot2] in *.
  subst a1 a2.
  destruct (while_rule
    (fun s => exists m : nat, (m <= 254)%nat /\ k1 + 16 * Z.of_nat m <= n /\
       s = ScanState (k1 + 16 * Z.of_nat m) (map (lane_count f1 k1 m) lanes16)
             (map (lane_count f2 k1 m) lanes16) t1 t2)
    (fun s => Z.to_nat (n - sc_k s))
    (fun s => int_plus_size (sc_k s) NLANES_8 <? n)
    vec) with (fuel := scan_fuel n)
    (s := ScanState k1 (vdupq_n_u8 0) (vdupq_n_u8 0) t1 t2)
    as (s2 & -> & (m & Hm & Hkm & ->) & _).
  { intros s (m & Hm & Hkm & ->) Hg. cbn [sc_k] in Hg.
    change NLANES_8 with 16 in Hg.
    rewrite int_plus_size_small in Hg by lia. apply Z.ltb_lt in Hg.
    rewrite vec_step by lia. split.
    - exists (S m). split; [lia|]. split; [lia|]. reflexivity.
    - cbn [sc_k]. lia. }
  { exists 0%nat. split; [lia|]. split; [lia|]. f_equal; try reflexivity; lia. }
  { unfold scan_fuel. cbn [sc_k]. lia. }
  cbn [mbind option_bind].
  (* the tail *)
  pose proof (merge_counted k1 m t1 t2 ltac:(lia) ltac:(lia) Hkm Ht1 Ht2) as Hc2.
  destruct (while_rule counted (fun s => Z.to_nat (n - sc_k s))
    (fun s => sc_k s <? n) (tail_body tail)) with (fuel := scan_fuel n)
    (s := merge_acc aarch64 (ScanState (k1 + 16 * Z.of_nat m)
             (map (lane_count f1 k1 m) lanes16)
             (map (lane_count f2 k1 m) lanes16) t1 t2))
    as (s3 & -> & (Hk3 & Ht31 & Ht32) & Hx3).
  { intros s Hc Hg. destruct (tail_step s Hc Hg) as [Hc' Hk'].
    split; [exact Hc'|]. rewrite Hk'. apply Z.ltb_lt in Hg. lia. }
  { exact Hc2. }
  { unfold scan_fuel. destruct Hc2 as [Hk2 _]. lia. }
  cbn [mbind option_bind]. apply Z.ltb_ge in Hx3.
  rewrite naive_scan_rsum, Ht31, Ht32.
  replace (sc_k s3) with n by lia. reflexivity.
Qed.
End ChunkedScanCorrect.

(** ** The vector classification agrees with the scalar one *)

Lemma zip_with_lanes {A B C} (g : A -> B -> C) (F : nat -> A) (G : nat -> B) :
  zip_with g (map F lanes16) (map G lanes16) = map (fun t => g (F t) (G t)) lanes16.
Proof. reflexivity. Qed.

Lemma map_lanes {A B} (g : A -> B) (F : nat -> A) :
  map g (map F lanes16) = map (fun t => g (F t)) lanes16.
Proof. reflexivity. Qed.

Ltac lanes_normal :=
  unfold vdupq_n_u8, vld1q_u8, vceqq_u8, vorrq_u8, vandq_u8, vbicq_u8, vmvnq_u8;
  repeat first [rewrite zip_with_lanes | rewrite map_lanes]; cbv beta.

Lemma identity_lanes_tail indet datai dataj k :
  identity_lanes indet datai dataj k =
  (map (fun t => fst (identity_tail indet datai dataj (k + Z.of_nat t))) lanes16,
   map (fun t => snd (identity_tail indet datai dataj (k + Z.of_nat t))) lanes16).
Proof.
  unfold identity_lanes. lanes_normal.
  f_equal; apply map_ext; intros t; unfold identity_tail; cbn [fst snd];
    generalize (byte_at datai (k + Z.of_nat t)) (byte_at dataj (k + Z.of_nat t));
    intros x y;
    destruct (x =? ch_gap), (x =? indet), (y =? ch_gap), (y =? indet), (x =? y);
    reflexivity.
Qed.

Lemma identity_tail_bit indet datai dataj p :
  0 <= fst (identity_tail indet datai dataj p) <= 1 /\
  0 <= snd (identity_tail indet datai dataj p) <= 1.
Proof.
  unfold identity_tail, b2z. cbn [fst snd].
  repeat match goal with |- context [if ?b then _ else _] => destruct b end; lia.
Qed.

Lemma skipResidues_byte a p :
  byte_at (skipResidues a) p = 0 \/ byte_at (skipResidues a) p = 255.
Proof.
  unfold byte_at, skipResidues.
  destruct (nth_in_or_default (Z.to_nat p)
    (map (fun i => if nth i (saveResidues a) 0 =? -1 then 255 else 0)
         (index_range 0 (originalNumberOfResidues a))) 0) as [Hin | ->]; [|auto].
  apply in_map_iff in Hin. destruct Hin as (i & <- & _).
  destruct (nth i (saveResidues a) 0 =? -1); auto.
Qed.

Lemma seqid_lanes_tail indet a datai dataj k :
  seqid_lanes indet (skipResidues a) datai dataj k =
  (map (fun t => fst (seqid_tail indet (skipResidues a) datai dataj (k + Z.of_nat t))) lanes16,
   map (fun t => snd (seqid_tail indet (skipResidues a) datai dataj (k + Z.of_nat t))) lanes16).
Proof.
  unfold seqid_lanes. lanes_normal.
  f_equal; apply map_ext; intros t; unfold seqid_tail; cbn [fst snd];
    destruct (skipResidues_byte a (k + Z.of_nat t)) as [-> | ->];
    generalize (byte_at datai (k + Z.of_nat t)) (byte_at dataj (k + Z.of_nat t));
    intros x y;
    destruct (x =? ch_gap), (x =? indet), (y =? ch_gap), (y =? indet), (x =? y);
    reflexivity.
Qed.

Lemma seqid_tail_bit indet skipv datai dataj p :
  0 <= fst (seqid_tail indet skipv datai dataj p) <= 1 /\
  0 <= snd (seqid_tail indet skipv datai dataj p) <= 1.
Proof.
  unfold seqid_tail, b2z. cbn [fst snd].
  repeat match goal with |- context [if ?b then _ else _] => destruct b end; lia.
Qed.

(** ** The scalar code against the naive reference *)

Lemma naive_scan_ext c1 c2 n :
  (forall p, 0 <= p < n -> c1 p = c2 p) -> naive_scan c1 n = naive_scan c2 n.
Proof.
  intros H. unfold naive_scan.
  assert (Hin : forall p, In p (seq 0 (Z.to_nat n)) -> c1 (Z.of_nat p) = c2 (Z.of_nat p)).
  { intros p Hp. apply in_seq in Hp. apply H. lia. }
  revert Hin. generalize (0, 0). induction (seq 0 (Z.to_nat n)) as [|p l IH]; intros t Hin.
  - reflexivity.
  - cbn [fold_left]. rewrite (Hin p) by (left; reflexivity).
    apply IH. intros q Hq. apply Hin. right. exact Hq.
Qed.

Lemma identity_tail_naive indet datai dataj p :
  identity_tail indet datai dataj p = naive_identity_contrib indet datai dataj p.
Proof.
  unfold identity_tail, naive_identity_contrib, is_gap_or_indet, b2z.
  generalize (byte_at datai p) (byte_at dataj p). intros x y.
  destruct (x =? ch_gap), (x =? indet), (y =? ch_gap), (y =? indet), (x =? y);
    reflexivity.
Qed.

Lemma nth_map_seq {A} (f : nat -> A) (d : A) (n i : nat) :
  (i < n)%nat -> nth i (map f (seq 0 n)) d = f i.
Proof.
  intros Hi. rewrite (nth_indep _ d (f 0%nat)) by (rewrite length_map, length_seq; lia).
  rewrite map_nth, seq_nth by lia. reflexivity.
Qed.

Lemma skipResidues_at a p :
  0 <= p < originalNumberOfResidues a ->
  byte_at (skipResidues a) p =
  if nth (Z.to_nat p) (saveResidues a) 0 =? -1 then 255 else 0.
Proof.
  intros Hp. unfold byte_at, skipResidues, index_range.
  change (Z.to_nat 0) with 0%nat. rewrite nth_map_seq by lia. reflexivity.
Qed.

Lemma seqid_tail_naive a datai dataj p :
  0 <= p < originalNumberOfResidues a ->
  seqid_tail (indet_of a) (skipResidues a) datai dataj p =
  naive_seqid_contrib (indet_of a) a datai dataj p.
Proof.
  intros Hp. unfold seqid_tail, naive_seqid_contrib, is_gap_or_indet, b2z.
  rewrite skipResidues_at by exact Hp.
  generalize (byte_at datai p) (byte_at dataj p). intros x y.
  destruct (nth (Z.to_nat p) (saveResidues a) 0 =? -1),
    (x =? ch_gap), (x =? indet_of a), (y =? ch_gap), (y =? indet_of a), (x =? y);
    reflexivity.
Qed.

(** ** One pair of sequences *)

Lemma identity_pair_naive aarch64 a i j :
  residues_in_range a ->
  identity_pair aarch64 a i j = Some (naive_identity a i j).
Proof.
  intros Hn. unfold identity_pair.
  rewrite chunked_scan_naive.
  - cbn [mbind option_bind]. unfold naive_identity, identity_value.
    rewrite (naive_scan_ext _ (naive_identity_contrib (indet_of a) (seq_data a i) (seq_data a j)))
      by (intros; apply identity_tail_naive).
    reflexivity.
  - intros k _. apply identity_lanes_tail.
  - apply identity_tail_bit.
  - exact Hn.
Qed.

Lemma seqid_pair_naive aarch64 a i j :
  residues_in_range a ->
  seqid_pair aarch64 a i j =
  Some (let t := naive_scan (naive_seqid_contrib (indet_of a) a (seq_data a i) (seq_data a j))
                            (originalNumberOfResidues a) in
        seqid_value a i j (fst t) (snd t)).
Proof.
  intros Hn. unfold seqid_pair.
  rewrite chunked_scan_naive.
  - cbn [mbind option_bind].
    rewrite (naive_scan_ext _ (naive_seqid_contrib (indet_of a) a (seq_data a i) (seq_data a j)))
      by (intros; apply seqid_tail_naive; assumption).
    reflexivity.
  - intros k _. apply seqid_lanes_tail.
  - apply seqid_tail_bit.
  - exact Hn.
Qed.

Lemma seqid_value_naive a i j :
  fst (let t := naive_scan (naive_seqid_contrib (indet_of a) a (seq_data a i) (seq_data a j))
                           (originalNumberOfResidues a) in
       seqid_value a i j (fst t) (snd t)) = naive_seqid a i j.
Proof.
  unfold naive_seqid, seqid_value. cbv zeta.
  destruct (fst (naive_scan _ _) =? 0); reflexivity.
Qed.

(** ** Loops over pairs of sequences *)

Lemma for_each_some {S} (l : list nat) (body : nat -> S -> option S)
    (g : nat -> S -> S) (s : S) :
  (forall i s, In i l -> body i s = Some (g i s)) ->
  for_each l body s = Some (fold_left (fun s i => g i s) l s).
Proof.
  revert s. induction l as [|i l IH]; intros s H.
  - reflexivity.
  - cbn [for_each fold_left]. rewrite H by (left; reflexivity).
    cbn [mbind option_bind]. apply IH. intros j s' Hj. apply H. right. exact Hj.
Qed.

Lemma in_index_range j lo hi :
  0 <= lo -> In j (index_range lo hi) <-> lo <= Z.of_nat j < hi.
Proof.
  intros Hlo. unfold index_range. rewrite in_seq. lia.
Qed.

Section FillPairs.
Variable keep : nat -> bool.
Variable put : nat -> nat -> matrix -> matrix.
Variable val : nat -> nat -> float32.

Hypothesis put_lookup : forall i j (m : matrix) key, i <> j ->
  put i j m !! key =
  if decide (key = (i, j) \/ key = (j, i)) then Some (val i j) else m !! key.

Let row (i : nat) (js : list nat) (m : matrix) : matrix :=
  fold_left (fun m j => if keep j then put i j m else m) js m.

Lemma row_preserve (i : nat) (js : list nat) (m : matrix) (key : nat * nat) :
  (forall j, In j js -> i <> j /\ key <> (i, j) /\ key <> (j, i)) ->
  row i js m !! key = m !! key.
Proof.
  revert m. induction js as [|j js IH]; intros m H.
  - reflexivity.
  - unfold row in *. cbn [fold_left]. rewrite IH.
    + destruct (keep j); [|reflexivity].
      destruct (H j (or_introl eq_refl)) as (Hij & H1 & H2).
      rewrite put_lookup by exact Hij.
      destruct (decide _) as [[?|?]|_]; [contradiction.. | reflexivity].
    + intros j' Hj'. apply H. right. exact Hj'.
Qed.

Lemma row_hit (i : nat) (js : list nat) (m : matrix) (y : nat) :
  (forall j, In j js -> i <> j) -> In y js -> keep y = true ->
  row i js m !! (i, y) = Some (val i y) /\ row i js m !! (y, i) = Some (val i y).
Proof.
  revert m. induction js as [|j js IH]; intros m Hne Hy Hk; [destruct Hy|].
  destruct (in_dec Nat.eq_dec y js) as [Hin | Hnin].
  - unfold row in *. cbn [fold_left]. apply IH; auto.
    intros j' Hj'. apply Hne. right. exact Hj'.
  - destruct Hy as [-> | Hy]; [|contradiction].
    assert (Hiy : i <> y) by (apply Hne; left; reflexivity).
    assert (Hrow : forall key, (key = (i, y) \/ key = (y, i)) ->
              row i (y :: js) m !! key = Some (val i y)).
    { intros key Hkey. unfold row. cbn [fold_left]. rewrite Hk.
      fold (row i js (put i y m)). rewrite row_preserve.
      - rewrite put_lookup by exact Hiy. destruct (decide _); [reflexivity | contradiction].
      - intros j' Hj'. assert (i <> j') by (apply Hne; right; exact Hj').
        assert (y <> j') by (intros ->; contradiction).
        split; [assumption|].
        destruct Hkey as [-> | ->]; split; intros [=]; congruence. }
    split; apply Hrow; auto.
Qed.

Let rows (N : Z) (rws : list nat) (m : matrix) : matrix :=
  fold_left (fun m i =>
    if keep i then row i (index_range (Z.of_nat i + 1) N) m else m) rws m.

Lemma rows_preserve (N : Z) (rws : list nat) (m : matrix) (key : nat * nat) :
  (forall i j, In i rws -> Z.of_nat i < Z.of_nat j < N -> key <> (i, j) /\ key <> (j, i)) ->
  rows N rws m !! key = m !! key.
Proof.
  revert m. induction rws as [|i rws IH]; intros m H.
  - reflexivity.
  - unfold rows in *. cbn [fold_left]. rewrite IH.
    + destruct (keep i); [|reflexivity].
      apply row_preserve. intros j Hj. apply in_index_range in Hj; [|lia].
      split; [lia|]. apply H; [left; reflexivity | lia].
    + intros i' j Hi'. apply H. right. exact Hi'.
Qed.

Lemma rows_hit (N : Z) (rws : list nat) (m : matrix) (x y : nat) :
  In x rws -> Z.of_nat x < Z.of_nat y < N -> keep x = true -> keep y = true ->
  rows N rws m !! (x, y) = Some (val x y) /\ rows N rws m !! (y, x) = Some (val x y).
Proof.
  revert m. induction rws as [|i rws IH]; intros m Hx Hxy Hkx Hky; [destruct Hx|].
  destruct (in_dec Nat.eq_dec x rws) as [Hin | Hnin].
  - unfold rows in *. cbn [fold_left]. apply IH; auto.
  - destruct Hx as [-> | Hx]; [|contradiction].
    assert (Hin : In y (index_range (Z.of_nat x + 1) N))
      by (apply in_index_range; lia).
    assert (Hne : forall j, In j (index_range (Z.of_nat x + 1) N) -> x <> j)
      by (intros j Hj; apply in_index_range in Hj; lia).
    destruct (row_hit x _ m y Hne Hin Hky) as [H1 H2].
    unfold rows. cbn [fold_left]. rewrite Hkx.
    fold (rows N rws (row x (index_range (Z.of_nat x + 1) N) m)).
    rewrite !rows_preserve; [auto | |].
    + intros i j Hi Hij. split; intros [=]; subst; [lia | contradiction].
    + intros i j Hi Hij. split; intros [=]; subst; [contradiction | lia].
Qed.

Lemma fill_pairs_lookup (N : Z) (m0 : matrix) (x y : nat) :
  (x < y)%nat -> Z.of_nat y < N -> keep x = true -> keep y = true ->
  fill_pairs keep put N m0 !! (x, y) = Some (val x y) /\
  fill_pairs keep put N m0 !! (y, x) = Some (val x y).
Proof.
  intros Hxy Hy Hkx Hky.
  apply (rows_hit N (index_range 0 N) m0 x y); auto; [|lia].
  apply in_index_range; lia.
Qed.

Lemma fill_pairs_diag (N : Z) (m0 : matrix) (x : nat) :
  fill_pairs keep put N m0 !! (x, x) = m0 !! (x, x).
Proof.
  apply (rows_preserve N (index_range 0 N) m0).
  intros i j _ Hij. split; intros [=]; subst; lia.
Qed.
End FillPairs.

(** ** The two identity matrices *)

Lemma mirror_lookup (i j : nat) (v : float32) (m : matrix) (key : nat * nat) :
  i <> j ->
  mirror i j v m !! key =
  if decide (key = (i, j) \/ key = (j, i)) then Some v else m !! key.
Proof.
  intros Hij. unfold mirror. rewrite !lookup_insert.
  repeat case_decide; subst; try reflexivity; try tauto;
    match goal with H : _ \/ _ |- _ => destruct H; congruence end.
Qed.

Lemma mirror_back_lookup (i j : nat) (v : float32) (m : matrix) (key : nat * nat) :
  i <> j ->
  mirror_back i j v m !! key =
  if decide (key = (i, j) \/ key = (j, i)) then Some v else m !! key.
Proof.
  intros Hij. unfold mirror_back. rewrite !lookup_insert.
  repeat case_decide; subst; try reflexivity; try tauto;
    match goal with H : _ \/ _ |- _ => destruct H; congruence end.
Qed.

Lemma identity_rows_fill aarch64 a :
  residues_in_range a ->
  identity_rows aarch64 a =
  Some (fill_pairs (fun _ => true) (fun i j => mirror i j (naive_identity a i j))
                   (originalNumberOfSequences a) ∅).
Proof.
  intros Hn. unfold identity_rows, fill_pairs.
  apply for_each_some. intros i m _.
  apply for_each_some. intros j m' _.
  rewrite identity_pair_naive by exact Hn. reflexivity.
Qed.

Lemma fold_left_proj {S T} (f : S -> nat -> S) (h : T -> nat -> T) (pr : S -> T)
    (l : list nat) (s : S) :
  (forall s i, pr (f s i) = h (pr s) i) ->
  pr (fold_left f l s) = fold_left h l (pr s).
Proof.
  intros H. revert s. induction l as [|i l IH]; intros s.
  - reflexivity.
  - cbn [fold_left]. rewrite IH, H. reflexivity.
Qed.

Lemma fold_left_log {A} (c : nat -> list A) (l : list nat) (log : list A) :
  fold_left (fun log i => log ++ c i) l log = log ++ flat_map c l.
Proof.
  revert log. induction l as [|i l IH]; intros log.
  - cbn. rewrite app_nil_r. reflexivity.
  - cbn [fold_left flat_map]. rewrite IH, <- app_assoc. reflexivity.
Qed.

Lemma calculateSeqIdentity_fill aarch64 a :
  residues_in_range a ->
  calculateSeqIdentity aarch64 a =
  Some (fill_pairs (kept a) (fun i j => mirror_back i j (naive_seqid a i j))
                   (originalNumberOfSequences a) (seqid_diagonal a),
        seqid_log a).
Proof.
  intros Hn. unfold calculateSeqIdentity.
  rewrite (for_each_some _ _ (fun i st =>
    if removed a i then st
    else fold_left (fun st j =>
           if removed a j then st
           else (mirror_back i j (fst (seqid_result a i j)) (fst st),
                 snd st ++ snd (seqid_result a i j)))
         (index_range (Z.of_nat i + 1) (originalNumberOfSequences a)) st)).
  2:{ intros i st _. destruct (removed a i); [reflexivity|].
      apply for_each_some. intros j st' _. destruct (removed a j); [reflexivity|].
      rewrite seqid_pair_naive by exact Hn. reflexivity. }
  f_equal. apply injective_projections.
  - cbn [fst].
    rewrite (fold_left_proj _ (fun m i =>
      if kept a i then
        fold_left (fun m j => if kept a j then mirror_back i j (naive_seqid a i j) m else m)
                  (index_range (Z.of_nat i + 1) (originalNumberOfSequences a)) m
      else m) fst).
    + reflexivity.
    + intros st i. unfold kept. destruct (removed a i); [reflexivity|]. cbn [negb].
      apply fold_left_proj. intros st' j. destruct (removed a j); [reflexivity|].
      cbn [negb fst]. unfold seqid_result. rewrite seqid_value_naive. reflexivity.
  - cbn [snd].
    rewrite (fold_left_proj _ (fun log i => log ++
      (if removed a i then []
       else flat_map (fun j => if removed a j then [] else snd (seqid_result a i j))
                     (index_range (Z.of_nat i + 1) (originalNumberOfSequences a)))) snd).
    + rewrite fold_left_log. reflexivity.
    + intros st i. destruct (removed a i); [rewrite app_nil_r; reflexivity|].
      rewrite <- fold_left_log. apply fold_left_proj.
      intros st' j. destruct (removed a j); [rewrite app_nil_r|]; reflexivity.
Qed.

Lemma identity_matrix_entries aarch64 a i j :
  residues_in_range a ->
  (i < j)%nat -> Z.of_nat j < originalNumberOfSequences a ->
  exists m, identity_rows aarch64 a = Some m /\
    m !! (i, j) = Some (naive_identity a i j) /\
    m !! (j, i) = Some (naive_identity a i j).
Proof.
  intros Hn Hij Hj. eexists. split; [apply identity_rows_fill; exact Hn|].
  apply (fill_pairs_lookup (fun _ => true) _ (naive_identity a)); auto.
  intros; apply mirror_lookup; assumption.
Qed.

Lemma seqid_matrix_entries aarch64 a i j :
  residues_in_range a ->
  (i < j)%nat -> Z.of_nat j < originalNumberOfSequences a ->
  kept a i = true -> kept a j = true ->
  exists ident, calculateSeqIdentity aarch64 a = Some (ident, seqid_log a) /\
    ident !! (i, j) = Some (naive_seqid a i j) /\
    ident !! (j, i) = Some (naive_seqid a i j).
Proof.
  intros Hn Hij Hj Hki Hkj. eexists. split; [apply calculateSeqIdentity_fill; exact Hn|].
  apply (fill_pairs_lookup (kept a) _ (naive_seqid a)); auto.
  intros; apply mirror_back_lookup; assumption.
Qed.

(** A kept pair without any comparable position gets 0 in both slots of
    the masked matrix, and its two names are reported. *)
Lemma seqid_degenerate_pair aarch64 a i j :
  residues_in_range a ->
  (i < j)%nat -> Z.of_nat j < originalNumberOfSequences a ->
  kept a i = true -> kept a j = true ->
  fst (naive_scan (naive_seqid_contrib (indet_of a) a (seq_data a i) (seq_data a j))
                  (originalNumberOfResidues a)) = 0 ->
  exists ident log,
    calculateSeqIdentity aarch64 a = Some (ident, log) /\
    ident !! (i, j) = Some f32_zero /\ ident !! (j, i) = Some f32_zero /\
    In (NoResidueSequences (nth i (seqsName a) EmptyString)
                           (nth j (seqsName a) EmptyString)) log.
Proof.
  intros Hn Hij Hj Hki Hkj Hdst.
  destruct (seqid_matrix_entries aarch64 a i j Hn Hij Hj Hki Hkj) as (ident & Hc & H1 & H2).
  assert (Hz : naive_seqid a i j = f32_zero)
    by (unfold naive_seqid; cbv zeta; rewrite Hdst; reflexivity).
  rewrite Hz in H1, H2. exists ident, (seqid_log a).
  split; [exact Hc|]. split; [exact H1|]. split; [exact H2|].
  unfold seqid_log. apply in_flat_map. exists i. split; [apply in_index_range; lia|].
  unfold kept in Hki, Hkj. destruct (removed a i); [discriminate|].
  apply in_flat_map. exists j. split; [apply in_index_range; lia|].
  destruct (removed a j); [discriminate|].
  unfold seqid_result, seqid_value. cbv zeta. rewrite Hdst. left. reflexivity.
Qed.

(** C4.  For every alignment whose residue count is an [int] that
    leaves room for the guard [k + NLANES_8*UCHAR_MAX] (any count from 0
    up to [INT_MAX - 4080], whatever its remainder by the lane width or
    by 255 lane widths), the chunked scans of both identity builders
    return, and the [float] they store for every pair is the one the
    naive position-at-a-time computation gives. *)
Theorem C4_chunked_scans_agree_with_naive (aarch64 : bool) (s : NEONSimilarity)
    (Hn : residues_in_range (sim_alig s))
    (Hnull : matrixIdentity s = None) :
  let a := sim_alig s in
  (exists s' m,
     calculateMatrixIdentity aarch64 s = Some s' /\
     matrixIdentity s' = Some m /\
     forall i j : nat, (i < j)%nat -> Z.of_nat j < originalNumberOfSequences a ->
       m !! (i, j) = Some (naive_identity a i j) /\
       m !! (j, i) = Some (naive_identity a i j)) /\
  (exists ident log,
     calculateSeqIdentity aarch64 a = Some (ident, log) /\
     forall i j : nat, (i < j)%nat -> Z.of_nat j < originalNumberOfSequences a ->
       kept a i = true -> kept a j = true ->
       ident !! (i, j) = Some (naive_seqid a i j) /\
       ident !! (j, i) = Some (naive_seqid a i j)).
Proof.
  cbv zeta. split.
  - unfold calculateMatrixIdentity. rewrite Hnull, identity_rows_fill by exact Hn.
    cbn [mbind option_bind]. do 2 eexists. split; [reflexivity|].
    split; [reflexivity|]. intros i j Hij Hj.
    apply (fill_pairs_lookup (fun _ => true) _ (naive_identity (sim_alig s))); auto.
    intros; apply mirror_lookup; assumption.
  - do 2 eexists. split; [apply calculateSeqIdentity_fill; exact Hn|].
    intros i j Hij Hj Hki Hkj.
    apply (fill_pairs_lookup (kept (sim_alig s)) _ (naive_seqid (sim_alig s))); auto.
    intros; apply mirror_back_lookup; assumption.
Qed.

(** C6.  After [calculateMatrixIdentity] has built the matrix, the two
    slots of every pair of distinct original sequences hold the same
    value; after [calculateSeqIdentity], the two slots of every pair of
    distinct kept sequences hold the same value. *)
Theorem C6_identity_matrices_symmetric (aarch64 : bool) (s : NEONSimilarity)
    (Hn : residues_in_range (sim_alig s))
    (Hnull : matrixIdentity s = None) :
  let a := sim_alig s in
  (exists s' m,
     calculateMatrixIdentity aarch64 s = Some s' /\
     matrixIdentity s' = Some m /\
     forall i j : nat, i <> j ->
       Z.of_nat i < originalNumberOfSequences a ->
       Z.of_nat j < originalNumberOfSequences a ->
       exists v, m !! (i, j) = Some v /\ m !! (j, i) = Some v) /\
  (exists ident log,
     calculateSeqIdentity aarch64 a = Some (ident, log) /\
     forall i j : nat, i <> j ->
       Z.of_nat i < originalNumberOfSequences a ->
       Z.of_nat j < originalNumberOfSequences a ->
       kept a i = true -> kept a j = true ->
       exists v, ident !! (i, j) = Some v /\ ident !! (j, i) = Some v).
Proof.
  cbv zeta. split.
  - unfold calculateMatrixIdentity. rewrite Hnull, identity_rows_fill by exact Hn.
    cbn [mbind option_bind]. do 2 eexists. split; [reflexivity|].
    split; [reflexivity|]. intros i j Hij Hi Hj.
    destruct (Nat.lt_total i j) as [Hlt | [? | Hlt]]; [| contradiction |].
    + exists (naive_identity (sim_alig s) i j).
      apply (fill_pairs_lookup (fun _ => true) _ (naive_identity (sim_alig s))); auto.
      intros; apply mirror_lookup; assumption.
    + exists (naive_identity (sim_alig s) j i). apply and_comm.
      apply (fill_pairs_lookup (fun _ => true) _ (naive_identity (sim_alig s))); auto.
      intros; apply mirror_lookup; assumption.
  - do 2 eexists. split; [apply calculateSeqIdentity_fill; exact Hn|].
    intros i j Hij Hi Hj Hki Hkj.
    destruct (Nat.lt_total i j) as [Hlt | [? | Hlt]]; [| contradiction |].
    + exists (naive_seqid (sim_alig s) i j).
      apply (fill_pairs_lookup (kept (sim_alig s)) _ (naive_seqid (sim_alig s))); auto.
      intros; apply mirror_back_lookup; assumption.
    + exists (naive_seqid (sim_alig s) j i). apply and_comm.
      apply (fill_pairs_lookup (kept (sim_alig s)) _ (naive_seqid (sim_alig s))); auto.
      intros; apply mirror_back_lookup; assumption.
Qed.

(** ** binary32: integers convert to finite numbers, and [x / x] is 1 *)

Lemma digits2_pos_bounds (p : positive) :
  2 ^ (Zpos (digits2_pos p) - 1) <= Zpos p < 2 ^ Zpos (digits2_pos p).
Proof.
  induction p as [p IH | p IH |]; cbn [digits2_pos].
  - rewrite Pos2Z.inj_succ.
    replace (Z.succ (Zpos (digits2_pos p)) - 1) with (Z.succ (Zpos (digits2_pos p) - 1)) by lia.
    rewrite !Z.pow_succ_r by lia. lia.
  - rewrite Pos2Z.inj_succ.
    replace (Z.succ (Zpos (digits2_pos p)) - 1) with (Z.succ (Zpos (digits2_pos p) - 1)) by lia.
    rewrite !Z.pow_succ_r by lia. lia.
  - cbn. lia.
Qed.

Lemma Zdigits2_bounds (m : Z) :
  0 < m -> 0 < Zdigits2 m /\ 2 ^ (Zdigits2 m - 1) <= m < 2 ^ Zdigits2 m.
Proof.
  destruct m as [|p|p]; try lia. intros _. cbn [Zdigits2].
  split; [lia | apply digits2_pos_bounds].
Qed.

Lemma Zdigits2_le (m : Z) (b : Z) :
  0 < m -> 0 <= b -> m < 2 ^ b -> Zdigits2 m <= b.
Proof.
  intros Hm Hb Hlt. destruct (Zdigits2_bounds m Hm) as (Hd & Hlo & _).
  destruct (Z_le_gt_dec (Zdigits2 m) b) as [|Hgt]; [assumption|].
  assert (2 ^ b <= 2 ^ (Zdigits2 m - 1)) by (apply Z.pow_le_mono_r; lia). lia.
Qed.

Lemma Zdigits2_ge (m : Z) (b : Z) :
  0 < m -> 2 ^ b <= m -> b < Zdigits2 m.
Proof.
  intros Hm Hle. destruct (Zdigits2_bounds m Hm) as (Hd & _ & Hhi).
  destruct (Z_lt_le_dec b (Zdigits2 m)) as [|Hge]; [assumption|].
  assert (2 ^ Zdigits2 m <= 2 ^ b) by (apply Z.pow_le_mono_r; lia). lia.
Qed.

Lemma iter_pos_nat {A} (f : A -> A) (p : positive) (x : A) :
  SpecFloat.iter_pos f p x = Nat.iter (Pos.to_nat p) f x.
Proof.
  revert x. induction p as [p IH | p IH |]; intros x; cbn [SpecFloat.iter_pos].
  - rewrite !IH, Pos2Nat.inj_xI.
    replace (S (2 * Pos.to_nat p)) with (Pos.to_nat p + S (Pos.to_nat p))%nat by lia.
    rewrite Nat.iter_add, Nat.iter_succ_r. reflexivity.
  - rewrite !IH, Pos2Nat.inj_xO.
    replace (2 * Pos.to_nat p)%nat with (Pos.to_nat p + Pos.to_nat p)%nat by lia.
    rewrite Nat.iter_add. reflexivity.
  - reflexivity.
Qed.

Lemma shr_1_m (mrs : shr_record) :
  0 <= shr_m mrs -> shr_m (shr_1 mrs) = shr_m mrs / 2.
Proof.
  destruct mrs as [m r s]. cbn [shr_m]. intros Hm.
  rewrite <- Z.div2_div.
  destruct m as [|[p|p|]|p]; try reflexivity. lia.
Qed.

Lemma shr_iter_m (k : nat) (mrs : shr_record) :
  0 <= shr_m mrs ->
  shr_m (Nat.iter k shr_1 mrs) = shr_m mrs / 2 ^ Z.of_nat k.
Proof.
  intros Hm. induction k as [|k IH].
  - cbn. rewrite Z.div_1_r. reflexivity.
  - rewrite Nat.iter_succ, shr_1_m, IH.
    + rewrite Z.div_div by lia.
      rewrite Nat2Z.inj_succ, Z.pow_succ_r by lia. f_equal. lia.
    + rewrite IH. apply Z.div_pos; lia.
Qed.

(** The first step of rounding: a positive mantissa in the normal range
    keeps at most 24 digits and stays positive. *)
Lemma shr_fexp_normal (m e : Z) (l : location) :
  0 < m -> -149 <= Zdigits2 m + e - 24 ->
  exists mrs e',
    shr_fexp prec32 emax32 m e l = (mrs, e') /\
    0 < shr_m mrs /\
    e' = e + Z.max (Zdigits2 m - 24) 0 /\
    ((Zdigits2 m <= 24 /\ shr_m mrs = m) \/ 2 ^ 23 <= shr_m mrs < 2 ^ 24) /\
    shr_m mrs <= m.
Proof.
  intros Hm Hrange. destruct (Zdigits2_bounds m Hm) as (Hd & Hlo & Hhi).
  unfold shr_fexp, fexp, emin, prec32, emax32.
  replace (Z.max (Zdigits2 m + e - 24) (3 - 128 - 24) - e) with (Zdigits2 m - 24) by lia.
  assert (Hrec : shr_m (shr_record_of_loc m l) = m)
    by (destruct l as [|[]]; reflexivity).
  unfold shr. destruct (Zdigits2 m - 24) as [|k|k] eqn:Hk.
  - do 2 eexists. split; [reflexivity|]. rewrite Hrec. repeat split; auto; lia.
  - do 2 eexists. split; [reflexivity|].
    rewrite iter_pos_nat, shr_iter_m, Hrec by lia.
    rewrite positive_nat_Z.
    assert (Hpow : 2 ^ Zdigits2 m = 2 ^ Zpos k * 2 ^ 24)
      by (rewrite <- Z.pow_add_r by lia; f_equal; lia).
    assert (Hpow' : 2 ^ (Zdigits2 m - 1) = 2 ^ Zpos k * 2 ^ 23)
      by (rewrite <- Z.pow_add_r by lia; f_equal; lia).
    assert (0 < 2 ^ Zpos k) by (apply Z.pow_pos_nonneg; lia).
    assert (2 ^ 23 <= m / 2 ^ Zpos k) by (apply Z.div_le_lower_bound; lia).
    assert (m / 2 ^ Zpos k < 2 ^ 24) by (apply Z.div_lt_upper_bound; lia).
    assert (m / 2 ^ Zpos k <= m) by (apply Z.div_le_upper_bound; nia).
    change (2 ^ 23) with 8388608 in *.
    repeat split; lia.
  - do 2 eexists. split; [reflexivity|]. rewrite Hrec. repeat split; auto; lia.
Qed.

Lemma round_nearest_even_bounds (m : Z) (l : location) :
  m <= round_nearest_even m l <= m + 1.
Proof.
  unfold round_nearest_even. destruct l as [|[]]; try lia.
  destruct (Z.even m); lia.
Qed.

Lemma binary_round_aux_finite (s : bool) (m e : Z) (l : location) :
  0 < m -> -149 <= Zdigits2 m + e - 24 ->
  e + Z.max (Zdigits2 m - 24) 0 + 1 <= 104 ->
  exists m' e', binary_round_aux prec32 emax32 s m e l = S754_finite s m' e'.
Proof.
  intros Hm Hrange Hmax. destruct (Zdigits2_bounds m Hm) as (Hd & Hlo & Hhi).
  unfold binary_round_aux.
  destruct (shr_fexp_normal m e l Hm Hrange) as (mrs1 & e1 & -> & Hpos1 & He1 & Hm1 & Hle1).
  pose proof (round_nearest_even_bounds (shr_m mrs1) (loc_of_shr_record mrs1)) as Hr.
  set (m2 := round_nearest_even (shr_m mrs1) (loc_of_shr_record mrs1)) in *.
  assert (Hm2 : 0 < m2) by lia.
  (* the rounded mantissa has at most 25 digits and no fewer than before *)
  assert (Hd2 : Zdigits2 m2 <= 25 /\ Z.min (Zdigits2 m) 24 <= Zdigits2 m2).
  { destruct Hm1 as [[Hs Heq] | Hb].
    - split.
      + apply Zdigits2_le; [lia | lia |].
        assert (2 ^ Zdigits2 m <= 2 ^ 24) by (apply Z.pow_le_mono_r; lia).
        change (2 ^ 25) with (2 * 2 ^ 24). lia.
      + assert (Zdigits2 m - 1 < Zdigits2 m2) by (apply Zdigits2_ge; lia). lia.
    - split.
      + apply Zdigits2_le; [lia | lia |]. change (2 ^ 25) with (2 * 2 ^ 24). lia.
      + assert (23 < Zdigits2 m2) by (apply Zdigits2_ge; lia). lia. }
  destruct (shr_fexp_normal m2 e1 loc_Exact Hm2 ltac:(lia))
    as (mrs2 & e2 & -> & Hpos2 & He2 & _ & _).
  destruct (shr_m mrs2) as [|m'|m'] eqn:Hm'; try lia.
  replace (e2 <=? emax32 - prec32) with true
    by (symmetry; apply Z.leb_le; unfold emax32, prec32; lia).
  eauto.
Qed.

Lemma digits2_pos_shift (p k : positive) :
  digits2_pos (Pos.iter xO p k) = (digits2_pos p + k)%positive.
Proof.
  induction k as [|k IH] using Pos.peano_ind.
  - cbn. lia.
  - rewrite Pos.iter_succ. cbn [digits2_pos]. rewrite IH. lia.
Qed.

Lemma f32_of_int_finite (n : Z) :
  0 < n < 2 ^ 64 ->
  exists m e, f32_of_int n = S754_finite false m e.
Proof.
  intros [Hpos Hlt]. destruct n as [|p|p]; try lia.
  unfold f32_of_int, binary_normalize, binary_round.
  pose proof (digits2_pos_bounds p) as [Hlo Hhi].
  assert (Hd : Zpos (digits2_pos p) <= 64).
  { apply (Zdigits2_le (Zpos p)); lia. }
  unfold shl_align, fexp, emin, prec32, emax32.
  replace (Z.max (Zpos (digits2_pos p) + 0 - 24) (3 - 128 - 24) - 0)
    with (Zpos (digits2_pos p) - 24) by lia.
  destruct (Zpos (digits2_pos p) - 24) as [|k|k] eqn:Hk.
  - apply binary_round_aux_finite; cbn [Zdigits2]; lia.
  - apply binary_round_aux_finite; cbn [Zdigits2]; lia.
  - apply binary_round_aux_finite; cbn [Zdigits2];
      rewrite ?digits2_pos_shift; lia.
Qed.

Lemma f32_div_same (s : bool) (m : positive) (e : Z) :
  f32_div (S754_finite s m e) (S754_finite s m e) = f32_one.
Proof.
  unfold f32_div, SFdiv, SFdiv_core_binary.
  replace (Zdigits2 (Zpos m) + e - (Zdigits2 (Zpos m) + e)) with 0 by lia.
  replace (e - e) with 0 by lia.
  change (Z.min (fexp prec32 emax32 0) 0) with (-24).
  change (0 - -24) with 24.
  cbv iota beta.
  rewrite Z.shiftl_mul_pow2 by lia.
  pose proof (Z_div_mod (Zpos m * 2 ^ 24) (Zpos m) ltac:(lia)) as Hdm.
  destruct (Z.div_eucl (Zpos m * 2 ^ 24) (Zpos m)) as [q r].
  destruct Hdm as [Heq Hr].
  change (2 ^ 24) with 16777216 in Heq.
  assert (Hq : q = 16777216).
  { destruct (Z.lt_trichotomy q 16777216) as [Hlt | [Heq' | Hgt]]; [nia | exact Heq' | nia]. }
  subst q. assert (r = 0) by lia. subst r.
  rewrite xorb_nilpotent.
  replace (new_location (Zpos m) 0) with loc_Exact
    by (unfold new_location; destruct (Z.even (Zpos m)); reflexivity).
  reflexivity.
Qed.

Lemma f32_div_int_same (n : Z) :
  0 < n < 2 ^ 64 -> f32_div (f32_of_int n) (f32_of_int n) = f32_one.
Proof.
  intros Hn. destruct (f32_of_int_finite n Hn) as (m & e & ->).
  apply f32_div_same.
Qed.

(** ** The overlap scorer *)

Lemma spurious_vec_lanes (indet : Z) (datai dataj : list Z) (k : Z) (u : list Z) :
  spurious_vec indet datai dataj (k, u) =
  (int_plus_size k NLANES_8,
   vst1q_u8 u k
     (map (fun t => wrap8 (byte_at u (k + Z.of_nat t)
                           + spurious_agree indet datai dataj (k + Z.of_nat t)))
          lanes16)).
Proof.
  unfold spurious_vec, vaddq_u8. lanes_normal.
  do 2 f_equal. apply map_ext. intros t. f_equal. f_equal.
  unfold spurious_agree, b2z.
  generalize (byte_at datai (k + Z.of_nat t)) (byte_at dataj (k + Z.of_nat t)).
  intros x y.
  destruct (x =? ch_gap), (x =? indet), (y =? ch_gap), (y =? indet), (x =? y);
    reflexivity.
Qed.

Lemma length_vst1q_u8 (p : list Z) (k : Z) (v : uint8x16_t) :
  length v = 16%nat -> 0 <= k -> k + 16 <= Z.of_nat (length p) ->
  length (vst1q_u8 p k v) = length p.
Proof.
  intros Hv Hk Hlen. unfold vst1q_u8.
  rewrite !length_app, length_take, length_drop, Hv. lia.
Qed.

Lemma nth_vst1q_u8 (p : list Z) (k : Z) (F : nat -> Z) (q : nat) :
  0 <= k -> k + 16 <= Z.of_nat (length p) ->
  nth q (vst1q_u8 p k (map F lanes16)) 0 =
  if (k <=? Z.of_nat q) && (Z.of_nat q <? k + 16)
  then F (q - Z.to_nat k)%nat else nth q p 0.
Proof.
  intros Hk Hlen. unfold vst1q_u8.
  assert (Htake : length (take (Z.to_nat k) p) = Z.to_nat k)
    by (rewrite length_take; lia).
  destruct (Z.leb_spec k (Z.of_nat q)) as [Hle | Hlt]; cbn [andb].
  - rewrite app_nth2 by lia. rewrite Htake.
    destruct (Z.ltb_spec (Z.of_nat q) (k + 16)) as [Hlt | Hge].
    + rewrite app_nth1 by (rewrite length_map; cbn; lia).
      apply nth_map_seq. lia.
    + rewrite app_nth2 by (rewrite length_map; cbn; lia).
      rewrite length_map. change (length lanes16) with 16%nat.
      rewrite !nth_lookup, lookup_drop. do 2 f_equal. lia.
  - rewrite app_nth1 by lia. rewrite !nth_lookup, lookup_take_lt by lia. reflexivity.
Qed.

Section SpuriousCompare.
Variable a : Alignment.
Variable i j : nat.
Variable u : list Z.

Let n := originalNumberOfResidues a.
Let agree (p : Z) : Z :=
  spurious_agree (indet_of a) (seq_data a i) (seq_data a j) p.

Hypothesis n_range : spurious_in_range a.
Hypothesis u_length : length u = Z.to_nat n.

Local Abbreviation advanced_to := (advanced_to n agree u).

Lemma spurious_vec_step (s : Z * list Z) :
  advanced_to s -> (int_plus_size (fst s) NLANES_8 <=? n) = true ->
  advanced_to (spurious_vec (indet_of a) (seq_data a i) (seq_data a j) s) /\
  fst (spurious_vec (indet_of a) (seq_data a i) (seq_data a j) s) = fst s + 16.
Proof.
  destruct s as [k uk]. intros (Hk & Hlen & Hnth) Hg. cbn [fst snd] in *.
  assert (Hr : 0 <= n <= INT_MAX - 16) by exact n_range.
  change NLANES_8 with 16 in Hg.
  rewrite int_plus_size_small in Hg by lia. apply Z.leb_le in Hg.
  rewrite spurious_vec_lanes. change NLANES_8 with 16.
  rewrite int_plus_size_small by lia. cbn [fst snd].
  split; [|reflexivity]. unfold advanced_to. cbn [fst snd].
  split; [lia|]. split.
  - rewrite length_vst1q_u8; [exact Hlen | reflexivity | lia | lia].
  - intros p Hp. rewrite nth_vst1q_u8 by lia.
    destruct (Z.leb_spec k (Z.of_nat p)) as [Hle | Hlt]; cbn [andb].
    + destruct (Z.ltb_spec (Z.of_nat p) (k + 16)) as [Hlt | Hge].
      * replace (k + Z.of_nat (p - Z.to_nat k)) with (Z.of_nat p) by lia.
        unfold byte_at. rewrite Nat2Z.id, Hnth by exact Hp.
        destruct (Z.ltb_spec (Z.of_nat p) k); [lia | reflexivity].
      * rewrite Hnth by exact Hp.
        destruct (Z.ltb_spec (Z.of_nat p) k); [lia | reflexivity].
    + rewrite Hnth by exact Hp.
      destruct (Z.ltb_spec (Z.of_nat p) k), (Z.ltb_spec (Z.of_nat p) (k + 16));
        try lia; reflexivity.
Qed.

Lemma spurious_tail_step (s : Z * list Z) :
  advanced_to s -> (fst s <? n) = true ->
  advanced_to (spurious_tail (indet_of a) (seq_data a i) (seq_data a j) s) /\
  fst (spurious_tail (indet_of a) (seq_data a i) (seq_data a j) s) = fst s + 1.
Proof.
  destruct s as [k uk]. intros (Hk & Hlen & Hnth) Hg. cbn [fst snd] in *.
  apply Z.ltb_lt in Hg. unfold spurious_tail. cbn [fst snd].
  split; [|reflexivity]. unfold advanced_to. cbn [fst snd].
  split; [lia|]. split.
  - rewrite length_insert. exact Hlen.
  - intros p Hp. rewrite nth_lookup.
    destruct (Nat.eq_dec p (Z.to_nat k)) as [-> | Hne].
    + rewrite list_lookup_insert_eq by lia. cbn [default].
      unfold byte_at. rewrite Hnth by lia.
      destruct (Z.ltb_spec (Z.of_nat (Z.to_nat k)) k),
        (Z.ltb_spec (Z.of_nat (Z.to_nat k)) (k + 1)); try lia.
      replace (Z.of_nat (Z.to_nat k)) with k by lia. reflexivity.
    + rewrite list_lookup_insert_ne by lia. rewrite <- nth_lookup, Hnth by exact Hp.
      destruct (Z.ltb_spec (Z.of_nat p) k), (Z.ltb_spec (Z.of_nat p) (k + 1));
        try lia; reflexivity.
Qed.

Lemma spurious_loops :
  exists s2,
    (s1 ← while (scan_fuel n) (fun s => int_plus_size (fst s) NLANES_8 <=? n)
            (spurious_vec (indet_of a) (seq_data a i) (seq_data a j)) (0, u);
     while (scan_fuel n) (fun s => fst s <? n)
           (spurious_tail (indet_of a) (seq_data a i) (seq_data a j)) s1) = Some s2 /\
    snd s2 = add_agree a i j u.
Proof.
  assert (Hr : 0 <= n <= INT_MAX - 16) by exact n_range.
  destruct (while_rule advanced_to (fun s => Z.to_nat (n - fst s))
    (fun s => int_plus_size (fst s) NLANES_8 <=? n)
    (spurious_vec (indet_of a) (seq_data a i) (seq_data a j)))
    with (fuel := scan_fuel n) (s := (0, u)) as (s1 & -> & Hadv1 & _).
  { intros s Hadv Hg. destruct (spurious_vec_step s Hadv Hg) as [Hadv' Hk'].
    split; [exact Hadv'|]. rewrite Hk'. destruct Hadv as [Hk _], Hadv' as [Hk'' _]. lia. }
  { split; [cbn; lia|]. split; [exact u_length|]. intros p Hp. cbn [fst snd].
    destruct (Z.ltb_spec (Z.of_nat p) 0); [lia | reflexivity]. }
  { unfold scan_fuel. cbn [fst]. lia. }
  cbn [mbind option_bind].
  destruct (while_rule advanced_to (fun s => Z.to_nat (n - fst s))
    (fun s => fst s <? n)
    (spurious_tail (indet_of a) (seq_data a i) (seq_data a j)))
    with (fuel := scan_fuel n) (s := s1) as (s2 & -> & (Hk2 & Hlen2 & Hnth2) & Hx2).
  { intros s Hadv Hg. destruct (spurious_tail_step s Hadv Hg) as [Hadv' Hk'].
    split; [exact Hadv'|]. rewrite Hk'. apply Z.ltb_lt in Hg. lia. }
  { exact Hadv1. }
  { unfold scan_fuel. destruct Hadv1 as [Hk1 _]. lia. }
  exists s2. split; [reflexivity|]. apply Z.ltb_ge in Hx2.
  apply (nth_ext _ _ 0 0).
  - unfold add_agree. rewrite length_map, length_seq. exact Hlen2.
  - intros p Hp. rewrite Hlen2 in Hp. rewrite Hnth2 by lia.
    destruct (Z.ltb_spec (Z.of_nat p) (fst s2)); [|lia].
    unfold add_agree. fold n. rewrite nth_map_seq by lia. reflexivity.
Qed.
End SpuriousCompare.

Lemma spurious_compare_step a i j (st : list Z * list Z) :
  spurious_in_range a ->
  length (snd st) = Z.to_nat (originalNumberOfResidues a) ->
  spurious_compare a i j st = Some (compare_step a i st j) /\
  length (snd (compare_step a i st j)) = Z.to_nat (originalNumberOfResidues a).
Proof.
  intros Hn Hlen. destruct st as [hits u]. cbn [snd] in Hlen.
  unfold spurious_compare, compare_step. cbn [fst snd].
  destruct (Nat.eqb j i); [split; [reflexivity | exact Hlen]|].
  destruct (spurious_loops a i j u Hn Hlen) as (s2 & Hloops & Hs2).
  cbn [mbind option_bind] in Hloops.
  destruct (while _ _ _ (0, u)) as [s1|]; [|discriminate Hloops].
  cbn [mbind option_bind] in *. rewrite Hloops. cbn [mbind option_bind].
  rewrite Hs2.
  destruct (Z.rem (Z.of_nat j) UCHAR_MAX =? 0); (split; [reflexivity|]); cbn [snd].
  - apply repeat_length.
  - unfold add_agree. rewrite length_map, length_seq. reflexivity.
Qed.

Lemma for_each_inv {S} (I : S -> Prop) (l : list nat)
    (body : nat -> S -> option S) (g : S -> nat -> S) (s : S) :
  (forall i s, I s -> body i s = Some (g s i) /\ I (g s i)) ->
  I s ->
  for_each l body s = Some (fold_left g l s) /\ I (fold_left g l s).
Proof.
  intros H. revert s. induction l as [|i l IH]; intros s Hs.
  - split; [reflexivity | exact Hs].
  - cbn [for_each fold_left]. destruct (H i s Hs) as [-> Hs'].
    cbn [mbind option_bind]. apply IH. exact Hs'.
Qed.

Lemma spurious_hits_closed a i :
  spurious_in_range a -> spurious_hits a i = Some (hits_of a i).
Proof.
  intros Hn. unfold spurious_hits, hits_of.
  destruct (for_each_inv
    (fun st : list Z * list Z => length (snd st) = Z.to_nat (originalNumberOfResidues a))
    (index_range 0 (originalNumberOfSequences a))
    (spurious_compare a i) (compare_step a i)
    (repeat 0 (Z.to_nat (originalNumberOfResidues a)),
     repeat 0 (Z.to_nat (originalNumberOfResidues a)))) as [-> _].
  - intros j st Hst. apply spurious_compare_step; assumption.
  - apply repeat_length.
  - reflexivity.
Qed.

Lemma count_reached_filter (ovrlap : Z) (hits : list Z) :
  Z.of_nat (length hits) < 2 ^ 32 ->
  count_reached ovrlap hits =
  Z.of_nat (length (List.filter (fun h => ovrlap <=? h) hits)).
Proof.
  unfold count_reached. intros Hlen.
  assert (H : forall c, 0 <= c -> c + Z.of_nat (length hits) < 2 ^ 32 ->
    fold_left (fun seqValue h => if ovrlap <=? h then wrap32 (seqValue + 1) else seqValue)
              hits c =
    c + Z.of_nat (length (List.filter (fun h => ovrlap <=? h) hits))).
  { clear Hlen. induction hits as [|h hits IH]; intros c Hc Hlt.
    - cbn. lia.
    - cbn [fold_left List.filter]. cbn [length] in Hlt.
      destruct (ovrlap <=? h).
      + unfold wrap32. rewrite Z.mod_small by lia.
        rewrite IH by lia. cbn [length]. lia.
      + apply IH; lia. }
  rewrite H by lia. lia.
Qed.

Lemma filter_all {A} (f : A -> bool) (l : list A) :
  Forall (fun x => f x = true) l -> List.filter f l = l.
Proof.
  induction 1 as [|x l Hx _ IH]; cbn [List.filter]; [reflexivity|].
  rewrite Hx, IH. reflexivity.
Qed.

Lemma drain_nonneg (hits u : list Z) : Forall (fun h => (0 <=? h) = true) (drain hits u).
Proof.
  unfold drain. revert u. induction hits as [|h hits IH]; intros [|x u]; cbn [zip_with];
    constructor; [|apply IH].
  apply Z.leb_le. unfold wrap32. apply Z.mod_pos_bound. lia.
Qed.

Lemma length_drain (hits u : list Z) :
  length hits = length u -> length (drain hits u) = length hits.
Proof.
  unfold drain. intros H. rewrite length_zip_with. lia.
Qed.

Lemma length_compare_fold a i (l : list nat) (st : list Z * list Z) :
  length (fst st) = Z.to_nat (originalNumberOfResidues a) ->
  length (snd st) = Z.to_nat (originalNumberOfResidues a) ->
  length (fst (fold_left (compare_step a i) l st)) = Z.to_nat (originalNumberOfResidues a) /\
  length (snd (fold_left (compare_step a i) l st)) = Z.to_nat (originalNumberOfResidues a).
Proof.
  revert st. induction l as [|j l IH]; intros st H1 H2; [auto|].
  cbn [fold_left]. apply IH; unfold compare_step;
    destruct (Nat.eqb j i); auto;
    destruct (Z.rem (Z.of_nat j) UCHAR_MAX =? 0); cbn [fst snd]; auto.
  - rewrite length_drain; [exact H1|].
    unfold add_agree. rewrite length_map, length_seq. exact H1.
  - apply repeat_length.
  - unfold add_agree. rewrite length_map, length_seq. reflexivity.
Qed.

Lemma length_hits_of a i :
  length (hits_of a i) = Z.to_nat (originalNumberOfResidues a).
Proof.
  unfold hits_of. cbv zeta.
  destruct (length_compare_fold a i (index_range 0 (originalNumberOfSequences a))
    (repeat 0 (Z.to_nat (originalNumberOfResidues a)),
     repeat 0 (Z.to_nat (originalNumberOfResidues a))))
    as [H1 H2]; try apply repeat_length.
  rewrite length_drain; [exact H1 | congruence].
Qed.

(** Writes to distinct slots of the output vector. *)
Lemma fold_insert_preserve {A} (f : nat -> A) (l : list nat) (v : list A) (i : nat) :
  ~ In i l -> fold_left (fun v i => <[i := f i]> v) l v !! i = v !! i.
Proof.
  revert v. induction l as [|x l IH]; intros v Hi; [reflexivity|].
  cbn [fold_left]. rewrite IH by (intros ?; apply Hi; right; assumption).
  apply list_lookup_insert_ne. intros ->. apply Hi. left. reflexivity.
Qed.

Lemma fold_insert_lookup {A} (f : nat -> A) (l : list nat) (v : list A) (i : nat) :
  (i < length v)%nat -> In i l ->
  fold_left (fun v i => <[i := f i]> v) l v !! i = Some (f i).
Proof.
  revert v. induction l as [|x l IH]; intros v Hlen Hi; [destruct Hi|].
  cbn [fold_left]. destruct (in_dec Nat.eq_dec i l) as [Hin | Hnin].
  - apply IH; [rewrite length_insert; exact Hlen | exact Hin].
  - destruct Hi as [-> | Hi]; [|contradiction].
    rewrite fold_insert_preserve by exact Hnin.
    apply list_lookup_insert_eq. exact Hlen.
Qed.

Lemma f32_eqb_zero (x : float32) :
  f32_eqb x f32_zero = true -> exists s, x = S754_zero s.
Proof.
  unfold f32_eqb, SFeqb, SFcompare, f32_zero.
  destruct x as [s | s | | s m e]; try discriminate; eauto.
  - destruct s; discriminate.
  - destruct s; discriminate.
Qed.

Lemma threshold_of_zero (s : bool) (y : float32) (c : Z) :
  f32_ceil (f32_mul (S754_zero s) y) = Some c -> c = 0.
Proof.
  unfold f32_mul, SFmul, f32_ceil.
  destruct y as [sy | sy | | sy my ey]; intros [=]; congruence.
Qed.

Lemma spurious_scores_fold (overlap : float32) (a : Alignment) (v : list float32)
    (ovrlap : Z) :
  spurious_in_range a ->
  spurious_threshold overlap a = Some ovrlap ->
  calculateSpuriousVector overlap a (Some v) =
  Some (true, Some (fold_left (fun v i =>
    <[i := f32_div (f32_of_int (count_reached ovrlap (hits_of a i)))
                   (f32_of_int (originalNumberOfResidues a))]> v)
    (index_range 0 (originalNumberOfSequences a)) v)).
Proof.
  intros Hn Ht. unfold calculateSpuriousVector. rewrite Ht. cbn [mbind option_bind].
  rewrite (for_each_some _ _ (fun i v =>
    <[i := f32_div (f32_of_int (count_reached ovrlap (hits_of a i)))
                   (f32_of_int (originalNumberOfResidues a))]> v)).
  - reflexivity.
  - intros i v' _. rewrite spurious_hits_closed by exact Hn. reflexivity.
Qed.

Lemma to_uint32_small (z : Z) : 0 <= z < 2 ^ 32 -> to_uint32 z = Some z.
Proof.
  intros [H0 H1]. unfold to_uint32.
  destruct (Z.leb_spec 0 z); [|lia]. destruct (Z.ltb_spec z (2 ^ 32)); [|lia].
  reflexivity.
Qed.

Lemma residues_below_2_32 (a : Alignment) :
  spurious_in_range a -> Z.of_nat (Z.to_nat (originalNumberOfResidues a)) < 2 ^ 32.
Proof.
  unfold spurious_in_range, INT_MAX. change NLANES_8 with 16.
  change (2 ^ 31) with 2147483648. change (2 ^ 32) with 4294967296. lia.
Qed.


Lemma score_one_at_threshold_zero (a : Alignment) (i : nat) :
  spurious_in_range a -> 0 < originalNumberOfResidues a ->
  f32_div (f32_of_int (count_reached 0 (hits_of a i)))
          (f32_of_int (originalNumberOfResidues a)) = f32_one.
Proof.
  intros Hn Hpos. pose proof (residues_below_2_32 a Hn) as Hlt.
  rewrite count_reached_filter by (rewrite length_hits_of; exact Hlt).
  rewrite filter_all by (unfold hits_of; apply drain_nonneg).
  rewrite length_hits_of.
  replace (Z.of_nat (Z.to_nat (originalNumberOfResidues a)))
    with (originalNumberOfResidues a) by lia.
  apply f32_div_int_same.
  change (2 ^ 32) with 4294967296 in Hlt. change (2 ^ 64) with 18446744073709551616. lia.
Qed.

Lemma drain_zeros (n : nat) : drain (repeat 0 n) (repeat 0 n) = repeat 0 n.
Proof.
  unfold drain. induction n as [|n IH]; [reflexivity|].
  cbn [repeat zip_with]. rewrite IH. reflexivity.
Qed.

Lemma f32_in_unit_cases (x : float32) :
  f32_in_unit x = true -> (exists s, x = S754_zero s) \/ (exists m e, x = S754_finite false m e).
Proof.
  intros H. apply andb_true_iff in H. destruct H as [H0 H1].
  destruct x as [s | [|] | | [|] m e]; eauto; exfalso.
  - discriminate H0.
  - discriminate H1.
  - discriminate H0.
  - discriminate H0.
Qed.

Lemma count_reached_zeros (n : nat) :
  Z.of_nat n < 2 ^ 32 -> count_reached 0 (repeat 0 n) = Z.of_nat n.
Proof.
  intros Hn. rewrite count_reached_filter by (rewrite repeat_length; exact Hn).
  rewrite filter_all, repeat_length; [reflexivity|].
  apply Forall_forall. intros h Hh. apply list_elem_of_In, repeat_spec in Hh.
  subst h. reflexivity.
Qed.

(** C10.  For an alignment with exactly one original sequence and at
    least one residue, and any [overlap] in [0,1], the call with a
    non-null vector returns [true] and writes 1.0 into slot 0: the
    threshold is 0, the sequence is compared with no other, so every
    column's hit count is 0 and reaches the threshold. *)
Theorem C10_single_sequence_scores_one (overlap : float32) (a : Alignment)
    (v : list float32)
    (HN : originalNumberOfSequences a = 1)
    (Hpos : 0 < originalNumberOfResidues a)
    (Hint : originalNumberOfResidues a <= INT_MAX)
    (Hov : f32_in_unit overlap = true)
    (Hv : (0 < length v)%nat) :
  spurious_threshold overlap a = Some 0 /\
  spurious_hits a 0 = Some (repeat 0 (Z.to_nat (originalNumberOfResidues a))) /\
  calculateSpuriousVector overlap a (Some v) = Some (true, Some (<[0%nat := f32_one]> v)) /\
  <[0%nat := f32_one]> v !! 0%nat = Some f32_one.
Proof.
  assert (Ht : spurious_threshold overlap a = Some 0).
  { unfold spurious_threshold. rewrite HN. change (f32_of_int (1 - 1)) with (S754_zero false).
    destruct (f32_in_unit_cases overlap Hov) as [[s ->] | (m & e & ->)]; reflexivity. }
  assert (Hhits : spurious_hits a 0
                  = Some (repeat 0 (Z.to_nat (originalNumberOfResidues a)))).
  { unfold spurious_hits. rewrite HN. change (index_range 0 1) with [0%nat].
    cbn [for_each]. unfold spurious_compare. cbn [Nat.eqb mbind option_bind fst snd].
    rewrite drain_zeros. reflexivity. }
  split; [exact Ht|]. split; [exact Hhits|]. split.
  - unfold calculateSpuriousVector. rewrite Ht, HN. cbn [mbind option_bind].
    change (index_range 0 1) with [0%nat]. cbn [for_each].
    rewrite Hhits. cbn [mbind option_bind].
    unfold INT_MAX in Hint. change (2 ^ 31) with 2147483648 in Hint.
    rewrite count_reached_zeros by (change (2 ^ 32) with 4294967296; lia).
    replace (Z.of_nat (Z.to_nat (originalNumberOfResidues a)))
      with (originalNumberOfResidues a) by lia.
    rewrite f32_div_int_same by (change (2 ^ 64) with 18446744073709551616; lia).
    reflexivity.
  - apply list_lookup_insert_eq. exact Hv.
Qed.

(** ** The column scorer, column by column *)

Section Columns.
Variable toUpper : Z -> Z.
Variable sim : SimilarityMatrix.
Variable a : Alignment.

(** Inside this section the column functions are used at [toUpper],
    [sim] and [a]. *)
Local Abbreviation N := (originalNumberOfSequences a).
Local Abbreviation col_letter := (col_letter toUpper a).
Local Abbreviation col_gap := (col_gap toUpper a).
Local Abbreviation col_class := (col_class toUpper sim a).
Local Abbreviation col_error := (col_error toUpper sim a).
Local Abbreviation first_error := (first_error toUpper sim a).
Local Abbreviation filled_gap := (filled_gap toUpper a).
Local Abbreviation filled_num := (filled_num toUpper sim a).
Local Abbreviation column_sums_of := (column_sums_of toUpper sim a).

Lemma fill_column_spec (i : Z) (js : list nat) (colnum colgap : list Z) :
  fill_column toUpper sim a i js colnum colgap =
  match first_error i js with
  | Some r => inl r
  | None => inr (filled_num i js colnum, filled_gap i js colgap)
  end.
Proof.
  revert colnum colgap. induction js as [|j js IH]; intros colnum colgap.
  - reflexivity.
  - cbn [fill_column first_error filled_num filled_gap fold_left].
    unfold col_error, col_gap, col_class, col_letter in *.
    destruct ((toUpper (byte_at (seq_data a j) i) =? indet_of a)
              || (toUpper (byte_at (seq_data a j) i) =? ch_gap)).
    + apply IH.
    + destruct ((toUpper (byte_at (seq_data a j) i) <? ch_A)
                || (toUpper (byte_at (seq_data a j) i) >? ch_Z)); [reflexivity|].
      destruct (vhash sim (toUpper (byte_at (seq_data a j) i) - ch_A) =? -1);
        [reflexivity|].
      apply IH.
Qed.

Lemma first_error_kind (i : Z) (js : list nat) (r : report) :
  first_error i js = Some r ->
  exists letter, r = IncorrectSymbol letter \/ r = UndefinedSymbol letter.
Proof.
  induction js as [|j js IH]; [discriminate|]. cbn [first_error].
  destruct (col_error i j) as [r'|] eqn:He; [|exact IH].
  intros [= <-]. unfold col_error in He.
  destruct (col_gap i j); [discriminate|].
  destruct ((col_letter i j <? ch_A) || (col_letter i j >? ch_Z));
    [injection He as <-; eauto|].
  destruct (vhash sim (col_letter i j - ch_A) =? -1); [injection He as <-; eauto|].
  discriminate.
Qed.

Lemma length_filled_gap (i : Z) (js : list nat) (colgap : list Z) :
  length (filled_gap i js colgap) = length colgap.
Proof.
  revert colgap. induction js as [|j js IH]; intros colgap; [reflexivity|].
  unfold filled_gap in *. cbn [fold_left]. rewrite IH, length_insert. reflexivity.
Qed.

Lemma length_filled_num (i : Z) (js : list nat) (colnum : list Z) :
  length (filled_num i js colnum) = length colnum.
Proof.
  revert colnum. induction js as [|j js IH]; intros colnum; [reflexivity|].
  unfold filled_num in *. cbn [fold_left]. rewrite IH.
  destruct (col_gap i j); [reflexivity | apply length_insert].
Qed.

Lemma nth_filled_gap (i : Z) (js : list nat) (colgap : list Z) (j : nat) :
  (j < length colgap)%nat -> In j js ->
  nth j (filled_gap i js colgap) 0 = b2z (col_gap i j).
Proof.
  intros Hlen Hin. rewrite nth_lookup. unfold filled_gap.
  rewrite (fold_insert_lookup (fun j => b2z (col_gap i j))) by assumption.
  reflexivity.
Qed.

Lemma nth_filled_num (i : Z) (js : list nat) (colnum : list Z) (j : nat) :
  (j < length colnum)%nat -> In j js -> col_gap i j = false ->
  nth j (filled_num i js colnum) 0 = col_class i j.
Proof.
  revert colnum. induction js as [|x js IH]; intros colnum Hlen Hin Hg; [destruct Hin|].
  unfold filled_num in *. cbn [fold_left].
  destruct (in_dec Nat.eq_dec j js) as [Hin' | Hnin].
  - apply IH; [|assumption..]. destruct (col_gap i x); [|rewrite length_insert]; exact Hlen.
  - destruct Hin as [-> | Hin]; [|contradiction]. rewrite Hg.
    assert (Hkeep : forall c : list Z,
      nth j (fold_left (fun c j => if col_gap i j then c else <[j := col_class i j]> c) js c) 0
      = nth j c 0).
    { clear -Hnin. induction js as [|y js IH]; intros c; [reflexivity|].
      cbn [fold_left]. rewrite IH by (intros ?; apply Hnin; right; assumption).
      destruct (col_gap i y); [reflexivity|].
      rewrite !nth_lookup, list_lookup_insert_ne; [reflexivity|].
      intros ->. apply Hnin. left. reflexivity. }
    rewrite Hkeep, nth_lookup, list_lookup_insert_eq by exact Hlen. reflexivity.
Qed.

Lemma fold_left_ext_in {S} (f g : S -> nat -> S) (l : list nat) (s : S) :
  (forall s x, In x l -> f s x = g s x) -> fold_left f l s = fold_left g l s.
Proof.
  revert s. induction l as [|x l IH]; intros s H; [reflexivity|].
  cbn [fold_left]. rewrite H by (left; reflexivity).
  apply IH. intros s' y Hy. apply H. right. exact Hy.
Qed.

Lemma column_sums_filled (m : matrix) (i : Z) (colnum colgap : list Z) :
  0 <= N ->
  length colnum = Z.to_nat N -> length colgap = Z.to_nat N ->
  column_sums sim m N
    (filled_num i (index_range 0 N) colnum)
    (filled_gap i (index_range 0 N) colgap) =
  column_sums_of m i.
Proof.
  intros HN Hnum Hgap. unfold column_sums, column_sums_of.
  assert (Hg : forall j, In j (index_range 0 N) ->
    nth j (filled_gap i (index_range 0 N) colgap) 0 = b2z (col_gap i j)).
  { intros j Hj. apply nth_filled_gap; [|exact Hj].
    apply in_index_range in Hj; lia. }
  assert (Hc : forall j, In j (index_range 0 N) -> col_gap i j = false ->
    nth j (filled_num i (index_range 0 N) colnum) 0 = col_class i j).
  { intros j Hj. apply nth_filled_num; [|exact Hj].
    apply in_index_range in Hj; lia. }
  assert (Hsub : forall j k, In k (index_range (Z.of_nat j + 1) N) ->
    In k (index_range 0 N)).
  { intros j k Hk. apply in_index_range in Hk; [|lia]. apply in_index_range; lia. }
  apply fold_left_ext_in. intros nd j Hj. rewrite Hg by exact Hj.
  destruct (col_gap i j) eqn:Hgj; [reflexivity|]. cbn [b2z Z.eqb negb].
  rewrite Hc by assumption.
  apply fold_left_ext_in. intros nd' k Hk. apply Hsub in Hk.
  rewrite Hg by exact Hk.
  destruct (col_gap i k) eqn:Hgk; [reflexivity|]. cbn [b2z Z.eqb negb].
  rewrite Hc by assumption. reflexivity.
Qed.

Variable cutByGap : bool.
Variable m : matrix.

Local Abbreviation column_value := (column_value toUpper sim a cutByGap m).
Local Abbreviation column_fails := (column_fails toUpper sim a cutByGap).
Local Abbreviation columns_spec := (columns_spec toUpper sim a cutByGap m).

Lemma columns_loop_spec (cols : list nat) (colnum colgap : list Z) (mdk : list score) :
  0 <= N ->
  length colnum = Z.to_nat N -> length colgap = Z.to_nat N ->
  columns_loop toUpper cutByGap sim a m cols colnum colgap mdk = columns_spec cols mdk.
Proof.
  intros HN. revert colnum colgap mdk.
  induction cols as [|i cols IH]; intros colnum colgap mdk Hnum Hgap; [reflexivity|].
  cbn [columns_loop columns_spec]. unfold column_fails, column_value.
  destruct (column_cut cutByGap a i); [apply IH; assumption|].
  rewrite fill_column_spec. fold N.
  destruct (first_error (Z.of_nat i) (index_range 0 N)); [reflexivity|].
  rewrite column_sums_filled by assumption.
  apply IH; [rewrite length_filled_num | rewrite length_filled_gap]; assumption.
Qed.

Lemma columns_spec_ok (cols : list nat) (mdk : list score) :
  (forall i, In i cols -> column_fails i = None) ->
  columns_spec cols mdk =
  (None, fold_left (fun mdk i => <[i := column_value i]> mdk) cols mdk).
Proof.
  revert mdk. induction cols as [|i cols IH]; intros mdk H; [reflexivity|].
  cbn [columns_spec fold_left]. rewrite H by (left; reflexivity).
  apply IH. intros j Hj. apply H. right. exact Hj.
Qed.

Lemma columns_spec_fail (done rest : list nat) (c : nat) (r : report)
    (mdk : list score) :
  (forall i, In i done -> column_fails i = None) ->
  column_fails c = Some r ->
  columns_spec (done ++ c :: rest) mdk =
  (Some r, fold_left (fun mdk i => <[i := column_value i]> mdk) done mdk).
Proof.
  revert mdk. induction done as [|i done IH]; intros mdk H Hc.
  - cbn [app columns_spec fold_left]. rewrite Hc. reflexivity.
  - cbn [app columns_spec fold_left]. rewrite H by (left; reflexivity).
    apply IH; [|exact Hc]. intros j Hj. apply H. right. exact Hj.
Qed.
End Columns.

(** A column that the gap cut pre-zeroes is scored 0 and raises no
    diagnostic, whatever the similarity table holds. *)
Lemma cut_column_ignores_table (toUpper : Z -> Z) (sim sim' : SimilarityMatrix)
    (a : Alignment) (cutByGap : bool) (m : matrix) (i : nat) :
  column_cut cutByGap a i = true ->
  column_value toUpper sim a cutByGap m i = Lit f32_zero /\
  column_value toUpper sim' a cutByGap m i = Lit f32_zero /\
  column_fails toUpper sim a cutByGap i = None /\
  column_fails toUpper sim' a cutByGap i = None.
Proof.
  intros Hcut. unfold column_value, column_fails. rewrite Hcut. auto.
Qed.

(** ** [calculateVectors] as a whole *)

Lemma matrix_used_some aarch64 s :
  residues_in_range (sim_alig s) -> exists m, matrix_used aarch64 s = Some m.
Proof.
  intros Hn. unfold matrix_used. destruct (matrixIdentity s); [eauto|].
  rewrite identity_rows_fill by exact Hn. eauto.
Qed.

Lemma calculateVectors_spec (toUpper : Z -> Z) (aarch64 cutByGap : bool)
    (s : NEONSimilarity) (sim : SimilarityMatrix) (m : matrix) :
  simMatrix s = Some sim ->
  matrix_used aarch64 s = Some m ->
  0 <= originalNumberOfSequences (sim_alig s) ->
  calculateVectors toUpper aarch64 cutByGap s =
  Some (match columns_spec toUpper sim (sim_alig s) cutByGap m
                (index_range 0 (originalNumberOfResidues (sim_alig s))) (MDK s) with
        | (Some r, mdk) =>
            (false, {| sim_alig := sim_alig s; simMatrix := Some sim;
                       matrixIdentity := Some m; MDK := mdk;
                       sim_debug := sim_debug s ++ [r] |})
        | (None, mdk) =>
            (true, {| sim_alig := sim_alig s; simMatrix := Some sim;
                      matrixIdentity := None; MDK := mdk;
                      sim_debug := sim_debug s |})
        end).
Proof.
  intros Hsim Hm HN. unfold calculateVectors, matrix_used in *. rewrite Hsim.
  assert (Hs1 : exists s1,
    match matrixIdentity s with
    | Some _ => Some s
    | None => calculateMatrixIdentity aarch64 s
    end = Some s1 /\ matrixIdentity s1 = Some m /\ sim_alig s1 = sim_alig s /\
    simMatrix s1 = Some sim /\ MDK s1 = MDK s /\ sim_debug s1 = sim_debug s).
  { destruct (matrixIdentity s) as [m0|] eqn:Hmi.
    - injection Hm as ->. exists s. repeat split; auto.
    - unfold calculateMatrixIdentity. rewrite Hmi, Hm. cbn [mbind option_bind].
      eexists. split; [reflexivity|]. cbn. repeat split; auto. }
  destruct Hs1 as (s1 & -> & Hm1 & Ha1 & Hsim1 & Hmdk1 & Hdbg1).
  cbn [mbind option_bind]. rewrite Hm1. cbn [mbind option_bind].
  rewrite Ha1, Hsim1, Hmdk1, Hdbg1.
  rewrite columns_loop_spec by (try apply repeat_length; exact HN).
  destruct (columns_spec _ _ _ _ _ _ _) as [[r|] mdk]; reflexivity.
Qed.

Lemma index_range_split (n : Z) (c : nat) :
  Z.of_nat c < n ->
  index_range 0 n = seq 0 c ++ c :: seq (S c) (Z.to_nat n - S c).
Proof.
  intros Hc. unfold index_range. change (Z.to_nat 0) with 0%nat.
  replace (Z.to_nat (n - 0)) with (c + S (Z.to_nat n - S c))%nat by lia.
  rewrite seq_app. cbn [seq Nat.add]. reflexivity.
Qed.

(** C9.  When the scorer stops at column [c] on a symbol that is
    incorrect or undefined, it returns [false]; the entries of [MDK] for
    the columns before [c] hold their new scores (the entries from [c]
    on are as before the call), the identity matrix is still there (not
    released, not reset), and the diagnostic has been reported. *)
Theorem C9_failure_leaves_partial_state (toUpper : Z -> Z) (aarch64 cutByGap : bool)
    (s : NEONSimilarity) (sim : SimilarityMatrix) (c : nat) (r : report)
    (Hsim : simMatrix s = Some sim)
    (Hn : residues_in_range (sim_alig s))
    (HN : 0 <= originalNumberOfSequences (sim_alig s))
    (Hmdk : length (MDK s) = Z.to_nat (originalNumberOfResidues (sim_alig s)))
    (Hc : Z.of_nat c < originalNumberOfResidues (sim_alig s))
    (Hbefore : forall i, (i < c)%nat ->
       column_fails toUpper sim (sim_alig s) cutByGap i = None)
    (Hfail : column_fails toUpper sim (sim_alig s) cutByGap c = Some r) :
  exists s' m,
    calculateVectors toUpper aarch64 cutByGap s = Some (false, s') /\
    matrix_used aarch64 s = Some m /\
    matrixIdentity s' = Some m /\
    (forall i, (i < c)%nat ->
       MDK s' !! i = Some (column_value toUpper sim (sim_alig s) cutByGap m i)) /\
    (forall i, (c <= i)%nat -> MDK s' !! i = MDK s !! i) /\
    sim_debug s' = sim_debug s ++ [r] /\
    exists letter, r = IncorrectSymbol letter \/ r = UndefinedSymbol letter.
Proof.
  destruct (matrix_used_some aarch64 s Hn) as [m Hm].
  rewrite (calculateVectors_spec toUpper aarch64 cutByGap s sim m Hsim Hm HN).
  rewrite (index_range_split _ c Hc).
  rewrite (columns_spec_fail toUpper sim (sim_alig s) cutByGap m (seq 0 c) _ c r).
  - do 2 eexists. split; [reflexivity|]. split; [exact Hm|]. cbn [matrixIdentity MDK sim_debug].
    split; [reflexivity|]. split; [|split; [|split; [reflexivity|]]].
    + intros i Hi. apply fold_insert_lookup; [lia | apply in_seq; lia].
    + intros i Hi. apply fold_insert_preserve. rewrite in_seq. lia.
    + unfold column_fails in Hfail. destruct (column_cut cutByGap (sim_alig s) c);
        [discriminate|]. eapply first_error_kind. exact Hfail.
  - intros i Hi. apply Hbefore. apply in_seq in Hi. lia.
  - exact Hfail.
Qed.

(** C1 (amended).  When no column raises a diagnostic, the scorer
    returns [true] and, for every column that the gap cut does not
    pre-zero and whose [den] is nonzero, with [Q = num/den]: the score
    is 1 whenever [Q < 0], and [exp(-Q)] otherwise. *)
Theorem C1_score_is_one_for_negative_Q (toUpper : Z -> Z) (aarch64 cutByGap : bool)
    (s : NEONSimilarity) (sim : SimilarityMatrix)
    (Hsim : simMatrix s = Some sim)
    (Hn : residues_in_range (sim_alig s))
    (HN : 0 <= originalNumberOfSequences (sim_alig s))
    (Hmdk : length (MDK s) = Z.to_nat (originalNumberOfResidues (sim_alig s)))
    (Hok : forall i, Z.of_nat i < originalNumberOfResidues (sim_alig s) ->
       column_fails toUpper sim (sim_alig s) cutByGap i = None) :
  exists s' m,
    calculateVectors toUpper aarch64 cutByGap s = Some (true, s') /\
    matrix_used aarch64 s = Some m /\
    forall i, Z.of_nat i < originalNumberOfResidues (sim_alig s) ->
      column_cut cutByGap (sim_alig s) i = false ->
      let num := fst (column_sums_of toUpper sim (sim_alig s) m (Z.of_nat i)) in
      let den := snd (column_sums_of toUpper sim (sim_alig s) m (Z.of_nat i)) in
      let Q := f32_div num den in
      f32_eqb den (f32_of_int 0) = false ->
      MDK s' !! i =
        Some (if f32_ltb Q (f32_of_int 0) then Lit f32_one else ExpOf (f32_neg Q)).
Proof.
  destruct (matrix_used_some aarch64 s Hn) as [m Hm].
  rewrite (calculateVectors_spec toUpper aarch64 cutByGap s sim m Hsim Hm HN).
  rewrite columns_spec_ok
    by (intros i Hi; apply Hok; apply in_index_range in Hi; lia).
  do 2 eexists. split; [reflexivity|]. split; [exact Hm|].
  intros i Hi Hcut num den Q Hden. cbn [MDK].
  rewrite (fold_insert_lookup (column_value toUpper sim (sim_alig s) cutByGap m))
    by (try apply in_index_range; lia).
  unfold column_value, column_score. rewrite Hcut.
  subst num den Q.
  destruct (column_sums_of toUpper sim (sim_alig s) m (Z.of_nat i)) as [num den].
  cbn [fst snd] in *. rewrite Hden. reflexivity.
Qed.

(** ** What the hit counters count *)

Lemma spurious_agree_bit indet datai dataj p :
  0 <= spurious_agree indet datai dataj p <= 1.
Proof.
  unfold spurious_agree, b2z.
  match goal with |- context [if ?b then _ else _] => destruct b end; lia.
Qed.

Lemma agree_count_snoc a i p js j :
  agree_count a i p (js ++ [j]) =
  agree_count a i p js +
  (if Nat.eqb j i then 0
   else spurious_agree (indet_of a) (seq_data a i) (seq_data a j) p).
Proof.
  unfold agree_count. rewrite map_app, sumZ_app. cbn. lia.
Qed.

Lemma agree_count_bounds a i p js :
  0 <= agree_count a i p js <= Z.of_nat (length js).
Proof.
  induction js as [|j js IH] using rev_ind.
  - cbn. lia.
  - rewrite agree_count_snoc, length_app. cbn [length].
    pose proof (spurious_agree_bit (indet_of a) (seq_data a i) (seq_data a j) p).
    destruct (Nat.eqb j i); lia.
Qed.

Lemma nth_add_agree a i j (u : list Z) (p : nat) :
  Z.of_nat p < originalNumberOfResidues a ->
  nth p (add_agree a i j u) 0 =
  wrap8 (nth p u 0
         + spurious_agree (indet_of a) (seq_data a i) (seq_data a j) (Z.of_nat p)).
Proof.
  intros Hp. unfold add_agree. rewrite nth_map_seq by lia. reflexivity.
Qed.

Lemma nth_drain (hits u : list Z) (p : nat) :
  (p < length hits)%nat -> (p < length u)%nat ->
  nth p (drain hits u) 0 = wrap32 (nth p hits 0 + nth p u 0).
Proof.
  unfold drain. revert u p. induction hits as [|h hits IH]; intros [|x u] [|p] H1 H2;
    cbn [length] in *; try lia; cbn [zip_with nth]; [reflexivity|].
  apply IH; lia.
Qed.

Section HitCounters.
Variable a : Alignment.
Variable i : nat.

Let n := originalNumberOfResidues a.

(** The transfer at [j = i] is skipped; it is missed only when [i] is
    a positive multiple of 255. *)
Hypothesis i_flushes : i = 0%nat \/ Z.rem (Z.of_nat i) UCHAR_MAX <> 0.
Hypothesis n_range : spurious_in_range a.

Local Abbreviation counters_after := (counters_after a i n).

Lemma counters_step (k : nat) (st : list Z * list Z) :
  Z.of_nat k < 2 ^ 32 - 1 ->
  (k = 0%nat -> forall p : nat, Z.of_nat p < n ->
      nth p (fst st) 0 = 0 /\ nth p (snd st) 0 = 0) ->
  (k <> 0%nat -> counters_after k st) ->
  length (fst st) = Z.to_nat n -> length (snd st) = Z.to_nat n ->
  counters_after (S k) (compare_step a i st k).
Proof.
  intros Hk Hzero Hinv Hl1 Hl2.
  assert (Hst : forall p : nat, Z.of_nat p < n ->
    0 <= nth p (fst st) 0 /\
    0 <= nth p (snd st) 0 /\
    (k <> 0%nat -> nth p (snd st) 0 <= Z.rem (Z.of_nat k - 1) UCHAR_MAX) /\
    nth p (fst st) 0 + nth p (snd st) 0 = agree_count a i (Z.of_nat p) (seq 0 k)).
  { intros p Hp. destruct (Nat.eq_dec k 0%nat) as [-> | Hne].
    - destruct (Hzero eq_refl p Hp) as [-> ->]. cbn. lia.
    - destruct (Hinv Hne) as (_ & _ & H). specialize (H p Hp). lia. }
  clear Hzero Hinv.
  assert (Hrem : Z.rem (Z.of_nat (S k) - 1) UCHAR_MAX = Z.rem (Z.of_nat k) UCHAR_MAX)
    by (f_equal; lia).
  assert (Hprev : k <> 0%nat -> Z.rem (Z.of_nat k) UCHAR_MAX <> 0 ->
    Z.rem (Z.of_nat k - 1) UCHAR_MAX + 1 = Z.rem (Z.of_nat k) UCHAR_MAX).
  { intros Hne Hnz. unfold UCHAR_MAX in *.
    rewrite !Z.rem_mod_nonneg in * by lia.
    pose proof (Z.mod_pos_bound (Z.of_nat k) 255 ltac:(lia)).
    pose proof (Z.mod_pos_bound (Z.of_nat k - 1) 255 ltac:(lia)).
    pose proof (Z.div_mod (Z.of_nat k) 255 ltac:(lia)).
    pose proof (Z.div_mod (Z.of_nat k - 1) 255 ltac:(lia)).
    nia. }
  assert (Hbound : 0 <= Z.rem (Z.of_nat k) UCHAR_MAX < 255).
  { unfold UCHAR_MAX. rewrite Z.rem_mod_nonneg by lia. apply Z.mod_pos_bound. lia. }
  unfold counters_after, compare_step. rewrite Hrem.
  rewrite seq_S. cbn [Nat.add].
  destruct (Nat.eqb_spec k i) as [-> | Hki].
  - (* the sequence itself: nothing changes *)
    split; [exact Hl1|]. split; [exact Hl2|]. intros p Hp.
    destruct (Hst p Hp) as (H1 & H2 & H3 & H4).
    rewrite agree_count_snoc, Nat.eqb_refl.
    destruct i_flushes as [-> | Hnz].
    + destruct (Hst p Hp) as (_ & _ & _ & H5). cbn in H5.
      assert (nth p (snd st) 0 = 0) by lia. cbn. lia.
    + assert (i <> 0%nat) by (intros ->; apply Hnz; reflexivity).
      specialize (H3 ltac:(assumption)). specialize (Hprev ltac:(assumption) Hnz). lia.
  - (* another sequence *)
    assert (Hu' : forall p : nat, Z.of_nat p < n ->
      nth p (add_agree a i k (snd st)) 0 =
      nth p (snd st) 0
      + spurious_agree (indet_of a) (seq_data a i) (seq_data a k) (Z.of_nat p) /\
      (Z.rem (Z.of_nat k) UCHAR_MAX <> 0 ->
       nth p (add_agree a i k (snd st)) 0 <= Z.rem (Z.of_nat k) UCHAR_MAX)).
    { intros p Hp. rewrite nth_add_agree by exact Hp.
      destruct (Hst p Hp) as (H1 & H2 & H3 & H4).
      pose proof (spurious_agree_bit (indet_of a) (seq_data a i) (seq_data a k)
                    (Z.of_nat p)) as Hbit.
      assert (Hle : nth p (snd st) 0 <= 254).
      { destruct (Nat.eq_dec k 0%nat) as [-> | Hne].
        - cbn in H4. lia.
        - specialize (H3 Hne).
          assert (0 <= Z.rem (Z.of_nat k - 1) UCHAR_MAX < 255); [|lia].
          unfold UCHAR_MAX. rewrite Z.rem_mod_nonneg by lia.
          apply Z.mod_pos_bound. lia. }
      unfold wrap8. change (2 ^ 8) with 256. rewrite Z.mod_small by lia.
      split; [reflexivity|]. intros Hnz.
      destruct (Nat.eq_dec k 0%nat) as [-> | Hne]; [exfalso; apply Hnz; reflexivity|].
      specialize (H3 Hne). specialize (Hprev Hne Hnz). lia. }
    assert (Hlen' : length (add_agree a i k (snd st)) = Z.to_nat n)
      by (unfold add_agree; rewrite length_map, length_seq; reflexivity).
    destruct (Z.eqb_spec (Z.rem (Z.of_nat k) UCHAR_MAX) 0) as [Hz | Hnz]; cbn [fst snd].
    + split; [rewrite length_drain; congruence|]. split; [apply repeat_length|].
      intros p Hp. rewrite nth_repeat, nth_drain by lia.
      destruct (Hst p Hp) as (H1 & H2 & H3 & H4). destruct (Hu' p Hp) as [Hu1 _].
      pose proof (spurious_agree_bit (indet_of a) (seq_data a i) (seq_data a k)
                    (Z.of_nat p)) as Hbit.
      pose proof (agree_count_bounds a i (Z.of_nat p) (seq 0 k)) as Hcnt.
      rewrite length_seq in Hcnt.
      rewrite agree_count_snoc. destruct (Nat.eqb_spec k i); [contradiction|].
      unfold wrap32. rewrite Z.mod_small by lia. rewrite Hz. lia.
    + split; [exact Hl1|]. split; [exact Hlen'|].
      intros p Hp. destruct (Hst p Hp) as (H1 & H2 & H3 & H4).
      destruct (Hu' p Hp) as [Hu1 Hu2]. specialize (Hu2 Hnz).
      pose proof (spurious_agree_bit (indet_of a) (seq_data a i) (seq_data a k)
                    (Z.of_nat p)) as Hbit.
      rewrite agree_count_snoc. destruct (Nat.eqb_spec k i); [contradiction|]. lia.
Qed.

Lemma counters_fold (k : nat) :
  Z.of_nat k < 2 ^ 32 ->
  let st := fold_left (compare_step a i) (seq 0 k)
              (repeat 0 (Z.to_nat n), repeat 0 (Z.to_nat n)) in
  length (fst st) = Z.to_nat n /\ length (snd st) = Z.to_nat n /\
  (k = 0%nat -> forall p : nat, Z.of_nat p < n ->
      nth p (fst st) 0 = 0 /\ nth p (snd st) 0 = 0) /\
  (k <> 0%nat -> counters_after k st).
Proof.
  cbv zeta. induction k as [|k IH]; intros Hk.
  - cbn [seq fold_left fst snd]. rewrite !repeat_length.
    repeat split; try lia; apply nth_repeat.
  - rewrite seq_S, fold_left_app. cbn [Nat.add fold_left].
    destruct IH as (Hl1 & Hl2 & Hz & Hinv); [lia|].
    pose proof (counters_step k _ ltac:(lia) Hz Hinv Hl1 Hl2) as Hstep.
    destruct Hstep as (Hl1' & Hl2' & Hp').
    split; [exact Hl1'|]. split; [exact Hl2'|]. split; [lia|].
    intros _. split; [exact Hl1'|]. split; [exact Hl2'|]. exact Hp'.
Qed.

Lemma hits_of_counts (p : nat) :
  0 <= originalNumberOfSequences a < 2 ^ 32 ->
  Z.of_nat p < n ->
  nth p (hits_of a i) 0 =
  agree_count a i (Z.of_nat p) (index_range 0 (originalNumberOfSequences a)).
Proof.
  intros HN Hp. unfold hits_of, index_range. cbv zeta.
  change (Z.to_nat 0) with 0%nat.
  replace (originalNumberOfSequences a - 0) with (originalNumberOfSequences a) by lia.
  destruct (counters_fold (Z.to_nat (originalNumberOfSequences a)) ltac:(lia))
    as (Hl1 & Hl2 & Hz & Hinv).
  fold n. rewrite nth_drain by lia.
  destruct (Nat.eq_dec (Z.to_nat (originalNumberOfSequences a)) 0%nat) as [H0 | Hne].
  - destruct (Hz H0 p Hp) as [-> ->]. rewrite H0. reflexivity.
  - destruct (Hinv Hne) as (_ & _ & H). destruct (H p Hp) as (H1 & H2 & H3).
    pose proof (agree_count_bounds a i (Z.of_nat p)
                  (seq 0 (Z.to_nat (originalNumberOfSequences a)))) as Hcnt.
    rewrite length_seq in Hcnt.
    unfold wrap32. rewrite Z.mod_small by lia. exact H3.
Qed.
End HitCounters.

(** C7 (amended).  With [N] the original number of sequences, the
    threshold is [ovrlap = ceil(overlap * float(N - 1))] (inside the
    range of [uint32_t]); the call returns [true] and the score of every
    sequence [i] is the number of columns whose accumulated counter
    [hits[k]] is at least [ovrlap], divided in [float] by the original
    residue count.  For every sequence whose index is 0 or is not a
    multiple of 255 the counter of a column is the number of other
    sequences that agree with the sequence at that column.  With
    [overlap = 0] and at least one residue every sequence scores
    exactly 1.0. *)
Theorem C7_spurious_scores (overlap : float32) (a : Alignment) (v : list float32)
    (ovrlap : Z)
    (Hn : spurious_in_range a)
    (HN : originalNumberOfSequences a <= INT_MAX)
    (Hv : length v = Z.to_nat (originalNumberOfSequences a))
    (Hc : f32_ceil (f32_mul overlap (f32_of_int (originalNumberOfSequences a - 1)))
          = Some ovrlap)
    (Hu : 0 <= ovrlap < 2 ^ 32) :
  exists v',
    calculateSpuriousVector overlap a (Some v) = Some (true, Some v') /\
    forall i : nat, Z.of_nat i < originalNumberOfSequences a ->
      exists hits,
        spurious_hits a i = Some hits /\
        length hits = Z.to_nat (originalNumberOfResidues a) /\
        v' !! i =
          Some (f32_div
                  (f32_of_int (Z.of_nat (length (List.filter (fun h => ovrlap <=? h) hits))))
                  (f32_of_int (originalNumberOfResidues a))) /\
        (i = 0%nat \/ Z.rem (Z.of_nat i) UCHAR_MAX <> 0 ->
         forall p : nat, Z.of_nat p < originalNumberOfResidues a ->
           nth p hits 0 =
           agree_count a i (Z.of_nat p) (index_range 0 (originalNumberOfSequences a))) /\
        (f32_eqb overlap f32_zero = true -> 0 < originalNumberOfResidues a ->
         v' !! i = Some f32_one).
Proof.
  assert (Ht : spurious_threshold overlap a = Some ovrlap).
  { unfold spurious_threshold. rewrite Hc. cbn [mbind option_bind].
    apply to_uint32_small. exact Hu. }
  eexists. split; [apply spurious_scores_fold; eassumption|].
  intros i Hi. exists (hits_of a i).
  split; [apply spurious_hits_closed; exact Hn|].
  split; [apply length_hits_of|].
  assert (Hlook : forall f : nat -> float32,
    fold_left (fun v i => <[i := f i]> v)
              (index_range 0 (originalNumberOfSequences a)) v !! i = Some (f i)).
  { intros f. apply fold_insert_lookup; [lia | apply in_index_range; lia]. }
  rewrite (Hlook (fun i => f32_div (f32_of_int (count_reached ovrlap (hits_of a i)))
                                   (f32_of_int (originalNumberOfResidues a)))).
  pose proof (residues_below_2_32 a Hn) as Hlt.
  split; [|split].
  - rewrite count_reached_filter by (rewrite length_hits_of; exact Hlt). reflexivity.
  - intros Hflush p Hp. apply hits_of_counts; try assumption.
    unfold INT_MAX in HN. change (2 ^ 31) with 2147483648 in HN.
    change (2 ^ 32) with 4294967296. lia.
  - intros Hz Hpos. destruct (f32_eqb_zero overlap Hz) as [s ->].
    apply threshold_of_zero in Hc. subst ovrlap.
    rewrite score_one_at_threshold_zero by assumption. reflexivity.
Qed.

Ltac in_range := vm_compute; split; intros H; discriminate H.

Lemma f32_real_minus_one : f32_real f32_minus_one = (-1)%R.
Proof.
  unfold f32_real, f32_minus_one, cond_Zopp, powerRZ.
  change (Z.opp (Zpos 8388608)) with (-8388608).
  replace (2 ^ Pos.to_nat 23)%R with 8388608%R.
  - field.
  - change (Pos.to_nat 23) with 23%nat. simpl. ring.
Qed.

Lemma exp_minus_one_not_one : score_real (ExpOf f32_minus_one) <> 1%R.
Proof.
  unfold score_real. rewrite f32_real_minus_one.
  pose proof (exp_increasing (-1) 0 ltac:(lra)) as H. rewrite exp_0 in H. lra.
Qed.

(** ** The statements on concrete alignments *)

(** C1, as stated, fails.  For the two sequences "A" and "C" the single
    column has [den = 1] and [Q = num/den = 1 >= 0]; the stored score is
    what [exp(-1)] returns, and that is not 1. *)
Lemma C1_exp_is_called_for_nonnegative_Q :
  exists s' m,
    calculateVectors ascii_toUpper true false (fresh_scorer unit_distance a_vs_c)
      = Some (true, s') /\
    matrix_used true (fresh_scorer unit_distance a_vs_c) = Some m /\
    column_sums_of ascii_toUpper unit_distance a_vs_c m 0 = (f32_one, f32_one) /\
    f32_eqb f32_one (f32_of_int 0) = false /\
    f32_div f32_one f32_one = f32_one /\
    f32_leb (f32_of_int 0) f32_one = true /\
    MDK s' !! 0%nat = Some (ExpOf f32_minus_one) /\
    score_real (ExpOf f32_minus_one) <> 1%R.
Proof.
  do 2 eexists.
  split; [vm_compute; reflexivity|].
  split; [vm_compute; reflexivity|].
  split; [vm_compute; reflexivity|].
  split; [vm_compute; reflexivity|].
  split; [vm_compute; reflexivity|].
  split; [vm_compute; reflexivity|].
  split; [vm_compute; reflexivity|].
  exact exp_minus_one_not_one.
Qed.

Lemma C1_score_is_one_for_negative_Q_witness :
  simMatrix (fresh_scorer unit_distance acgt3) = Some unit_distance /\
  residues_in_range acgt3 /\
  0 <= originalNumberOfSequences acgt3 /\
  length (MDK (fresh_scorer unit_distance acgt3)) = Z.to_nat (originalNumberOfResidues acgt3) /\
  exists s' m,
    calculateVectors ascii_toUpper true false (fresh_scorer unit_distance acgt3)
      = Some (true, s') /\
    matrix_used true (fresh_scorer unit_distance acgt3) = Some m /\
    forall i, Z.of_nat i < originalNumberOfResidues acgt3 ->
      column_cut false acgt3 i = false ->
      let num := fst (column_sums_of ascii_toUpper unit_distance acgt3 m (Z.of_nat i)) in
      let den := snd (column_sums_of ascii_toUpper unit_distance acgt3 m (Z.of_nat i)) in
      let Q := f32_div num den in
      f32_eqb den (f32_of_int 0) = false ->
      MDK s' !! i =
        Some (if f32_ltb Q (f32_of_int 0) then Lit f32_one else ExpOf (f32_neg Q)).
Proof.
  assert (H1 : simMatrix (fresh_scorer unit_distance acgt3) = Some unit_distance)
    by reflexivity.
  assert (H2 : residues_in_range acgt3) by in_range.
  assert (H3 : 0 <= originalNumberOfSequences acgt3) by (vm_compute; discriminate).
  assert (H4 : length (MDK (fresh_scorer unit_distance acgt3))
               = Z.to_nat (originalNumberOfResidues acgt3)) by reflexivity.
  repeat (split; [assumption|]).
  apply (C1_score_is_one_for_negative_Q ascii_toUpper true false
           (fresh_scorer unit_distance acgt3) unit_distance H1 H2 H3 H4).
  intros [|[|[|[|i]]]] Hi; try (vm_compute; reflexivity).
  exfalso. cbn in Hi. lia.
Defined.

(** C2, at the failing input.  The pair "-" / "X" has no comparable
    position ([sum = length = 0]); [calculateMatrixIdentity] stores a
    NaN in both slots, not 0, while [calculateSeqIdentity] stores 0 and
    reports the two names. *)
Lemma C2_identity_matrix_stores_nan :
  naive_scan (naive_identity_contrib (indet_of gap_vs_indet)
                (seq_data gap_vs_indet 0) (seq_data gap_vs_indet 1))
             (originalNumberOfResidues gap_vs_indet) = (0, 0) /\
  (exists s' m,
     calculateMatrixIdentity true (fresh_scorer unit_distance gap_vs_indet) = Some s' /\
     matrixIdentity s' = Some m /\
     m !! (0%nat, 1%nat) = Some f32_nan /\ m !! (1%nat, 0%nat) = Some f32_nan) /\
  (exists ident,
     calculateSeqIdentity true gap_vs_indet
       = Some (ident, [NoResidueSequences "-" "X"]) /\
     ident !! (0%nat, 1%nat) = Some f32_zero /\ ident !! (1%nat, 0%nat) = Some f32_zero).
Proof.
  split; [vm_compute; reflexivity|]. split.
  - do 2 eexists. split; [vm_compute; reflexivity|].
    split; [reflexivity|]. split; vm_compute; reflexivity.
  - eexists. split; [vm_compute; reflexivity|]. split; vm_compute; reflexivity.
Qed.

(** C3, at the failing input.  In the first column eight of the ten
    sequences have a gap, so the gap value reaches 0.8 of the sequence
    count; the alignment has eleven residues and the code compares the
    gap value with 0.8 of that, so the column is not cut: it is scored
    from the table (the score is what [exp(-1)] returns, not 0), and
    with a table that leaves [C] undefined the call fails on it. *)
Lemma C3_gap_column_is_scored_from_the_table :
  nth 0 (gapsWindow eight_gaps_of_ten) 0 = 8 /\
  originalNumberOfSequences eight_gaps_of_ten = 10 /\
  f32_leb (f32_mul f32_0_8 (f32_of_int (originalNumberOfSequences eight_gaps_of_ten)))
          (f32_of_int (nth 0 (gapsWindow eight_gaps_of_ten) 0)) = true /\
  column_cut true eight_gaps_of_ten 0 = false /\
  (exists s',
     calculateVectors ascii_toUpper true true (fresh_scorer unit_distance eight_gaps_of_ten)
       = Some (true, s') /\
     MDK s' !! 0%nat = Some (ExpOf f32_minus_one)) /\
  (exists s',
     calculateVectors ascii_toUpper true true
       (fresh_scorer unit_distance_without_C eight_gaps_of_ten) = Some (false, s') /\
     sim_debug s' = [UndefinedSymbol 67]).
Proof.
  split; [reflexivity|]. split; [reflexivity|].
  split; [vm_compute; reflexivity|]. split; [vm_compute; reflexivity|].
  split; eexists; (split; [vm_compute; reflexivity|]); vm_compute; reflexivity.
Qed.

(** C5, at the failing input.  The distance that
    [calculateMatrixIdentity] stores for the pair "-" / "X" is not in
    [0,1]. *)
Lemma C5_identity_distance_outside_unit_interval :
  exists s' m v,
    calculateMatrixIdentity true (fresh_scorer unit_distance gap_vs_indet) = Some s' /\
    matrixIdentity s' = Some m /\
    m !! (0%nat, 1%nat) = Some v /\
    f32_in_unit v = false.
Proof.
  do 3 eexists. split; [vm_compute; reflexivity|].
  split; [reflexivity|]. split; [vm_compute; reflexivity|]. reflexivity.
Qed.

(** C7, as stated, fails.  With no residue the score is [0/0], a NaN,
    also for [overlap = 0]. *)
Lemma C7_no_residue_scores_nan :
  calculateSpuriousVector f32_zero no_residues (Some [f32_zero])
    = Some (true, Some [f32_nan]) /\
  f32_nan <> f32_one.
Proof.
  split; [vm_compute; reflexivity | discriminate].
Qed.

(** The transfer that is skipped at [j = i]: among 258 identical
    sequences, sequence 255 agrees with the 257 others, and its counter
    ends at 1. *)
Lemma byte_counter_wraps_at_255 :
  spurious_hits (copies_of_A 258) 255 = Some [1] /\
  agree_count (copies_of_A 258) 255 0
    (index_range 0 (originalNumberOfSequences (copies_of_A 258))) = 257 /\
  spurious_hits (copies_of_A 258) 254 = Some [257].
Proof.
  split; [vm_compute; reflexivity|]. split; vm_compute; reflexivity.
Qed.

Lemma C4_chunked_scans_agree_with_naive_witness :
  residues_in_range (sim_alig (fresh_scorer unit_distance acgt3)) /\
  matrixIdentity (fresh_scorer unit_distance acgt3) = None /\
  (exists s' m,
     calculateMatrixIdentity true (fresh_scorer unit_distance acgt3) = Some s' /\
     matrixIdentity s' = Some m /\
     forall i j : nat, (i < j)%nat -> Z.of_nat j < originalNumberOfSequences acgt3 ->
       m !! (i, j) = Some (naive_identity acgt3 i j) /\
       m !! (j, i) = Some (naive_identity acgt3 i j)) /\
  (exists ident log,
     calculateSeqIdentity true acgt3 = Some (ident, log) /\
     forall i j : nat, (i < j)%nat -> Z.of_nat j < originalNumberOfSequences acgt3 ->
       kept acgt3 i = true -> kept acgt3 j = true ->
       ident !! (i, j) = Some (naive_seqid acgt3 i j) /\
       ident !! (j, i) = Some (naive_seqid acgt3 i j)).
Proof.
  assert (H1 : residues_in_range (sim_alig (fresh_scorer unit_distance acgt3)))
    by in_range.
  assert (H2 : matrixIdentity (fresh_scorer unit_distance acgt3) = None) by reflexivity.
  split; [exact H1|]. split; [exact H2|].
  exact (C4_chunked_scans_agree_with_naive true (fresh_scorer unit_distance acgt3) H1 H2).
Defined.

Lemma C6_identity_matrices_symmetric_witness :
  residues_in_range (sim_alig (fresh_scorer unit_distance acgt3)) /\
  matrixIdentity (fresh_scorer unit_distance acgt3) = None /\
  (exists s' m,
     calculateMatrixIdentity true (fresh_scorer unit_distance acgt3) = Some s' /\
     matrixIdentity s' = Some m /\
     forall i j : nat, i <> j ->
       Z.of_nat i < originalNumberOfSequences acgt3 ->
       Z.of_nat j < originalNumberOfSequences acgt3 ->
       exists v, m !! (i, j) = Some v /\ m !! (j, i) = Some v) /\
  (exists ident log,
     calculateSeqIdentity true acgt3 = Some (ident, log) /\
     forall i j : nat, i <> j ->
       Z.of_nat i < originalNumberOfSequences acgt3 ->
       Z.of_nat j < originalNumberOfSequences acgt3 ->
       kept acgt3 i = true -> kept acgt3 j = true ->
       exists v, ident !! (i, j) = Some v /\ ident !! (j, i) = Some v).
Proof.
  assert (H1 : residues_in_range (sim_alig (fresh_scorer unit_distance acgt3)))
    by in_range.
  assert (H2 : matrixIdentity (fresh_scorer unit_distance acgt3) = None) by reflexivity.
  split; [exact H1|]. split; [exact H2|].
  exact (C6_identity_matrices_symmetric true (fresh_scorer unit_distance acgt3) H1 H2).
Defined.

Lemma C7_spurious_scores_witness :
  spurious_in_range acgt3 /\
  originalNumberOfSequences acgt3 <= INT_MAX /\
  length [f32_nan; f32_nan; f32_nan] = Z.to_nat (originalNumberOfSequences acgt3) /\
  f32_ceil (f32_mul f32_one (f32_of_int (originalNumberOfSequences acgt3 - 1))) = Some 2 /\
  0 <= 2 < 2 ^ 32 /\
  exists v',
    calculateSpuriousVector f32_one acgt3 (Some [f32_nan; f32_nan; f32_nan])
      = Some (true, Some v') /\
    forall i : nat, Z.of_nat i < originalNumberOfSequences acgt3 ->
      exists hits,
        spurious_hits acgt3 i = Some hits /\
        length hits = Z.to_nat (originalNumberOfResidues acgt3) /\
        v' !! i =
          Some (f32_div
                  (f32_of_int (Z.of_nat (length (List.filter (fun h => 2 <=? h) hits))))
                  (f32_of_int (originalNumberOfResidues acgt3))) /\
        (i = 0%nat \/ Z.rem (Z.of_nat i) UCHAR_MAX <> 0 ->
         forall p : nat, Z.of_nat p < originalNumberOfResidues acgt3 ->
           nth p hits 0 =
           agree_count acgt3 i (Z.of_nat p)
             (index_range 0 (originalNumberOfSequences acgt3))) /\
        (f32_eqb f32_one f32_zero = true -> 0 < originalNumberOfResidues acgt3 ->
         v' !! i = Some f32_one).
Proof.
  assert (H1 : spurious_in_range acgt3) by in_range.
  assert (H2 : originalNumberOfSequences acgt3 <= INT_MAX)
    by (vm_compute; intros H; discriminate H).
  assert (H3 : length [f32_nan; f32_nan; f32_nan]
               = Z.to_nat (originalNumberOfSequences acgt3)) by reflexivity.
  assert (H4 : f32_ceil (f32_mul f32_one (f32_of_int (originalNumberOfSequences acgt3 - 1)))
               = Some 2) by (vm_compute; reflexivity).
  assert (H5 : 0 <= 2 < 2 ^ 32) by (change (2 ^ 32) with 4294967296; lia).
  repeat (split; [assumption|]).
  exact (C7_spurious_scores f32_one acgt3 [f32_nan; f32_nan; f32_nan] 2 H1 H2 H3 H4 H5).
Defined.

Lemma C9_failure_leaves_partial_state_witness :
  simMatrix (fresh_scorer unit_distance bad_symbol) = Some unit_distance /\
  residues_in_range bad_symbol /\
  0 <= originalNumberOfSequences bad_symbol /\
  length (MDK (fresh_scorer unit_distance bad_symbol))
    = Z.to_nat (originalNumberOfResidues bad_symbol) /\
  Z.of_nat 2 < originalNumberOfResidues bad_symbol /\
  (forall i, (i < 2)%nat ->
     column_fails ascii_toUpper unit_distance bad_symbol false i = None) /\
  column_fails ascii_toUpper unit_distance bad_symbol false 2 = Some (IncorrectSymbol 63) /\
  exists s' m,
    calculateVectors ascii_toUpper true false (fresh_scorer unit_distance bad_symbol)
      = Some (false, s') /\
    matrix_used true (fresh_scorer unit_distance bad_symbol) = Some m /\
    matrixIdentity s' = Some m /\
    (forall i, (i < 2)%nat ->
       MDK s' !! i = Some (column_value ascii_toUpper unit_distance bad_symbol false m i)) /\
    (forall i, (2 <= i)%nat ->
       MDK s' !! i = MDK (fresh_scorer unit_distance bad_symbol) !! i) /\
    sim_debug s' = sim_debug (fresh_scorer unit_distance bad_symbol) ++ [IncorrectSymbol 63] /\
    exists letter,
      IncorrectSymbol 63 = IncorrectSymbol letter \/
      IncorrectSymbol 63 = UndefinedSymbol letter.
Proof.
  assert (H1 : simMatrix (fresh_scorer unit_distance bad_symbol) = Some unit_distance)
    by reflexivity.
  assert (H2 : residues_in_range bad_symbol) by in_range.
  assert (H3 : 0 <= originalNumberOfSequences bad_symbol) by (vm_compute; discriminate).
  assert (H4 : length (MDK (fresh_scorer unit_distance bad_symbol))
               = Z.to_nat (originalNumberOfResidues bad_symbol)) by reflexivity.
  assert (H5 : Z.of_nat 2 < originalNumberOfResidues bad_symbol) by reflexivity.
  assert (H6 : forall i, (i < 2)%nat ->
            column_fails ascii_toUpper unit_distance bad_symbol false i = None).
  { intros [|[|i]] Hi; [vm_compute; reflexivity .. | lia]. }
  assert (H7 : column_fails ascii_toUpper unit_distance bad_symbol false 2
               = Some (IncorrectSymbol 63)) by (vm_compute; reflexivity).
  repeat (split; [assumption|]).
  exact (C9_failure_leaves_partial_state ascii_toUpper true false
           (fresh_scorer unit_distance bad_symbol) unit_distance 2 (IncorrectSymbol 63)
           H1 H2 H3 H4 H5 H6 H7).
Defined.

Lemma C10_single_sequence_scores_one_witness :
  originalNumberOfSequences single_sequence = 1 /\
  0 < originalNumberOfResidues single_sequence /\
  originalNumberOfResidues single_sequence <= INT_MAX /\
  f32_in_unit f32_half = true /\
  (0 < length [f32_nan])%nat /\
  spurious_threshold f32_half single_sequence = Some 0 /\
  spurious_hits single_sequence 0
    = Some (repeat 0 (Z.to_nat (originalNumberOfResidues single_sequence))) /\
  calculateSpuriousVector f32_half single_sequence (Some [f32_nan])
    = Some (true, Some (<[0%nat := f32_one]> [f32_nan])) /\
  <[0%nat := f32_one]> [f32_nan] !! 0%nat = Some f32_one.
Proof.
  assert (H1 : originalNumberOfSequences single_sequence = 1) by reflexivity.
  assert (H2 : 0 < originalNumberOfResidues single_sequence) by reflexivity.
  assert (H3 : originalNumberOfResidues single_sequence <= INT_MAX)
    by (vm_compute; intros H; discriminate H).
  assert (H4 : f32_in_unit f32_half = true) by reflexivity.
  assert (H5 : (0 < length [f32_nan])%nat) by (cbn; lia).
  repeat (split; [assumption|]).
  exact (C10_single_sequence_scores_one f32_half single_sequence [f32_nan] H1 H2 H3 H4 H5).
Defined.

(** The residue counts at the boundaries of the loops: none, one, one
    lane width, one more, and two lane widths and a tail. *)
Example scans_at_boundary_sizes :
  Forall (fun n =>
    identity_pair true (cycled_pair n) 0 1 = Some (naive_identity (cycled_pair n) 0 1) /\
    identity_pair false (cycled_pair n) 0 1 = Some (naive_identity (cycled_pair n) 0 1) /\
    fst <$> seqid_pair true (cycled_pair n) 0 1 = Some (naive_seqid (cycled_pair n) 0 1))
    [0; 1; 16; 17; 35]%nat.
Proof.
  repeat (apply Forall_cons_2;
          [split; [|split]; vm_compute; reflexivity|]).
  apply Forall_nil_2.
Qed.

(** One residue more than 255 lane widths: the unrolled block runs once,
    the vector loop not at all, and one residue is left for the tail. *)
Example scan_past_one_block :
  identity_pair true (cycled_pair 4081) 0 1 =
  Some (naive_identity (cycled_pair 4081) 0 1).
Proof.
  vm_compute; reflexivity.
Qed.

(** * Further properties of the code *)

(** ** The constructor's buffers *)

Lemma land_clear_low4 (x : Z) :
  0 <= x < 2^64 -> Z.land x (wrap64 (Z.lnot 15)) = 16 * (x / 16).
Proof.
  intros Hx.
  change (wrap64 (Z.lnot 15)) with (Z.land (Z.ones 64) (Z.lnot (Z.ones 4))).
  rewrite Z.land_assoc, Z.land_ones by lia.
  rewrite Z.mod_small by exact Hx.
  rewrite <- Z.ldiff_land, Z.ldiff_ones_r by lia.
  rewrite Z.shiftr_div_pow2, Z.shiftl_mul_pow2 by lia.
  change (2 ^ 4) with 16. apply Z.mul_comm.
Qed.

Lemma align16_spec (p : Z) :
  0 <= p -> p + 15 < 2^64 ->
  align16 p mod 16 = 0 /\ p <= align16 p <= p + 15.
Proof.
  intros Hp Hlt.
  assert (He : align16 p = 16 * ((p + 15) / 16)).
  { unfold align16. unfold wrap64 at 1.
    rewrite (Z.mod_small (p + 15)) by (split; [lia | exact Hlt]).
    apply land_clear_low4. split; [lia | exact Hlt]. }
  rewrite He. split.
  - rewrite Z.mul_comm. apply Z.mod_mul. lia.
  - pose proof (Z.div_mod (p + 15) 16 ltac:(lia)) as Hdm.
    pose proof (Z.mod_pos_bound (p + 15) 16 ltac:(lia)) as Hb. lia.
Qed.

Lemma padded_bytes_exact (elem n : Z) :
  0 <= n -> 0 <= elem -> elem * n + 15 < 2^64 ->
  padded_bytes elem n = elem * n + 15.
Proof.
  intros Hn He Hlt. unfold padded_bytes, to_size_t, wrap64.
  change (2 ^ 64) with 18446744073709551616 in *.
  assert (0 <= elem * n) by lia.
  destruct (Z.eq_dec elem 0) as [-> | Hne].
  - rewrite !Z.mul_0_l. reflexivity.
  - assert (n <= elem * n) by nia.
    rewrite (Z.mod_small n) by lia.
    rewrite (Z.mod_small (elem * n)) by lia.
    apply Z.mod_small. lia.
Qed.

Lemma aligned_array_fits (p elem n : Z) :
  0 <= n <= INT_MAX -> 0 <= elem <= 4 ->
  block_at p (padded_bytes elem n) ->
  align16 p mod 16 = 0 /\
  p <= align16 p /\
  align16 p + elem * n <= p + padded_bytes elem n.
Proof.
  intros Hn He [Hp Hend].
  unfold INT_MAX in Hn. change (2 ^ 31) with 2147483648 in Hn.
  assert (Hprod : 0 <= elem * n <= 4 * 2147483647) by nia.
  assert (Hsz : padded_bytes elem n = elem * n + 15).
  { apply padded_bytes_exact; lia. }
  rewrite Hsz in *.
  change (2 ^ 64) with 18446744073709551616 in Hend.
  destruct (align16_spec p) as [Hal Hbd];
    [lia | change (2 ^ 64) with 18446744073709551616; lia |].
  split; [exact Hal|]. split; lia.
Qed.

(** X1.  The constructor rounds each of the three addresses obtained
    from [malloc] up to a multiple of 16; with the fifteen bytes of
    padding it asked for, the array of [originalNumberOfResidues]
    elements that starts at the rounded address ([hits] with four-byte
    elements, [hits_u8] and [skipResidues] with bytes) lies inside its
    block.  The index [skipResidues] has one byte per column: 0xFF for a
    column marked -1 in [saveResidues], 0 for any other. *)
Theorem X1_constructor_arrays_aligned_inside_blocks (parent : Alignment)
    (blk_hits blk_hits_u8 blk_skip : Z)
    (Hn : 0 <= originalNumberOfResidues parent <= INT_MAX)
    (H1 : block_at blk_hits (padded_bytes 4 (originalNumberOfResidues parent)))
    (H2 : block_at blk_hits_u8 (padded_bytes 1 (originalNumberOfResidues parent)))
    (H3 : block_at blk_skip (padded_bytes 1 (originalNumberOfResidues parent))) :
  let n := originalNumberOfResidues parent in
  let c := NEONCleaner_new parent blk_hits blk_hits_u8 blk_skip in
  (hits_ptr c mod 16 = 0 /\ hits_unaligned c <= hits_ptr c /\
   hits_ptr c + 4 * n <= hits_unaligned c + padded_bytes 4 n) /\
  (hits_u8_ptr c mod 16 = 0 /\ hits_u8_unaligned c <= hits_u8_ptr c /\
   hits_u8_ptr c + 1 * n <= hits_u8_unaligned c + padded_bytes 1 n) /\
  (skipResidues_ptr c mod 16 = 0 /\ skipResidues_unaligned c <= skipResidues_ptr c /\
   skipResidues_ptr c + 1 * n <= skipResidues_unaligned c + padded_bytes 1 n) /\
  length (cl_skipResidues c) = Z.to_nat n /\
  forall k : nat, Z.of_nat k < n ->
    nth k (cl_skipResidues c) 0 = if nth k (saveResidues parent) 0 =? -1 then 255 else 0.
Proof.
  cbv zeta. cbn [NEONCleaner_new hits_ptr hits_unaligned hits_u8_ptr hits_u8_unaligned
                 skipResidues_ptr skipResidues_unaligned cl_skipResidues].
  split; [apply aligned_array_fits; [exact Hn | lia | exact H1]|].
  split; [apply aligned_array_fits; [exact Hn | lia | exact H2]|].
  split; [apply aligned_array_fits; [exact Hn | lia | exact H3]|].
  split.
  - unfold skipResidues, index_range. rewrite length_map, length_seq. f_equal. lia.
  - intros k Hk. pose proof (skipResidues_at parent (Z.of_nat k) ltac:(lia)) as H.
    unfold byte_at in H. rewrite Nat2Z.id in H. exact H.
Qed.

Lemma X1_constructor_arrays_aligned_inside_blocks_witness :
  0 <= originalNumberOfResidues twins_and_stranger <= INT_MAX /\
  block_at 1001 (padded_bytes 4 (originalNumberOfResidues twins_and_stranger)) /\
  block_at 2005 (padded_bytes 1 (originalNumberOfResidues twins_and_stranger)) /\
  block_at 3008 (padded_bytes 1 (originalNumberOfResidues twins_and_stranger)) /\
  hits_ptr (NEONCleaner_new twins_and_stranger 1001 2005 3008) = 1008 /\
  hits_u8_ptr (NEONCleaner_new twins_and_stranger 1001 2005 3008) = 2016 /\
  skipResidues_ptr (NEONCleaner_new twins_and_stranger 1001 2005 3008) = 3008 /\
  cl_skipResidues (NEONCleaner_new twins_and_stranger 1001 2005 3008) = [0; 255; 0; 0] /\
  (1008 mod 16 = 0 /\ 1001 <= 1008 /\ 1008 + 4 * 4 <= 1001 + padded_bytes 4 4).
Proof.
  assert (Hn : 0 <= originalNumberOfResidues twins_and_stranger <= INT_MAX) by in_range.
  assert (H1 : block_at 1001 (padded_bytes 4 (originalNumberOfResidues twins_and_stranger)))
    by (split; reflexivity).
  assert (H2 : block_at 2005 (padded_bytes 1 (originalNumberOfResidues twins_and_stranger)))
    by (split; reflexivity).
  assert (H3 : block_at 3008 (padded_bytes 1 (originalNumberOfResidues twins_and_stranger)))
    by (split; reflexivity).
  repeat (split; [assumption|]).
  split; [reflexivity|]. split; [reflexivity|]. split; [reflexivity|]. split; [reflexivity|].
  exact (proj1 (X1_constructor_arrays_aligned_inside_blocks
                  twins_and_stranger 1001 2005 3008 Hn H1 H2 H3)).
Defined.

(** ** Which entries the two matrix builders write *)

Lemma fold_left_lookup_preserve {A} (f : matrix -> A -> matrix) (l : list A)
    (m : matrix) (key : nat * nat) :
  (forall x m', In x l -> f m' x !! key = m' !! key) ->
  fold_left f l m !! key = m !! key.
Proof.
  revert m. induction l as [|x l IH]; intros m H; [reflexivity|].
  cbn [fold_left]. rewrite IH by (intros y m' Hy; apply H; right; exact Hy).
  apply H. left. reflexivity.
Qed.

Lemma fill_pairs_untouched (keep : nat -> bool) (put : nat -> nat -> matrix -> matrix)
    (val : nat -> nat -> float32) (N : Z) (m0 : matrix) (key : nat * nat) :
  (forall i j (m : matrix) key, i <> j ->
     put i j m !! key =
     if decide (key = (i, j) \/ key = (j, i)) then Some (val i j) else m !! key) ->
  (forall i j, (i < j)%nat -> Z.of_nat j < N -> keep i = true -> keep j = true ->
     key <> (i, j) /\ key <> (j, i)) ->
  fill_pairs keep put N m0 !! key = m0 !! key.
Proof.
  intros Hput Hkey. unfold fill_pairs.
  apply fold_left_lookup_preserve. intros i m _.
  destruct (keep i) eqn:Hki; [|reflexivity].
  apply fold_left_lookup_preserve. intros j m' Hj.
  apply in_index_range in Hj; [|lia].
  destruct (keep j) eqn:Hkj; [|reflexivity].
  rewrite Hput by lia.
  destruct (Hkey i j) as [H1 H2]; [lia | lia | assumption | assumption |].
  destruct (decide _) as [[?|?]|_]; [contradiction.. | reflexivity].
Qed.

Lemma fill_pairs_ext (keep : nat -> bool) (put put' : nat -> nat -> matrix -> matrix)
    (N : Z) (m0 : matrix) :
  (forall i j m, put i j m = put' i j m) ->
  fill_pairs keep put N m0 = fill_pairs keep put' N m0.
Proof.
  intros H. unfold fill_pairs.
  apply fold_left_ext_in. intros m i _. destruct (keep i); [|reflexivity].
  apply fold_left_ext_in. intros m' j _. destruct (keep j); [|reflexivity]. apply H.
Qed.

Lemma seqid_diagonal_hit (a : Alignment) (i : nat) :
  Z.of_nat i < originalNumberOfSequences a -> removed a i = false ->
  seqid_diagonal a !! (i, i) = Some f32_zero.
Proof.
  intros Hi Hk. unfold seqid_diagonal.
  assert (Hin : In i (index_range 0 (originalNumberOfSequences a)))
    by (apply in_index_range; lia).
  revert Hin. generalize (∅ : matrix).
  induction (index_range 0 (originalNumberOfSequences a)) as [|x l IH];
    intros m Hin; [destruct Hin|].
  cbn [fold_left]. destruct (in_dec Nat.eq_dec i l) as [Hl | Hnl].
  - apply IH. exact Hl.
  - destruct Hin as [-> | Hin]; [|contradiction]. rewrite Hk.
    rewrite fold_left_lookup_preserve.
    + rewrite lookup_insert_eq. reflexivity.
    + intros y m' Hy. destruct (removed a y); [reflexivity|].
      apply lookup_insert_ne. intros [=]. subst. contradiction.
Qed.

Lemma seqid_diagonal_miss (a : Alignment) (i j : nat) :
  i <> j \/ originalNumberOfSequences a <= Z.of_nat i \/ removed a i = true ->
  seqid_diagonal a !! (i, j) = None.
Proof.
  intros H. unfold seqid_diagonal.
  rewrite fold_left_lookup_preserve; [apply lookup_empty|].
  intros x m Hx. apply in_index_range in Hx; [|lia].
  destruct (removed a x) eqn:Hr; [reflexivity|].
  apply lookup_insert_ne. intros [=]. subst.
  destruct H as [H | [H | H]]; [contradiction | lia | congruence].
Qed.

(** X2.  [calculateMatrixIdentity] on a scorer without a matrix changes
    the matrix only, and the matrix it builds holds a value exactly in
    the slots [(i, j)] of two different original sequences: the
    diagonal is never written. *)
Theorem X2_identity_matrix_has_no_diagonal (aarch64 : bool) (s : NEONSimilarity)
    (Hn : residues_in_range (sim_alig s))
    (Hnull : matrixIdentity s = None) :
  exists m,
    calculateMatrixIdentity aarch64 s = Some (set_matrixIdentity (Some m) s) /\
    forall i j : nat,
      is_Some (m !! (i, j)) <->
      i <> j /\ Z.of_nat i < originalNumberOfSequences (sim_alig s)
             /\ Z.of_nat j < originalNumberOfSequences (sim_alig s).
Proof.
  unfold calculateMatrixIdentity. rewrite Hnull, identity_rows_fill by exact Hn.
  cbn [mbind option_bind]. eexists. split; [reflexivity|].
  intros i j. split.
  - intros Hsome.
    destruct (decide (i <> j /\ Z.of_nat i < originalNumberOfSequences (sim_alig s)
                      /\ Z.of_nat j < originalNumberOfSequences (sim_alig s)))
      as [Hyes | Hno]; [exact Hyes|].
    exfalso. rewrite (fill_pairs_untouched _ _ (naive_identity (sim_alig s))) in Hsome.
    + rewrite lookup_empty in Hsome. destruct Hsome as [? [=]].
    + intros; apply mirror_lookup; assumption.
    + intros x y Hxy Hy _ _. split; intros [=]; subst; apply Hno; lia.
  - intros (Hij & Hi & Hj).
    destruct (Nat.lt_total i j) as [Hlt | [? | Hlt]]; [| contradiction |].
    + destruct (fill_pairs_lookup (fun _ => true)
                  (fun i j => mirror i j (naive_identity (sim_alig s) i j))
                  (naive_identity (sim_alig s))
                  ltac:(intros; apply mirror_lookup; assumption)
                  (originalNumberOfSequences (sim_alig s)) ∅ i j Hlt Hj eq_refl eq_refl)
        as [-> _]. eauto.
    + destruct (fill_pairs_lookup (fun _ => true)
                  (fun i j => mirror i j (naive_identity (sim_alig s) i j))
                  (naive_identity (sim_alig s))
                  ltac:(intros; apply mirror_lookup; assumption)
                  (originalNumberOfSequences (sim_alig s)) ∅ j i Hlt Hi eq_refl eq_refl)
        as [_ ->]. eauto.
Qed.

Lemma X2_identity_matrix_has_no_diagonal_witness :
  residues_in_range (sim_alig (fresh_scorer unit_distance acgt3)) /\
  matrixIdentity (fresh_scorer unit_distance acgt3) = None /\
  exists m,
    calculateMatrixIdentity true (fresh_scorer unit_distance acgt3)
      = Some (set_matrixIdentity (Some m) (fresh_scorer unit_distance acgt3)) /\
    forall i j : nat,
      is_Some (m !! (i, j)) <->
      i <> j /\ Z.of_nat i < originalNumberOfSequences acgt3
             /\ Z.of_nat j < originalNumberOfSequences acgt3.
Proof.
  assert (H1 : residues_in_range (sim_alig (fresh_scorer unit_distance acgt3)))
    by in_range.
  assert (H2 : matrixIdentity (fresh_scorer unit_distance acgt3) = None) by reflexivity.
  split; [exact H1|]. split; [exact H2|].
  exact (X2_identity_matrix_has_no_diagonal true (fresh_scorer unit_distance acgt3) H1 H2).
Defined.

(** ** The counts of a pair *)

Lemma rsum_le (f g : Z -> Z) (a : Z) (m : nat) :
  (forall p, f p <= g p) -> rsum f a m <= rsum g a m.
Proof.
  intros H. induction m as [|m IH].
  - unfold rsum. cbn. lia.
  - rewrite !rsum_S. specialize (H (a + Z.of_nat m)). lia.
Qed.

Lemma rsum_pos (f : Z -> Z) (m q : nat) :
  (forall p, 0 <= f p) -> (q < m)%nat -> 1 <= f (Z.of_nat q) -> 1 <= rsum f 0 m.
Proof.
  intros Hf Hq H1.
  assert (H0 : forall k, 0 <= rsum f 0 k).
  { induction k as [|k IHk]; [unfold rsum; cbn; lia|].
    rewrite rsum_S. specialize (Hf (0 + Z.of_nat k)). lia. }
  induction m as [|m IH]; [lia|].
  rewrite rsum_S, Z.add_0_l. destruct (Nat.eq_dec q m) as [-> | Hne].
  - specialize (H0 m). lia.
  - specialize (Hf (Z.of_nat m)). assert (Hlt : (q < m)%nat) by lia.
    specialize (IH Hlt). lia.
Qed.

Lemma naive_scan_diag (g : Z -> Z) (n : Z) :
  naive_scan (fun p => (g p, g p)) n = (rsum g 0 (Z.to_nat n), rsum g 0 (Z.to_nat n)).
Proof. rewrite naive_scan_rsum. reflexivity. Qed.

Lemma naive_scan_left_zero (g : Z -> Z) (n : Z) :
  naive_scan (fun p => (0, g p)) n = (0, rsum g 0 (Z.to_nat n)).
Proof.
  rewrite naive_scan_rsum. cbn [fst snd]. f_equal.
  induction (Z.to_nat n) as [|m IH]; [reflexivity|]. rewrite rsum_S, IH. reflexivity.
Qed.

Lemma identity_scan_naive aarch64 (a : Alignment) (i j : nat) :
  residues_in_range a ->
  chunked_scan aarch64
    (identity_lanes (indet_of a) (seq_data a i) (seq_data a j))
    (identity_tail (indet_of a) (seq_data a i) (seq_data a j))
    (originalNumberOfResidues a) =
  Some (naive_scan (identity_tail (indet_of a) (seq_data a i) (seq_data a j))
                   (originalNumberOfResidues a)).
Proof.
  intros Hn. apply chunked_scan_naive.
  - intros k _. apply identity_lanes_tail.
  - apply identity_tail_bit.
  - exact Hn.
Qed.

Lemma seqid_scan_naive aarch64 (a : Alignment) (i j : nat) :
  residues_in_range a ->
  chunked_scan aarch64
    (seqid_lanes (indet_of a) (skipResidues a) (seq_data a i) (seq_data a j))
    (seqid_tail (indet_of a) (skipResidues a) (seq_data a i) (seq_data a j))
    (originalNumberOfResidues a) =
  Some (naive_scan (seqid_tail (indet_of a) (skipResidues a) (seq_data a i) (seq_data a j))
                   (originalNumberOfResidues a)).
Proof.
  intros Hn. apply chunked_scan_naive.
  - intros k _. apply seqid_lanes_tail.
  - apply seqid_tail_bit.
  - exact Hn.
Qed.

(** X3.  For every pair of sequences the three loops of both builders
    return, and their counts are ordered: with [sum] and [length] of
    [calculateMatrixIdentity] and [dst] and [hit] of
    [calculateSeqIdentity], [0 <= hit <= sum <= length], [hit <= dst <=
    length] and [length] is at most the original number of residues. *)
Theorem X3_pair_counts_are_ordered (aarch64 : bool) (a : Alignment) (i j : nat)
    (Hn : residues_in_range a) :
  exists sum len dst hit : Z,
    chunked_scan aarch64
      (identity_lanes (indet_of a) (seq_data a i) (seq_data a j))
      (identity_tail (indet_of a) (seq_data a i) (seq_data a j))
      (originalNumberOfResidues a) = Some (sum, len) /\
    chunked_scan aarch64
      (seqid_lanes (indet_of a) (skipResidues a) (seq_data a i) (seq_data a j))
      (seqid_tail (indet_of a) (skipResidues a) (seq_data a i) (seq_data a j))
      (originalNumberOfResidues a) = Some (dst, hit) /\
    0 <= hit <= sum /\ sum <= len /\ hit <= dst /\ dst <= len /\
    len <= originalNumberOfResidues a.
Proof.
  rewrite identity_scan_naive, seqid_scan_naive by exact Hn.
  rewrite !naive_scan_rsum. do 4 eexists. split; [reflexivity|]. split; [reflexivity|].
  set (m := Z.to_nat (originalNumberOfResidues a)).
  assert (Hm : Z.of_nat m <= originalNumberOfResidues a)
    by (destruct Hn; subst m; lia).
  pose proof (rsum_bounds
    (fun p => snd (identity_tail (indet_of a) (seq_data a i) (seq_data a j) p)) 0 m
    (fun p => proj2 (identity_tail_bit _ _ _ p))) as B2.
  pose proof (rsum_bounds
    (fun p => snd (seqid_tail (indet_of a) (skipResidues a) (seq_data a i) (seq_data a j) p))
    0 m (fun p => proj2 (seqid_tail_bit _ _ _ _ p))) as B3.
  assert (L1 : rsum (fun p => fst (identity_tail (indet_of a) (seq_data a i) (seq_data a j) p)) 0 m
            <= rsum (fun p => snd (identity_tail (indet_of a) (seq_data a i) (seq_data a j) p)) 0 m).
  { apply rsum_le. intros p. unfold identity_tail, b2z. cbn [fst snd].
    destruct (byte_at (seq_data a i) p =? indet_of a),
             (byte_at (seq_data a i) p =? ch_gap),
             (byte_at (seq_data a j) p =? indet_of a),
             (byte_at (seq_data a j) p =? ch_gap),
             (byte_at (seq_data a i) p =? byte_at (seq_data a j) p); cbn; lia. }
  assert (L2 : rsum (fun p => snd (seqid_tail (indet_of a) (skipResidues a)
                                     (seq_data a i) (seq_data a j) p)) 0 m
            <= rsum (fun p => fst (seqid_tail (indet_of a) (skipResidues a)
                                     (seq_data a i) (seq_data a j) p)) 0 m).
  { apply rsum_le. intros p. unfold seqid_tail, b2z. cbn [fst snd].
    destruct (byte_at (seq_data a i) p =? indet_of a),
             (byte_at (seq_data a i) p =? ch_gap),
             (byte_at (seq_data a j) p =? indet_of a),
             (byte_at (seq_data a j) p =? ch_gap),
             (byte_at (skipResidues a) p =? 0),
             (byte_at (seq_data a i) p =? byte_at (seq_data a j) p); cbn; lia. }
  assert (L3 : rsum (fun p => fst (seqid_tail (indet_of a) (skipResidues a)
                                     (seq_data a i) (seq_data a j) p)) 0 m
            <= rsum (fun p => snd (identity_tail (indet_of a) (seq_data a i) (seq_data a j) p)) 0 m).
  { apply rsum_le. intros p. unfold seqid_tail, identity_tail, b2z. cbn [fst snd].
    destruct (byte_at (seq_data a i) p =? indet_of a),
             (byte_at (seq_data a i) p =? ch_gap),
             (byte_at (seq_data a j) p =? indet_of a),
             (byte_at (seq_data a j) p =? ch_gap),
             (byte_at (skipResidues a) p =? 0); cbn; lia. }
  assert (L4 : rsum (fun p => snd (seqid_tail (indet_of a) (skipResidues a)
                                     (seq_data a i) (seq_data a j) p)) 0 m
            <= rsum (fun p => fst (identity_tail (indet_of a) (seq_data a i) (seq_data a j) p)) 0 m).
  { apply rsum_le. intros p. unfold seqid_tail, identity_tail, b2z. cbn [fst snd].
    destruct (Z.eqb_spec (byte_at (seq_data a i) p) (byte_at (seq_data a j) p)) as [<- | _];
      [|rewrite !andb_false_r; lia].
    destruct (byte_at (seq_data a i) p =? indet_of a),
             (byte_at (seq_data a i) p =? ch_gap),
             (byte_at (skipResidues a) p =? 0); cbn; lia. }
  lia.
Qed.

Lemma X3_pair_counts_are_ordered_witness :
  residues_in_range twins_and_stranger /\
  chunked_scan true
    (identity_lanes (indet_of twins_and_stranger)
       (seq_data twins_and_stranger 0) (seq_data twins_and_stranger 1))
    (identity_tail (indet_of twins_and_stranger)
       (seq_data twins_and_stranger 0) (seq_data twins_and_stranger 1))
    (originalNumberOfResidues twins_and_stranger) = Some (3, 3) /\
  chunked_scan true
    (seqid_lanes (indet_of twins_and_stranger) (skipResidues twins_and_stranger)
       (seq_data twins_and_stranger 0) (seq_data twins_and_stranger 1))
    (seqid_tail (indet_of twins_and_stranger) (skipResidues twins_and_stranger)
       (seq_data twins_and_stranger 0) (seq_data twins_and_stranger 1))
    (originalNumberOfResidues twins_and_stranger) = Some (2, 2) /\
  exists sum len dst hit : Z,
    chunked_scan true
      (identity_lanes (indet_of twins_and_stranger)
         (seq_data twins_and_stranger 0) (seq_data twins_and_stranger 1))
      (identity_tail (indet_of twins_and_stranger)
         (seq_data twins_and_stranger 0) (seq_data twins_and_stranger 1))
      (originalNumberOfResidues twins_and_stranger) = Some (sum, len) /\
    chunked_scan true
      (seqid_lanes (indet_of twins_and_stranger) (skipResidues twins_and_stranger)
         (seq_data twins_and_stranger 0) (seq_data twins_and_stranger 1))
      (seqid_tail (indet_of twins_and_stranger) (skipResidues twins_and_stranger)
         (seq_data twins_and_stranger 0) (seq_data twins_and_stranger 1))
      (originalNumberOfResidues twins_and_stranger) = Some (dst, hit) /\
    0 <= hit <= sum /\ sum <= len /\ hit <= dst /\ dst <= len /\
    len <= originalNumberOfResidues twins_and_stranger.
Proof.
  assert (H1 : residues_in_range twins_and_stranger) by in_range.
  split; [exact H1|]. split; [vm_compute; reflexivity|]. split; [vm_compute; reflexivity|].
  exact (X3_pair_counts_are_ordered true twins_and_stranger 0 1 H1).
Defined.

(** ** The order of the two sequences *)

Lemma naive_identity_sym (a : Alignment) (i j : nat) :
  naive_identity a i j = naive_identity a j i.
Proof.
  unfold naive_identity.
  rewrite (naive_scan_ext _
    (naive_identity_contrib (indet_of a) (seq_data a j) (seq_data a i))); [reflexivity|].
  intros p _. unfold naive_identity_contrib. cbv zeta.
  rewrite (Z.eqb_sym (byte_at (seq_data a i) p)).
  destruct (is_gap_or_indet (indet_of a) (byte_at (seq_data a i) p)),
           (is_gap_or_indet (indet_of a) (byte_at (seq_data a j) p)); reflexivity.
Qed.

Lemma naive_seqid_sym (a : Alignment) (i j : nat) :
  naive_seqid a i j = naive_seqid a j i.
Proof.
  unfold naive_seqid.
  rewrite (naive_scan_ext _
    (naive_seqid_contrib (indet_of a) a (seq_data a j) (seq_data a i))); [reflexivity|].
  intros p _. unfold naive_seqid_contrib. cbv zeta.
  rewrite (Z.eqb_sym (byte_at (seq_data a i) p)).
  destruct (is_gap_or_indet (indet_of a) (byte_at (seq_data a i) p)),
           (is_gap_or_indet (indet_of a) (byte_at (seq_data a j) p)); reflexivity.
Qed.

(** X4.  The value that either builder computes for a pair of sequences
    does not depend on which of the two is taken first: comparing [j]
    with [i] gives the [float] that comparing [i] with [j] gives. *)
Theorem X4_pair_values_ignore_the_order (aarch64 : bool) (a : Alignment) (i j : nat)
    (Hn : residues_in_range a) :
  identity_pair aarch64 a i j = identity_pair aarch64 a j i /\
  fst <$> seqid_pair aarch64 a i j = fst <$> seqid_pair aarch64 a j i /\
  exists v w, identity_pair aarch64 a i j = Some v /\
              fst <$> seqid_pair aarch64 a i j = Some w.
Proof.
  rewrite !identity_pair_naive, !seqid_pair_naive by exact Hn.
  cbn [fmap option_fmap option_map]. rewrite !seqid_value_naive.
  rewrite (naive_identity_sym a i j), (naive_seqid_sym a i j).
  split; [reflexivity|]. split; [reflexivity|].
  do 2 eexists. split; reflexivity.
Qed.

Lemma X4_pair_values_ignore_the_order_witness :
  residues_in_range acgt3 /\
  identity_pair true acgt3 0 1 = identity_pair true acgt3 1 0 /\
  fst <$> seqid_pair true acgt3 0 1 = fst <$> seqid_pair true acgt3 1 0 /\
  exists v w, identity_pair true acgt3 0 1 = Some v /\
              fst <$> seqid_pair true acgt3 0 1 = Some w.
Proof.
  assert (H1 : residues_in_range acgt3) by in_range.
  split; [exact H1|].
  exact (X4_pair_values_ignore_the_order true acgt3 0 1 H1).
Defined.

(** ** The extreme values *)

Lemma f32_sub_one_one : f32_sub f32_one f32_one = f32_zero.
Proof. reflexivity. Qed.

Lemma f32_div_zero_int (n : Z) :
  0 < n < 2 ^ 64 -> f32_div (f32_of_int 0) (f32_of_int n) = f32_zero.
Proof.
  intros Hn. destruct (f32_of_int_finite n Hn) as (m & e & ->). reflexivity.
Qed.

Lemma in_range_below_2_64 (a : Alignment) (L : Z) :
  residues_in_range a -> 0 < L <= originalNumberOfResidues a -> 0 < L < 2 ^ 64.
Proof.
  unfold residues_in_range, INT_MAX. change (2 ^ 31) with 2147483648.
  change (NLANES_8 * UCHAR_MAX) with 4080. change (2 ^ 64) with 18446744073709551616.
  lia.
Qed.

Lemma count_in_range (g : Z -> Z) (n p : Z) :
  (forall q, 0 <= g q <= 1) -> 0 <= p < n -> g p = 1 ->
  0 < rsum g 0 (Z.to_nat n) <= n.
Proof.
  intros Hg Hp H1. split.
  - assert (1 <= rsum g 0 (Z.to_nat n)); [|lia].
    apply (rsum_pos g (Z.to_nat n) (Z.to_nat p)).
    + intros q. apply Hg.
    + lia.
    + rewrite Z2Nat.id by lia. lia.
  - pose proof (rsum_bounds g 0 (Z.to_nat n) Hg). lia.
Qed.

Lemma naive_identity_equal (a : Alignment) (i j : nat) :
  residues_in_range a ->
  (forall p, 0 <= p < originalNumberOfResidues a ->
     byte_at (seq_data a i) p = byte_at (seq_data a j) p) ->
  (exists p, 0 <= p < originalNumberOfResidues a /\
     is_gap_or_indet (indet_of a) (byte_at (seq_data a i) p) = false) ->
  naive_identity a i j = f32_zero.
Proof.
  intros Hn Heq (p & Hp & Hres). unfold naive_identity.
  set (g := fun q => if negb (is_gap_or_indet (indet_of a) (byte_at (seq_data a i) q))
                     then 1 else 0).
  rewrite (naive_scan_ext _ (fun q => (g q, g q))).
  - rewrite naive_scan_diag. cbn [fst snd].
    rewrite f32_div_int_same; [apply f32_sub_one_one|].
    apply (in_range_below_2_64 a); [exact Hn|].
    apply (count_in_range g _ p); [| exact Hp |].
    + intros q. unfold g. destruct (negb _); lia.
    + unfold g. rewrite Hres. reflexivity.
  - intros q Hq. unfold naive_identity_contrib, g. cbv zeta.
    rewrite <- (Heq q Hq), Z.eqb_refl.
    destruct (is_gap_or_indet (indet_of a) (byte_at (seq_data a i) q)); reflexivity.
Qed.

(** X5.  Two sequences that hold the same residue in every column, at
    least one of them neither a gap nor the indeterminate symbol, are at
    distance exactly 0 in the matrix of [calculateMatrixIdentity]. *)
Theorem X5_equal_sequences_are_at_distance_zero (aarch64 : bool) (s : NEONSimilarity)
    (i j : nat)
    (Hn : residues_in_range (sim_alig s))
    (Hnull : matrixIdentity s = None)
    (Hij : (i < j)%nat)
    (Hj : Z.of_nat j < originalNumberOfSequences (sim_alig s))
    (Heq : forall p, 0 <= p < originalNumberOfResidues (sim_alig s) ->
       byte_at (seq_data (sim_alig s) i) p = byte_at (seq_data (sim_alig s) j) p)
    (Hres : exists p, 0 <= p < originalNumberOfResidues (sim_alig s) /\
       is_gap_or_indet (indet_of (sim_alig s)) (byte_at (seq_data (sim_alig s) i) p) = false) :
  exists m,
    calculateMatrixIdentity aarch64 s = Some (set_matrixIdentity (Some m) s) /\
    m !! (i, j) = Some f32_zero /\ m !! (j, i) = Some f32_zero.
Proof.
  destruct (identity_matrix_entries aarch64 (sim_alig s) i j Hn Hij Hj) as (m & Hm & H1 & H2).
  exists m. unfold calculateMatrixIdentity. rewrite Hnull, Hm. cbn [mbind option_bind].
  rewrite (naive_identity_equal _ _ _ Hn Heq Hres) in H1, H2. auto.
Qed.

Lemma X5_equal_sequences_are_at_distance_zero_witness :
  residues_in_range twins_and_stranger /\
  (forall p, 0 <= p < originalNumberOfResidues twins_and_stranger ->
     byte_at (seq_data twins_and_stranger 0) p = byte_at (seq_data twins_and_stranger 1) p) /\
  is_gap_or_indet (indet_of twins_and_stranger) (byte_at (seq_data twins_and_stranger 0) 0)
    = false /\
  exists m,
    calculateMatrixIdentity true (fresh_scorer unit_distance twins_and_stranger)
      = Some (set_matrixIdentity (Some m) (fresh_scorer unit_distance twins_and_stranger)) /\
    m !! (0%nat, 1%nat) = Some f32_zero /\ m !! (1%nat, 0%nat) = Some f32_zero.
Proof.
  assert (H1 : residues_in_range twins_and_stranger) by in_range.
  assert (H2 : forall p, 0 <= p < originalNumberOfResidues twins_and_stranger ->
            byte_at (seq_data twins_and_stranger 0) p
            = byte_at (seq_data twins_and_stranger 1) p)
    by (intros p _; reflexivity).
  assert (H3 : is_gap_or_indet (indet_of twins_and_stranger)
                 (byte_at (seq_data twins_and_stranger 0) 0) = false) by reflexivity.
  split; [exact H1|]. split; [exact H2|]. split; [exact H3|].
  apply (X5_equal_sequences_are_at_distance_zero true
           (fresh_scorer unit_distance twins_and_stranger) 0 1 H1 eq_refl).
  - lia.
  - reflexivity.
  - exact H2.
  - exists 0. split; [split; [lia | reflexivity] | exact H3].
Defined.

Lemma naive_identity_disjoint (a : Alignment) (i j : nat) :
  residues_in_range a ->
  (forall p, 0 <= p < originalNumberOfResidues a ->
     byte_at (seq_data a i) p = byte_at (seq_data a j) p ->
     is_gap_or_indet (indet_of a) (byte_at (seq_data a i) p) = true) ->
  (exists p, 0 <= p < originalNumberOfResidues a /\
     is_gap_or_indet (indet_of a) (byte_at (seq_data a i) p)
     && is_gap_or_indet (indet_of a) (byte_at (seq_data a j) p) = false) ->
  naive_identity a i j = f32_one.
Proof.
  intros Hn Hne (p & Hp & Hres). unfold naive_identity.
  set (g := fun q => if negb (is_gap_or_indet (indet_of a) (byte_at (seq_data a i) q)
                              && is_gap_or_indet (indet_of a) (byte_at (seq_data a j) q))
                     then 1 else 0).
  rewrite (naive_scan_ext _ (fun q => (0, g q))).
  - rewrite naive_scan_left_zero. cbn [fst snd].
    rewrite f32_div_zero_int; [reflexivity|].
    apply (in_range_below_2_64 a); [exact Hn|].
    apply (count_in_range g _ p); [| exact Hp |].
    + intros q. unfold g. destruct (negb _); lia.
    + unfold g. rewrite Hres. reflexivity.
  - intros q Hq. unfold naive_identity_contrib, g. cbv zeta.
    specialize (Hne q Hq).
    destruct (Z.eqb_spec (byte_at (seq_data a i) q) (byte_at (seq_data a j) q)) as [E | _].
    + rewrite (Hne E). reflexivity.
    + rewrite !andb_false_r. reflexivity.
Qed.

(** X6.  Two sequences that hold the same residue only in columns where
    it is a gap or the indeterminate symbol, and that have a column in
    which not both are one of these, are at distance exactly 1 in the
    matrix of [calculateMatrixIdentity]. *)
Theorem X6_sequences_without_a_match_are_at_distance_one (aarch64 : bool)
    (s : NEONSimilarity) (i j : nat)
    (Hn : residues_in_range (sim_alig s))
    (Hnull : matrixIdentity s = None)
    (Hij : (i < j)%nat)
    (Hj : Z.of_nat j < originalNumberOfSequences (sim_alig s))
    (Hne : forall p, 0 <= p < originalNumberOfResidues (sim_alig s) ->
       byte_at (seq_data (sim_alig s) i) p = byte_at (seq_data (sim_alig s) j) p ->
       is_gap_or_indet (indet_of (sim_alig s)) (byte_at (seq_data (sim_alig s) i) p) = true)
    (Hres : exists p, 0 <= p < originalNumberOfResidues (sim_alig s) /\
       is_gap_or_indet (indet_of (sim_alig s)) (byte_at (seq_data (sim_alig s) i) p)
       && is_gap_or_indet (indet_of (sim_alig s)) (byte_at (seq_data (sim_alig s) j) p)
       = false) :
  exists m,
    calculateMatrixIdentity aarch64 s = Some (set_matrixIdentity (Some m) s) /\
    m !! (i, j) = Some f32_one /\ m !! (j, i) = Some f32_one.
Proof.
  destruct (identity_matrix_entries aarch64 (sim_alig s) i j Hn Hij Hj) as (m & Hm & H1 & H2).
  exists m. unfold calculateMatrixIdentity. rewrite Hnull, Hm. cbn [mbind option_bind].
  rewrite (naive_identity_disjoint _ _ _ Hn Hne Hres) in H1, H2. auto.
Qed.

Lemma X6_sequences_without_a_match_are_at_distance_one_witness :
  residues_in_range twins_and_stranger /\
  (forall p, 0 <= p < originalNumberOfResidues twins_and_stranger ->
     byte_at (seq_data twins_and_stranger 0) p = byte_at (seq_data twins_and_stranger 2) p ->
     is_gap_or_indet (indet_of twins_and_stranger)
       (byte_at (seq_data twins_and_stranger 0) p) = true) /\
  is_gap_or_indet (indet_of twins_and_stranger) (byte_at (seq_data twins_and_stranger 0) 0)
  && is_gap_or_indet (indet_of twins_and_stranger) (byte_at (seq_data twins_and_stranger 2) 0)
  = false /\
  exists m,
    calculateMatrixIdentity true (fresh_scorer unit_distance twins_and_stranger)
      = Some (set_matrixIdentity (Some m) (fresh_scorer unit_distance twins_and_stranger)) /\
    m !! (0%nat, 2%nat) = Some f32_one /\ m !! (2%nat, 0%nat) = Some f32_one.
Proof.
  assert (H1 : residues_in_range twins_and_stranger) by in_range.
  assert (H2 : forall p, 0 <= p < originalNumberOfResidues twins_and_stranger ->
            byte_at (seq_data twins_and_stranger 0) p
            = byte_at (seq_data twins_and_stranger 2) p ->
            is_gap_or_indet (indet_of twins_and_stranger)
              (byte_at (seq_data twins_and_stranger 0) p) = true).
  { intros p Hp E. change (originalNumberOfResidues twins_and_stranger) with 4 in Hp.
    assert (Hcases : p = 0 \/ p = 1 \/ p = 2 \/ p = 3) by lia.
    destruct Hcases as [-> | [-> | [-> | ->]]]; vm_compute in E; discriminate E. }
  assert (H3 : is_gap_or_indet (indet_of twins_and_stranger)
                 (byte_at (seq_data twins_and_stranger 0) 0)
               && is_gap_or_indet (indet_of twins_and_stranger)
                    (byte_at (seq_data twins_and_stranger 2) 0) = false) by reflexivity.
  split; [exact H1|]. split; [exact H2|]. split; [exact H3|].
  apply (X6_sequences_without_a_match_are_at_distance_one true
           (fresh_scorer unit_distance twins_and_stranger) 0 2 H1 eq_refl).
  - lia.
  - reflexivity.
  - exact H2.
  - exists 0. split; [split; [lia | reflexivity] | exact H3].
Defined.

(** ** What the builders do not look at *)

Lemma naive_identity_with_sequences (a : Alignment) (seqs : list (list Z)) (i j : nat) :
  (forall i p, 0 <= p < originalNumberOfResidues a ->
     byte_at (nth i seqs []) p = byte_at (seq_data a i) p) ->
  naive_identity (with_sequences a seqs) i j = naive_identity a i j.
Proof.
  intros Hsame. unfold naive_identity.
  change (originalNumberOfResidues (with_sequences a seqs))
    with (originalNumberOfResidues a).
  change (indet_of (with_sequences a seqs)) with (indet_of a).
  change (seq_data (with_sequences a seqs)) with (fun i => nth i seqs []).
  cbv beta.
  rewrite (naive_scan_ext _
    (naive_identity_contrib (indet_of a) (seq_data a i) (seq_data a j))); [reflexivity|].
  intros p Hp. unfold naive_identity_contrib. rewrite !Hsame by exact Hp. reflexivity.
Qed.

(** X7.  The matrix of [calculateMatrixIdentity] depends on the first
    [originalNumberOfResidues] bytes of each sequence only: whatever the
    buffers hold from that position on (a terminator, more residues)
    has no effect on any entry. *)
Theorem X7_identity_matrix_reads_residues_only (aarch64 : bool) (a : Alignment)
    (seqs : list (list Z))
    (Hn : residues_in_range a)
    (Hsame : forall i p, 0 <= p < originalNumberOfResidues a ->
       byte_at (nth i seqs []) p = byte_at (seq_data a i) p) :
  identity_rows aarch64 (with_sequences a seqs) = identity_rows aarch64 a /\
  is_Some (identity_rows aarch64 a).
Proof.
  rewrite (identity_rows_fill aarch64 a Hn).
  rewrite (identity_rows_fill aarch64 (with_sequences a seqs)) by exact Hn.
  split; [|eauto]. f_equal.
  change (originalNumberOfSequences (with_sequences a seqs))
    with (originalNumberOfSequences a).
  apply fill_pairs_ext. intros i j m.
  rewrite naive_identity_with_sequences by exact Hsame. reflexivity.
Qed.

Lemma X7_identity_matrix_reads_residues_only_witness :
  residues_in_range acgt3 /\
  (forall i p, 0 <= p < originalNumberOfResidues acgt3 ->
     byte_at (nth i acgt3_padded []) p = byte_at (seq_data acgt3 i) p) /\
  sequences (with_sequences acgt3 acgt3_padded) <> sequences acgt3 /\
  identity_rows true (with_sequences acgt3 acgt3_padded) = identity_rows true acgt3 /\
  is_Some (identity_rows true acgt3).
Proof.
  assert (H1 : residues_in_range acgt3) by in_range.
  assert (H2 : forall i p, 0 <= p < originalNumberOfResidues acgt3 ->
            byte_at (nth i acgt3_padded []) p = byte_at (seq_data acgt3 i) p).
  { intros i p Hp. change (originalNumberOfResidues acgt3) with 4 in Hp.
    assert (Hcases : p = 0 \/ p = 1 \/ p = 2 \/ p = 3) by lia.
    destruct i as [|[|[|i]]];
      [destruct Hcases as [-> | [-> | [-> | ->]]]; reflexivity .. |].
    destruct i; reflexivity. }
  split; [exact H1|]. split; [exact H2|]. split; [vm_compute; discriminate|].
  exact (X7_identity_matrix_reads_residues_only true acgt3 acgt3_padded H1 H2).
Defined.

(** X8.  The matrix of [calculateSeqIdentity] holds a value exactly in
    the slots [(i, j)] of two original sequences that are both kept
    (not marked -1 in [saveSequences]), the diagonal included; the
    diagonal entries of kept sequences are 0, and no row or column of a
    removed sequence is ever written. *)
Theorem X8_seqid_matrix_covers_kept_sequences (aarch64 : bool) (a : Alignment)
    (Hn : residues_in_range a) :
  exists ident log,
    calculateSeqIdentity aarch64 a = Some (ident, log) /\
    (forall i j : nat,
       is_Some (ident !! (i, j)) <->
       Z.of_nat i < originalNumberOfSequences a /\
       Z.of_nat j < originalNumberOfSequences a /\
       removed a i = false /\ removed a j = false) /\
    (forall i : nat,
       Z.of_nat i < originalNumberOfSequences a -> removed a i = false ->
       ident !! (i, i) = Some f32_zero).
Proof.
  do 2 eexists. split; [apply calculateSeqIdentity_fill; exact Hn|].
  assert (Hput : forall i j (m : matrix) key, i <> j ->
            mirror_back i j (naive_seqid a i j) m !! key =
            if decide (key = (i, j) \/ key = (j, i))
            then Some (naive_seqid a i j) else m !! key)
    by (intros; apply mirror_back_lookup; assumption).
  assert (Hdiag : forall i : nat,
            Z.of_nat i < originalNumberOfSequences a -> removed a i = false ->
            fill_pairs (kept a) (fun i j => mirror_back i j (naive_seqid a i j))
              (originalNumberOfSequences a) (seqid_diagonal a) !! (i, i) = Some f32_zero).
  { intros i Hi Hk.
    rewrite (fill_pairs_diag (kept a) _ (naive_seqid a) Hput).
    apply seqid_diagonal_hit; assumption. }
  split; [|exact Hdiag].
  intros i j. split.
  - intros Hsome.
    destruct (decide (Z.of_nat i < originalNumberOfSequences a /\
                      Z.of_nat j < originalNumberOfSequences a /\
                      removed a i = false /\ removed a j = false))
      as [Hyes | Hno]; [exact Hyes|].
    exfalso. rewrite (fill_pairs_untouched _ _ (naive_seqid a)) in Hsome.
    + rewrite seqid_diagonal_miss in Hsome; [destruct Hsome as [? [=]]|].
      destruct (Nat.eq_dec i j) as [<- | Hne]; [|auto].
      right. destruct (Z_lt_le_dec (Z.of_nat i) (originalNumberOfSequences a)); [|auto].
      right. destruct (removed a i) eqn:Hr; [reflexivity|]. exfalso. apply Hno. auto.
    + exact Hput.
    + intros x y Hxy Hy Hkx Hky. unfold kept in Hkx, Hky.
      apply negb_true_iff in Hkx, Hky.
      split; intros [=]; subst; apply Hno; repeat split; auto; lia.
  - intros (Hi & Hj & Hki & Hkj).
    assert (Hki' : kept a i = true) by (unfold kept; rewrite Hki; reflexivity).
    assert (Hkj' : kept a j = true) by (unfold kept; rewrite Hkj; reflexivity).
    destruct (Nat.lt_total i j) as [Hlt | [<- | Hlt]].
    + destruct (fill_pairs_lookup (kept a)
                  (fun i j => mirror_back i j (naive_seqid a i j)) (naive_seqid a) Hput
                  (originalNumberOfSequences a) (seqid_diagonal a) i j Hlt Hj Hki' Hkj')
        as [-> _]. eauto.
    + rewrite Hdiag by assumption. eauto.
    + destruct (fill_pairs_lookup (kept a)
                  (fun i j => mirror_back i j (naive_seqid a i j)) (naive_seqid a) Hput
                  (originalNumberOfSequences a) (seqid_diagonal a) j i Hlt Hi Hkj' Hki')
        as [_ ->]. eauto.
Qed.

Lemma X8_seqid_matrix_covers_kept_sequences_witness :
  residues_in_range twins_and_stranger /\
  exists ident log,
    calculateSeqIdentity true twins_and_stranger = Some (ident, log) /\
    (forall i j : nat,
       is_Some (ident !! (i, j)) <->
       Z.of_nat i < originalNumberOfSequences twins_and_stranger /\
       Z.of_nat j < originalNumberOfSequences twins_and_stranger /\
       removed twins_and_stranger i = false /\ removed twins_and_stranger j = false) /\
    (forall i : nat,
       Z.of_nat i < originalNumberOfSequences twins_and_stranger ->
       removed twins_and_stranger i = false ->
       ident !! (i, i) = Some f32_zero).
Proof.
  assert (H1 : residues_in_range twins_and_stranger) by in_range.
  split; [exact H1|].
  exact (X8_seqid_matrix_covers_kept_sequences true twins_and_stranger H1).
Defined.

(** X9.  [calculateSeqIdentity] reports [NoResidueSequences] and nothing
    else; it reports it, with the names of the two sequences, exactly
    for the pairs [i < j] of kept sequences that have no unmasked column
    in which at least one of them holds a residue ([dst = 0]). *)
Theorem X9_seqid_reports_exactly_empty_pairs (aarch64 : bool) (a : Alignment)
    (Hn : residues_in_range a) :
  exists ident log,
    calculateSeqIdentity aarch64 a = Some (ident, log) /\
    forall r : report,
      In r log <->
      exists i j : nat,
        (i < j)%nat /\ Z.of_nat j < originalNumberOfSequences a /\
        removed a i = false /\ removed a j = false /\
        fst (naive_scan (naive_seqid_contrib (indet_of a) a (seq_data a i) (seq_data a j))
                        (originalNumberOfResidues a)) = 0 /\
        r = NoResidueSequences (nth i (seqsName a) EmptyString)
                               (nth j (seqsName a) EmptyString).
Proof.
  do 2 eexists. split; [apply calculateSeqIdentity_fill; exact Hn|].
  intros r. unfold seqid_log. rewrite in_flat_map. split.
  - intros (i & Hi & Hr). apply in_index_range in Hi; [|lia].
    destruct (removed a i) eqn:Hki; [destruct Hr|].
    apply in_flat_map in Hr. destruct Hr as (j & Hj & Hr).
    apply in_index_range in Hj; [|lia].
    destruct (removed a j) eqn:Hkj; [destruct Hr|].
    unfold seqid_result, seqid_value in Hr. cbv zeta in Hr.
    destruct (fst (naive_scan _ _) =? 0) eqn:Hz; [|destruct Hr].
    destruct Hr as [<- | []]. exists i, j.
    apply Z.eqb_eq in Hz. repeat split; auto; lia.
  - intros (i & j & Hij & Hj & Hki & Hkj & Hz & ->).
    exists i. split; [apply in_index_range; lia|]. rewrite Hki.
    apply in_flat_map. exists j. split; [apply in_index_range; lia|]. rewrite Hkj.
    unfold seqid_result, seqid_value. cbv zeta. rewrite Hz. left. reflexivity.
Qed.

Lemma X9_seqid_reports_exactly_empty_pairs_witness :
  residues_in_range gap_vs_indet /\
  snd <$> calculateSeqIdentity true gap_vs_indet = Some [NoResidueSequences "-" "X"] /\
  exists ident log,
    calculateSeqIdentity true gap_vs_indet = Some (ident, log) /\
    forall r : report,
      In r log <->
      exists i j : nat,
        (i < j)%nat /\ Z.of_nat j < originalNumberOfSequences gap_vs_indet /\
        removed gap_vs_indet i = false /\ removed gap_vs_indet j = false /\
        fst (naive_scan (naive_seqid_contrib (indet_of gap_vs_indet) gap_vs_indet
                           (seq_data gap_vs_indet i) (seq_data gap_vs_indet j))
                        (originalNumberOfResidues gap_vs_indet)) = 0 /\
        r = NoResidueSequences (nth i (seqsName gap_vs_indet) EmptyString)
                               (nth j (seqsName gap_vs_indet) EmptyString).
Proof.
  assert (H1 : residues_in_range gap_vs_indet) by in_range.
  split; [exact H1|]. split; [vm_compute; reflexivity|].
  exact (X9_seqid_reports_exactly_empty_pairs true gap_vs_indet H1).
Defined.

Lemma naive_seqid_equal (a : Alignment) (i j : nat) :
  residues_in_range a ->
  (forall p, 0 <= p < originalNumberOfResidues a ->
     byte_at (seq_data a i) p = byte_at (seq_data a j) p) ->
  (exists p, 0 <= p < originalNumberOfResidues a /\
     nth (Z.to_nat p) (saveResidues a) 0 <> -1 /\
     is_gap_or_indet (indet_of a) (byte_at (seq_data a i) p) = false) ->
  naive_seqid a i j = f32_one /\ snd (seqid_result a i j) = [].
Proof.
  intros Hn Heq (p & Hp & Hkeep & Hres). unfold naive_seqid, seqid_result, seqid_value.
  set (g := fun q => if negb (nth (Z.to_nat q) (saveResidues a) 0 =? -1)
                        && negb (is_gap_or_indet (indet_of a) (byte_at (seq_data a i) q))
                     then 1 else 0).
  rewrite (naive_scan_ext _ (fun q => (g q, g q))).
  - rewrite naive_scan_diag. cbn [fst snd].
    assert (HL : 0 < rsum g 0 (Z.to_nat (originalNumberOfResidues a))
                 <= originalNumberOfResidues a).
    { apply (count_in_range g _ p); [| exact Hp |].
      - intros q. unfold g. destruct (_ && _); lia.
      - unfold g. rewrite Hres. apply Z.eqb_neq in Hkeep. rewrite Hkeep. reflexivity. }
    destruct (Z.eqb_spec (rsum g 0 (Z.to_nat (originalNumberOfResidues a))) 0) as [H0 | _];
      [lia|].
    split; [|reflexivity].
    apply f32_div_int_same. apply (in_range_below_2_64 a); assumption.
  - intros q Hq. unfold naive_seqid_contrib, g. cbv zeta.
    rewrite <- (Heq q Hq), Z.eqb_refl.
    destruct (nth (Z.to_nat q) (saveResidues a) 0 =? -1),
             (is_gap_or_indet (indet_of a) (byte_at (seq_data a i) q)); reflexivity.
Qed.

(** X10.  Two kept sequences that hold the same residue in every
    column, at least one of them in a column that is not removed and
    neither a gap nor the indeterminate symbol, have identity exactly 1
    in the matrix of [calculateSeqIdentity], and nothing is reported
    for the pair. *)
Theorem X10_equal_sequences_have_identity_one (aarch64 : bool) (a : Alignment)
    (i j : nat)
    (Hn : residues_in_range a)
    (Hij : (i < j)%nat)
    (Hj : Z.of_nat j < originalNumberOfSequences a)
    (Hki : removed a i = false) (Hkj : removed a j = false)
    (Heq : forall p, 0 <= p < originalNumberOfResidues a ->
       byte_at (seq_data a i) p = byte_at (seq_data a j) p)
    (Hres : exists p, 0 <= p < originalNumberOfResidues a /\
       nth (Z.to_nat p) (saveResidues a) 0 <> -1 /\
       is_gap_or_indet (indet_of a) (byte_at (seq_data a i) p) = false) :
  exists ident log,
    calculateSeqIdentity aarch64 a = Some (ident, log) /\
    ident !! (i, j) = Some f32_one /\ ident !! (j, i) = Some f32_one /\
    seqid_pair aarch64 a i j = Some (f32_one, []).
Proof.
  destruct (naive_seqid_equal a i j Hn Heq Hres) as [Hv Hr].
  destruct (seqid_matrix_entries aarch64 a i j Hn Hij Hj) as (ident & Hc & H1 & H2).
  - unfold kept. rewrite Hki. reflexivity.
  - unfold kept. rewrite Hkj. reflexivity.
  - exists ident, (seqid_log a). rewrite Hv in H1, H2.
    split; [exact Hc|]. split; [exact H1|]. split; [exact H2|].
    rewrite seqid_pair_naive by exact Hn. f_equal.
    apply injective_projections.
    + rewrite seqid_value_naive. exact Hv.
    + exact Hr.
Qed.

Lemma X10_equal_sequences_have_identity_one_witness :
  residues_in_range twins_and_stranger /\
  (forall p, 0 <= p < originalNumberOfResidues twins_and_stranger ->
     byte_at (seq_data twins_and_stranger 0) p = byte_at (seq_data twins_and_stranger 1) p) /\
  nth (Z.to_nat 0) (saveResidues twins_and_stranger) 0 <> -1 /\
  is_gap_or_indet (indet_of twins_and_stranger) (byte_at (seq_data twins_and_stranger 0) 0)
    = false /\
  exists ident log,
    calculateSeqIdentity true twins_and_stranger = Some (ident, log) /\
    ident !! (0%nat, 1%nat) = Some f32_one /\ ident !! (1%nat, 0%nat) = Some f32_one /\
    seqid_pair true twins_and_stranger 0 1 = Some (f32_one, []).
Proof.
  assert (H1 : residues_in_range twins_and_stranger) by in_range.
  assert (H2 : forall p, 0 <= p < originalNumberOfResidues twins_and_stranger ->
            byte_at (seq_data twins_and_stranger 0) p
            = byte_at (seq_data twins_and_stranger 1) p)
    by (intros p _; reflexivity).
  assert (H3 : nth (Z.to_nat 0) (saveResidues twins_and_stranger) 0 <> -1)
    by (vm_compute; discriminate).
  assert (H4 : is_gap_or_indet (indet_of twins_and_stranger)
                 (byte_at (seq_data twins_and_stranger 0) 0) = false) by reflexivity.
  split; [exact H1|]. split; [exact H2|]. split; [exact H3|]. split; [exact H4|].
  apply (X10_equal_sequences_have_identity_one true twins_and_stranger 0 1 H1).
  - lia.
  - reflexivity.
  - reflexivity.
  - reflexivity.
  - exact H2.
  - exists 0. split; [split; [lia | reflexivity]|]. split; [exact H3 | exact H4].
Defined.

Lemma seqid_scan_with_sequences (a : Alignment) (seqs : list (list Z)) (i j : nat) :
  (forall i p, 0 <= p < originalNumberOfResidues a ->
     nth (Z.to_nat p) (saveResidues a) 0 <> -1 ->
     byte_at (nth i seqs []) p = byte_at (seq_data a i) p) ->
  naive_scan (naive_seqid_contrib (indet_of a) (with_sequences a seqs)
                (nth i seqs []) (nth j seqs [])) (originalNumberOfResidues a) =
  naive_scan (naive_seqid_contrib (indet_of a) a (seq_data a i) (seq_data a j))
             (originalNumberOfResidues a).
Proof.
  intros Hsame. apply naive_scan_ext. intros p Hp.
  unfold naive_seqid_contrib. cbv zeta.
  change (saveResidues (with_sequences a seqs)) with (saveResidues a).
  destruct (Z.eqb_spec (nth (Z.to_nat p) (saveResidues a) 0) (-1)) as [E | E].
  - reflexivity.
  - rewrite !Hsame by assumption. reflexivity.
Qed.

(** X11.  The residues in the columns marked -1 in [saveResidues] have
    no effect on [calculateSeqIdentity]: two alignments that differ in
    such columns only (and beyond the last column) get the same matrix
    and the same reports. *)
Theorem X11_removed_columns_are_not_compared (aarch64 : bool) (a : Alignment)
    (seqs : list (list Z))
    (Hn : residues_in_range a)
    (Hsame : forall i p, 0 <= p < originalNumberOfResidues a ->
       nth (Z.to_nat p) (saveResidues a) 0 <> -1 ->
       byte_at (nth i seqs []) p = byte_at (seq_data a i) p) :
  calculateSeqIdentity aarch64 (with_sequences a seqs) = calculateSeqIdentity aarch64 a /\
  is_Some (calculateSeqIdentity aarch64 a).
Proof.
  rewrite (calculateSeqIdentity_fill aarch64 a Hn).
  rewrite (calculateSeqIdentity_fill aarch64 (with_sequences a seqs)) by exact Hn.
  split; [|eauto].
  assert (Hv : forall i j, naive_seqid (with_sequences a seqs) i j = naive_seqid a i j).
  { intros i j. unfold naive_seqid.
    change (originalNumberOfResidues (with_sequences a seqs))
      with (originalNumberOfResidues a).
    change (indet_of (with_sequences a seqs)) with (indet_of a).
    change (seq_data (with_sequences a seqs) i) with (nth i seqs []).
    change (seq_data (with_sequences a seqs) j) with (nth j seqs []).
    rewrite seqid_scan_with_sequences by exact Hsame. reflexivity. }
  assert (Hr : forall i j, seqid_result (with_sequences a seqs) i j = seqid_result a i j).
  { intros i j. unfold seqid_result.
    change (originalNumberOfResidues (with_sequences a seqs))
      with (originalNumberOfResidues a).
    change (indet_of (with_sequences a seqs)) with (indet_of a).
    change (seq_data (with_sequences a seqs) i) with (nth i seqs []).
    change (seq_data (with_sequences a seqs) j) with (nth j seqs []).
    rewrite seqid_scan_with_sequences by exact Hsame. reflexivity. }
  f_equal. f_equal.
  - change (originalNumberOfSequences (with_sequences a seqs))
      with (originalNumberOfSequences a).
    change (kept (with_sequences a seqs)) with (kept a).
    change (seqid_diagonal (with_sequences a seqs)) with (seqid_diagonal a).
    apply fill_pairs_ext. intros i j m. rewrite Hv. reflexivity.
  - unfold seqid_log.
    change (originalNumberOfSequences (with_sequences a seqs))
      with (originalNumberOfSequences a).
    change (removed (with_sequences a seqs)) with (removed a).
    apply flat_map_ext. intros i. destruct (removed a i); [reflexivity|].
    apply flat_map_ext. intros j. destruct (removed a j); [reflexivity|].
    rewrite Hr. reflexivity.
Qed.

Lemma X11_removed_columns_are_not_compared_witness :
  residues_in_range twins_and_stranger /\
  (forall i p, 0 <= p < originalNumberOfResidues twins_and_stranger ->
     nth (Z.to_nat p) (saveResidues twins_and_stranger) 0 <> -1 ->
     byte_at (nth i twins_and_stranger_edited []) p
     = byte_at (seq_data twins_and_stranger i) p) /\
  byte_at (nth 0 twins_and_stranger_edited []) 1 <> byte_at (seq_data twins_and_stranger 0) 1 /\
  calculateSeqIdentity true (with_sequences twins_and_stranger twins_and_stranger_edited)
    = calculateSeqIdentity true twins_and_stranger /\
  is_Some (calculateSeqIdentity true twins_and_stranger).
Proof.
  assert (H1 : residues_in_range twins_and_stranger) by in_range.
  assert (H2 : forall i p, 0 <= p < originalNumberOfResidues twins_and_stranger ->
            nth (Z.to_nat p) (saveResidues twins_and_stranger) 0 <> -1 ->
            byte_at (nth i twins_and_stranger_edited []) p
            = byte_at (seq_data twins_and_stranger i) p).
  { intros i p Hp Hkeep. change (originalNumberOfResidues twins_and_stranger) with 4 in Hp.
    assert (Hcases : p = 0 \/ p = 1 \/ p = 2 \/ p = 3) by lia.
    destruct Hcases as [-> | [-> | [-> | ->]]];
      try (exfalso; apply Hkeep; reflexivity);
      (destruct i as [|[|[|i]]]; [reflexivity .. |]; destruct i; reflexivity). }
  split; [exact H1|]. split; [exact H2|]. split; [vm_compute; discriminate|].
  exact (X11_removed_columns_are_not_compared true twins_and_stranger
           twins_and_stranger_edited H1 H2).
Defined.

(** ** The two builders side by side *)

(** X12.  When no column is marked as removed, the two builders count
    the same for every pair: [dst] of [calculateSeqIdentity] is
    [length] of [calculateMatrixIdentity] and [hit] is [sum]; if the
    count is not 0, the distance stored by the one is [1.0F] minus the
    identity stored by the other. *)
Theorem X12_builders_agree_without_removed_columns (aarch64 : bool) (a : Alignment)
    (i j : nat)
    (Hn : residues_in_range a)
    (Hnone : forall p, 0 <= p < originalNumberOfResidues a ->
       nth (Z.to_nat p) (saveResidues a) 0 <> -1) :
  exists sum len : Z,
    chunked_scan aarch64
      (identity_lanes (indet_of a) (seq_data a i) (seq_data a j))
      (identity_tail (indet_of a) (seq_data a i) (seq_data a j))
      (originalNumberOfResidues a) = Some (sum, len) /\
    chunked_scan aarch64
      (seqid_lanes (indet_of a) (skipResidues a) (seq_data a i) (seq_data a j))
      (seqid_tail (indet_of a) (skipResidues a) (seq_data a i) (seq_data a j))
      (originalNumberOfResidues a) = Some (len, sum) /\
    (len <> 0 ->
     exists v, seqid_pair aarch64 a i j = Some (v, []) /\
               identity_pair aarch64 a i j = Some (f32_sub f32_one v)).
Proof.
  assert (Hscan :
    naive_scan (seqid_tail (indet_of a) (skipResidues a) (seq_data a i) (seq_data a j))
               (originalNumberOfResidues a) =
    (snd (naive_scan (identity_tail (indet_of a) (seq_data a i) (seq_data a j))
                     (originalNumberOfResidues a)),
     fst (naive_scan (identity_tail (indet_of a) (seq_data a i) (seq_data a j))
                     (originalNumberOfResidues a)))).
  { rewrite (naive_scan_ext _
      (fun p => (snd (identity_tail (indet_of a) (seq_data a i) (seq_data a j) p),
                 fst (identity_tail (indet_of a) (seq_data a i) (seq_data a j) p)))).
    - rewrite !naive_scan_rsum. reflexivity.
    - intros p Hp. unfold seqid_tail, identity_tail. cbn [fst snd].
      rewrite (skipResidues_at a p Hp).
      specialize (Hnone p Hp). apply Z.eqb_neq in Hnone. rewrite Hnone.
      change (0 =? 0) with true. rewrite !andb_true_r.
      destruct (Z.eqb_spec (byte_at (seq_data a i) p) (byte_at (seq_data a j) p)) as [<- | _];
        [|rewrite !andb_false_r]; f_equal; f_equal;
        destruct (byte_at (seq_data a i) p =? indet_of a),
                 (byte_at (seq_data a i) p =? ch_gap),
                 (byte_at (seq_data a j) p =? indet_of a),
                 (byte_at (seq_data a j) p =? ch_gap); reflexivity. }
  unfold seqid_pair, identity_pair.
  rewrite identity_scan_naive, seqid_scan_naive by exact Hn. rewrite Hscan.
  destruct (naive_scan (identity_tail _ _ _) _) as [sum len]. cbn [fst snd].
  exists sum, len. split; [reflexivity|]. split; [reflexivity|].
  intros Hlen. cbn [mbind option_bind fst snd]. unfold seqid_value, identity_value.
  apply Z.eqb_neq in Hlen. rewrite Hlen. eexists. split; reflexivity.
Qed.

Lemma X12_builders_agree_without_removed_columns_witness :
  residues_in_range acgt3 /\
  (forall p, 0 <= p < originalNumberOfResidues acgt3 ->
     nth (Z.to_nat p) (saveResidues acgt3) 0 <> -1) /\
  exists sum len : Z,
    chunked_scan true
      (identity_lanes (indet_of acgt3) (seq_data acgt3 0) (seq_data acgt3 1))
      (identity_tail (indet_of acgt3) (seq_data acgt3 0) (seq_data acgt3 1))
      (originalNumberOfResidues acgt3) = Some (sum, len) /\
    chunked_scan true
      (seqid_lanes (indet_of acgt3) (skipResidues acgt3) (seq_data acgt3 0) (seq_data acgt3 1))
      (seqid_tail (indet_of acgt3) (skipResidues acgt3) (seq_data acgt3 0) (seq_data acgt3 1))
      (originalNumberOfResidues acgt3) = Some (len, sum) /\
    (len <> 0 ->
     exists v, seqid_pair true acgt3 0 1 = Some (v, []) /\
               identity_pair true acgt3 0 1 = Some (f32_sub f32_one v)).
Proof.
  assert (H1 : residues_in_range acgt3) by in_range.
  assert (H2 : forall p, 0 <= p < originalNumberOfResidues acgt3 ->
            nth (Z.to_nat p) (saveResidues acgt3) 0 <> -1).
  { intros p Hp. change (originalNumberOfResidues acgt3) with 4 in Hp.
    assert (Hcases : p = 0 \/ p = 1 \/ p = 2 \/ p = 3) by lia.
    destruct Hcases as [-> | [-> | [-> | ->]]]; vm_compute; discriminate. }
  split; [exact H1|]. split; [exact H2|].
  exact (X12_builders_agree_without_removed_columns true acgt3 0 1 H1 H2).
Defined.

(** ** The column scorer: when it succeeds, and what it leaves *)

Lemma columns_spec_none (toUpper : Z -> Z) (sim : SimilarityMatrix) (a : Alignment)
    (cutByGap : bool) (m : matrix) (cols : list nat) (mdk : list score) :
  fst (columns_spec toUpper sim a cutByGap m cols mdk) = None <->
  forall i, In i cols -> column_fails toUpper sim a cutByGap i = None.
Proof.
  revert mdk. induction cols as [|c cols IH]; intros mdk.
  - cbn. split; [intros _ i [] | reflexivity].
  - cbn [columns_spec]. destruct (column_fails toUpper sim a cutByGap c) as [r|] eqn:Hc.
    + cbn [fst]. split; [discriminate|]. intros H.
      rewrite (H c (or_introl eq_refl)) in Hc. discriminate.
    + rewrite IH. split.
      * intros H i [<- | Hi]; [exact Hc | apply H; exact Hi].
      * intros H i Hi. apply H. right. exact Hi.
Qed.

(** X13.  [calculateVectors] always returns.  It returns [true] exactly
    when a similarity matrix is set and no column that is scored (not
    pre-zeroed by the gap cut) holds a symbol outside [A-Z] or one the
    matrix does not define; it then has released the identity matrix
    and reported nothing.  Without a similarity matrix it changes
    nothing at all. *)
Theorem X13_calculateVectors_succeeds_iff (toUpper : Z -> Z) (aarch64 cutByGap : bool)
    (s : NEONSimilarity)
    (Hn : residues_in_range (sim_alig s))
    (HN : 0 <= originalNumberOfSequences (sim_alig s)) :
  exists b s',
    calculateVectors toUpper aarch64 cutByGap s = Some (b, s') /\
    (b = true <->
     exists sim, simMatrix s = Some sim /\
       forall i : nat, Z.of_nat i < originalNumberOfResidues (sim_alig s) ->
         column_fails toUpper sim (sim_alig s) cutByGap i = None) /\
    (b = true -> matrixIdentity s' = None /\ sim_debug s' = sim_debug s) /\
    (simMatrix s = None -> s' = s).
Proof.
  destruct (simMatrix s) as [sim|] eqn:Hsim.
  - destruct (matrix_used_some aarch64 s Hn) as [m Hm].
    rewrite (calculateVectors_spec toUpper aarch64 cutByGap s sim m Hsim Hm HN).
    pose proof (columns_spec_none toUpper sim (sim_alig s) cutByGap m
                  (index_range 0 (originalNumberOfResidues (sim_alig s))) (MDK s)) as Hiff.
    destruct (columns_spec _ _ _ _ _ _ _) as [[r|] mdk]; cbn [fst] in Hiff.
    + do 2 eexists. split; [reflexivity|]. split; [|split; [discriminate | discriminate]].
      split; [discriminate|]. intros (sim' & [= <-] & Hok). exfalso.
      assert (Some r = None) as [=]. apply Hiff.
      intros i Hi. apply Hok. apply in_index_range in Hi; lia.
    + do 2 eexists. split; [reflexivity|]. split; [|split; [auto | discriminate]].
      split; [|reflexivity]. intros _. exists sim. split; [reflexivity|].
      intros i Hi. apply Hiff; [reflexivity|]. apply in_index_range; lia.
  - unfold calculateVectors. rewrite Hsim. do 2 eexists. split; [reflexivity|].
    split; [|split; [discriminate | reflexivity]].
    split; [discriminate|]. intros (sim & [=] & _).
Qed.

Lemma X13_calculateVectors_succeeds_iff_witness :
  residues_in_range (sim_alig (fresh_scorer unit_distance_without_C acgt3)) /\
  0 <= originalNumberOfSequences (sim_alig (fresh_scorer unit_distance_without_C acgt3)) /\
  column_fails ascii_toUpper unit_distance_without_C acgt3 false 1 = Some (UndefinedSymbol 67) /\
  exists b s',
    calculateVectors ascii_toUpper true false (fresh_scorer unit_distance_without_C acgt3)
      = Some (b, s') /\
    (b = true <->
     exists sim, simMatrix (fresh_scorer unit_distance_without_C acgt3) = Some sim /\
       forall i : nat, Z.of_nat i < originalNumberOfResidues acgt3 ->
         column_fails ascii_toUpper sim acgt3 false i = None) /\
    (b = true -> matrixIdentity s' = None /\
                 sim_debug s' = sim_debug (fresh_scorer unit_distance_without_C acgt3)) /\
    (simMatrix (fresh_scorer unit_distance_without_C acgt3) = None ->
     s' = fresh_scorer unit_distance_without_C acgt3).
Proof.
  assert (H1 : residues_in_range (sim_alig (fresh_scorer unit_distance_without_C acgt3)))
    by in_range.
  assert (H2 : 0 <= originalNumberOfSequences
                      (sim_alig (fresh_scorer unit_distance_without_C acgt3)))
    by (vm_compute; discriminate).
  split; [exact H1|]. split; [exact H2|]. split; [vm_compute; reflexivity|].
  exact (X13_calculateVectors_succeeds_iff ascii_toUpper true false
           (fresh_scorer unit_distance_without_C acgt3) H1 H2).
Defined.

(** ** A column with at most one residue *)

Lemma fold_left_inv {S A} (P : S -> Prop) (f : S -> A -> S) (l : list A) (s : S) :
  P s -> (forall s x, In x l -> P s -> P (f s x)) -> P (fold_left f l s).
Proof.
  revert s. induction l as [|x l IH]; intros s Hs H; [exact Hs|].
  cbn [fold_left]. apply IH.
  - apply H; [left; reflexivity | exact Hs].
  - intros s' y Hy. apply H. right. exact Hy.
Qed.

Lemma column_sums_of_lonely (toUpper : Z -> Z) (sim : SimilarityMatrix) (a : Alignment)
    (m : matrix) (i : Z) :
  (forall j k : nat, (j < k)%nat -> Z.of_nat k < originalNumberOfSequences a ->
     col_gap toUpper a i j = true \/ col_gap toUpper a i k = true) ->
  column_sums_of toUpper sim a m i = (f32_of_int 0, f32_of_int 0).
Proof.
  intros Hlonely. unfold column_sums_of.
  apply (fold_left_inv (fun nd => nd = (f32_of_int 0, f32_of_int 0))); [reflexivity|].
  intros nd j _ ->. destruct (col_gap toUpper a i j) eqn:Hgj; [reflexivity|].
  apply (fold_left_inv (fun nd => nd = (f32_of_int 0, f32_of_int 0))); [reflexivity|].
  intros nd k Hk ->. apply in_index_range in Hk; [|lia].
  destruct (Hlonely j k) as [H | H]; [lia | lia | congruence |].
  rewrite H. reflexivity.
Qed.

(** X14.  When [calculateVectors] succeeds, a column in which no two
    sequences both hold a residue (after upper-casing: every pair has a
    gap or the indeterminate symbol in it) gets the score 0, whatever
    the identity matrix and the similarity matrix hold. *)
Theorem X14_column_with_one_residue_scores_zero (toUpper : Z -> Z)
    (aarch64 cutByGap : bool)
    (s : NEONSimilarity) (sim : SimilarityMatrix) (i : nat)
    (Hsim : simMatrix s = Some sim)
    (Hn : residues_in_range (sim_alig s))
    (HN : 0 <= originalNumberOfSequences (sim_alig s))
    (Hmdk : length (MDK s) = Z.to_nat (originalNumberOfResidues (sim_alig s)))
    (Hok : forall c, Z.of_nat c < originalNumberOfResidues (sim_alig s) ->
       column_fails toUpper sim (sim_alig s) cutByGap c = None)
    (Hi : Z.of_nat i < originalNumberOfResidues (sim_alig s))
    (Hlonely : forall j k : nat, (j < k)%nat ->
       Z.of_nat k < originalNumberOfSequences (sim_alig s) ->
       col_gap toUpper (sim_alig s) (Z.of_nat i) j = true \/
       col_gap toUpper (sim_alig s) (Z.of_nat i) k = true) :
  exists s',
    calculateVectors toUpper aarch64 cutByGap s = Some (true, s') /\
    MDK s' !! i = Some (Lit f32_zero).
Proof.
  destruct (matrix_used_some aarch64 s Hn) as [m Hm].
  rewrite (calculateVectors_spec toUpper aarch64 cutByGap s sim m Hsim Hm HN).
  rewrite columns_spec_ok
    by (intros c Hc; apply Hok; apply in_index_range in Hc; lia).
  eexists. split; [reflexivity|]. cbn [MDK].
  rewrite (fold_insert_lookup (column_value toUpper sim (sim_alig s) cutByGap m))
    by (try apply in_index_range; lia).
  unfold column_value. destruct (column_cut cutByGap (sim_alig s) i); [reflexivity|].
  rewrite column_sums_of_lonely by exact Hlonely. reflexivity.
Qed.

Lemma X14_column_with_one_residue_scores_zero_witness :
  simMatrix (fresh_scorer unit_distance lonely_column) = Some unit_distance /\
  residues_in_range lonely_column /\
  0 <= originalNumberOfSequences lonely_column /\
  length (MDK (fresh_scorer unit_distance lonely_column))
    = Z.to_nat (originalNumberOfResidues lonely_column) /\
  (forall c, Z.of_nat c < originalNumberOfResidues lonely_column ->
     column_fails ascii_toUpper unit_distance lonely_column false c = None) /\
  Z.of_nat 1 < originalNumberOfResidues lonely_column /\
  (forall j k : nat, (j < k)%nat -> Z.of_nat k < originalNumberOfSequences lonely_column ->
     col_gap ascii_toUpper lonely_column (Z.of_nat 1) j = true \/
     col_gap ascii_toUpper lonely_column (Z.of_nat 1) k = true) /\
  exists s',
    calculateVectors ascii_toUpper true false (fresh_scorer unit_distance lonely_column)
      = Some (true, s') /\
    MDK s' !! 1%nat = Some (Lit f32_zero).
Proof.
  assert (H1 : simMatrix (fresh_scorer unit_distance lonely_column) = Some unit_distance)
    by reflexivity.
  assert (H2 : residues_in_range lonely_column) by in_range.
  assert (H3 : 0 <= originalNumberOfSequences lonely_column) by (vm_compute; discriminate).
  assert (H4 : length (MDK (fresh_scorer unit_distance lonely_column))
               = Z.to_nat (originalNumberOfResidues lonely_column)) by reflexivity.
  assert (H5 : forall c, Z.of_nat c < originalNumberOfResidues lonely_column ->
            column_fails ascii_toUpper unit_distance lonely_column false c = None).
  { intros c Hc. change (originalNumberOfResidues lonely_column) with 2 in Hc.
    destruct c as [|[|c]]; [vm_compute; reflexivity .. | lia]. }
  assert (H6 : Z.of_nat 1 < originalNumberOfResidues lonely_column) by reflexivity.
  assert (H7 : forall j k : nat, (j < k)%nat ->
            Z.of_nat k < originalNumberOfSequences lonely_column ->
            col_gap ascii_toUpper lonely_column (Z.of_nat 1) j = true \/
            col_gap ascii_toUpper lonely_column (Z.of_nat 1) k = true).
  { intros j k Hjk Hk. change (originalNumberOfSequences lonely_column) with 2 in Hk.
    assert (Hj0 : j = 0%nat) by lia. subst j. left. reflexivity. }
  repeat (split; [assumption|]).
  exact (X14_column_with_one_residue_scores_zero ascii_toUpper true false
           (fresh_scorer unit_distance lonely_column) unit_distance 1
           H1 H2 H3 H4 H5 H6 H7).
Defined.

(** ** Scoring twice *)

Lemma fold_insert_length {A} (f : nat -> A) (l : list nat) (v : list A) :
  length (fold_left (fun v i => <[i := f i]> v) l v) = length v.
Proof.
  revert v. induction l as [|x l IH]; intros v; [reflexivity|].
  cbn [fold_left]. rewrite IH. apply length_insert.
Qed.

Lemma fold_insert_idem {A} (f : nat -> A) (l : list nat) (v : list A) :
  fold_left (fun v i => <[i := f i]> v) l (fold_left (fun v i => <[i := f i]> v) l v) =
  fold_left (fun v i => <[i := f i]> v) l v.
Proof.
  apply list_eq. intros i.
  destruct (in_dec Nat.eq_dec i l) as [Hin | Hnin].
  - destruct (lt_dec i (length v)) as [Hlt | Hge].
    + rewrite !fold_insert_lookup; try assumption; [reflexivity|].
      rewrite fold_insert_length. exact Hlt.
    + rewrite !(proj2 (lookup_ge_None _ _)); [reflexivity | |];
        rewrite ?fold_insert_length; lia.
  - rewrite fold_insert_preserve by exact Hnin. reflexivity.
Qed.

(** X15.  A call of [calculateVectors] that starts without an identity
    matrix and returns [true] leaves a state on which the next call
    does the same work over and returns [true] with the very same
    state: the matrix is rebuilt and released again, and every score is
    written a second time with the value it has. *)
Theorem X15_calculateVectors_twice (toUpper : Z -> Z) (aarch64 cutByGap : bool)
    (s s' : NEONSimilarity)
    (Hn : residues_in_range (sim_alig s))
    (HN : 0 <= originalNumberOfSequences (sim_alig s))
    (Hnull : matrixIdentity s = None)
    (Hrun : calculateVectors toUpper aarch64 cutByGap s = Some (true, s')) :
  calculateVectors toUpper aarch64 cutByGap s' = Some (true, s').
Proof.
  destruct (simMatrix s) as [sim|] eqn:Hsim;
    [|unfold calculateVectors in Hrun; rewrite Hsim in Hrun; discriminate].
  destruct (matrix_used_some aarch64 s Hn) as [m Hm].
  rewrite (calculateVectors_spec toUpper aarch64 cutByGap s sim m Hsim Hm HN) in Hrun.
  pose proof (columns_spec_none toUpper sim (sim_alig s) cutByGap m
                (index_range 0 (originalNumberOfResidues (sim_alig s))) (MDK s)) as Hiff.
  destruct (columns_spec _ _ _ _ _ _ _) as [[r|] mdk] eqn:Hcols; [discriminate|].
  cbn [fst] in Hiff. pose proof (proj1 Hiff eq_refl) as Hok.
  rewrite columns_spec_ok in Hcols by exact Hok.
  injection Hcols as <-. injection Hrun as <-.
  unfold matrix_used in Hm. rewrite Hnull in Hm.
  rewrite (calculateVectors_spec toUpper aarch64 cutByGap _ sim m);
    [| reflexivity | unfold matrix_used; exact Hm | exact HN].
  cbn [sim_alig MDK sim_debug].
  rewrite columns_spec_ok by exact Hok.
  rewrite fold_insert_idem. reflexivity.
Qed.

Lemma acgt3_is_scored :
  exists s',
    calculateVectors ascii_toUpper true false (fresh_scorer unit_distance acgt3)
    = Some (true, s').
Proof.
  eexists. vm_compute. reflexivity.
Qed.

Lemma X15_calculateVectors_twice_witness :
  residues_in_range (sim_alig (fresh_scorer unit_distance acgt3)) /\
  0 <= originalNumberOfSequences (sim_alig (fresh_scorer unit_distance acgt3)) /\
  matrixIdentity (fresh_scorer unit_distance acgt3) = None /\
  exists s',
    calculateVectors ascii_toUpper true false (fresh_scorer unit_distance acgt3)
      = Some (true, s') /\
    calculateVectors ascii_toUpper true false s' = Some (true, s').
Proof.
  assert (H1 : residues_in_range (sim_alig (fresh_scorer unit_distance acgt3)))
    by in_range.
  assert (H2 : 0 <= originalNumberOfSequences (sim_alig (fresh_scorer unit_distance acgt3)))
    by (vm_compute; discriminate).
  assert (H3 : matrixIdentity (fresh_scorer unit_distance acgt3) = None) by reflexivity.
  split; [exact H1|]. split; [exact H2|]. split; [exact H3|].
  destruct acgt3_is_scored as [s' Hrun].
  exists s'. split; [exact Hrun|].
  exact (X15_calculateVectors_twice ascii_toUpper true false
           (fresh_scorer unit_distance acgt3) s' H1 H2 H3 Hrun).
Defined.

(** ** The output vector of the overlap scorer *)

(** X16.  With an output vector and a threshold inside the range of
    [uint32_t], [calculateSpuriousVector] returns [true]; the vector
    keeps its length, its entries from index [originalNumberOfSequences]
    on are left as they were, and the entry of every sequence is
    [seqValue] divided by the original number of residues, where
    [seqValue], the number of columns that reach the threshold, never
    exceeds that number. *)
Theorem X16_spurious_vector_is_written_below_N (overlap : float32) (a : Alignment)
    (v : list float32) (ovrlap : Z)
    (Hn : spurious_in_range a)
    (Ht : spurious_threshold overlap a = Some ovrlap) :
  exists v',
    calculateSpuriousVector overlap a (Some v) = Some (true, Some v') /\
    length v' = length v /\
    (forall i : nat, originalNumberOfSequences a <= Z.of_nat i -> v' !! i = v !! i) /\
    (forall i : nat, Z.of_nat i < originalNumberOfSequences a -> (i < length v)%nat ->
       exists hits, spurious_hits a i = Some hits /\
         0 <= count_reached ovrlap hits <= originalNumberOfResidues a /\
         v' !! i = Some (f32_div (f32_of_int (count_reached ovrlap hits))
                                 (f32_of_int (originalNumberOfResidues a)))).
Proof.
  eexists. split; [apply spurious_scores_fold; eassumption|].
  split; [apply fold_insert_length|]. split.
  - intros i Hi. apply fold_insert_preserve. rewrite in_index_range by lia. lia.
  - intros i Hi Hlen. exists (hits_of a i).
    split; [apply spurious_hits_closed; exact Hn|]. split.
    + pose proof (residues_below_2_32 a Hn) as Hlt.
      rewrite count_reached_filter by (rewrite length_hits_of; exact Hlt).
      pose proof (filter_length_le (fun h => ovrlap <=? h) (hits_of a i)) as Hle.
      rewrite length_hits_of in Hle. destruct Hn. lia.
    + rewrite (fold_insert_lookup
        (fun i => f32_div (f32_of_int (count_reached ovrlap (hits_of a i)))
                          (f32_of_int (originalNumberOfResidues a))));
        [reflexivity | exact Hlen | apply in_index_range; lia].
Qed.

Lemma X16_spurious_vector_is_written_below_N_witness :
  spurious_in_range acgt3 /\
  spurious_threshold f32_half acgt3 = Some 1 /\
  exists v',
    calculateSpuriousVector f32_half acgt3 (Some [f32_nan; f32_nan; f32_nan; f32_half])
      = Some (true, Some v') /\
    length v' = length [f32_nan; f32_nan; f32_nan; f32_half] /\
    (forall i : nat, originalNumberOfSequences acgt3 <= Z.of_nat i ->
       v' !! i = [f32_nan; f32_nan; f32_nan; f32_half] !! i) /\
    (forall i : nat, Z.of_nat i < originalNumberOfSequences acgt3 ->
       (i < length [f32_nan; f32_nan; f32_nan; f32_half])%nat ->
       exists hits, spurious_hits acgt3 i = Some hits /\
         0 <= count_reached 1 hits <= originalNumberOfResidues acgt3 /\
         v' !! i = Some (f32_div (f32_of_int (count_reached 1 hits))
                                 (f32_of_int (originalNumberOfResidues acgt3)))).
Proof.
  assert (H1 : spurious_in_range acgt3) by in_range.
  assert (H2 : spurious_threshold f32_half acgt3 = Some 1) by (vm_compute; reflexivity).
  split; [exact H1|]. split; [exact H2|].
  exact (X16_spurious_vector_is_written_below_N f32_half acgt3
           [f32_nan; f32_nan; f32_nan; f32_half] 1 H1 H2).
Defined.

(** ** binary32: quotients of counts lie between 0 and 1 *)

Lemma Zdigits2_eq (m b : Z) :
  0 < b -> 2 ^ (b - 1) <= m < 2 ^ b -> Zdigits2 m = b.
Proof.
  intros Hb [Hlo Hhi].
  assert (Hm : 0 < m) by (assert (0 < 2 ^ (b - 1)) by (apply Z.pow_pos_nonneg; lia); lia).
  pose proof (Zdigits2_le m b Hm ltac:(lia) Hhi).
  pose proof (Zdigits2_ge m (b - 1) Hm Hlo). lia.
Qed.

(** The first step of rounding, with the mantissa it leaves. *)
Lemma shr_fexp_exact (m e : Z) (l : location) :
  0 < m -> -149 <= Zdigits2 m + e - 24 ->
  exists mrs,
    shr_fexp prec32 emax32 m e l = (mrs, e + Z.max (Zdigits2 m - 24) 0) /\
    shr_m mrs = m / 2 ^ Z.max (Zdigits2 m - 24) 0 /\
    (Zdigits2 m <= 24 -> mrs = shr_record_of_loc m l).
Proof.
  intros Hm Hrange. destruct (Zdigits2_bounds m Hm) as (Hd & Hlo & Hhi).
  unfold shr_fexp, fexp, emin, prec32, emax32.
  replace (Z.max (Zdigits2 m + e - 24) (3 - 128 - 24) - e) with (Zdigits2 m - 24) by lia.
  assert (Hrec : shr_m (shr_record_of_loc m l) = m)
    by (destruct l as [|[]]; reflexivity).
  unfold shr. destruct (Zdigits2 m - 24) as [|k|k] eqn:Hk.
  - eexists. split; [f_equal; lia|]. rewrite Hrec.
    split; [cbn; rewrite Z.div_1_r; reflexivity | reflexivity].
  - eexists. split; [f_equal; lia|].
    rewrite iter_pos_nat, shr_iter_m, Hrec by lia.
    rewrite positive_nat_Z. split; [f_equal; f_equal; lia | lia].
  - eexists. split; [f_equal; lia|]. rewrite Hrec.
    split; [|reflexivity].
    replace (Z.max (Z.neg k) 0) with 0 by lia. cbn. rewrite Z.div_1_r. reflexivity.
Qed.

(** Rounding a mantissa of at least 24 bits whose value is below 1:
    the result is a normal number that is at most 1. *)
Lemma binary_round_aux_le_one (m e : Z) (l : location) :
  2 ^ 23 <= m -> -125 <= e <= 0 -> m < 2 ^ (- e) ->
  exists m' e',
    binary_round_aux prec32 emax32 false m e l = S754_finite false m' e' /\
    2 ^ 23 <= Zpos m' < 2 ^ 24 /\ Zpos m' <= 2 ^ (- e') /\ e <= e' <= 0.
Proof.
  intros Hlo He Hhi.
  assert (Hm : 0 < m) by (change (2 ^ 23) with 8388608 in Hlo; lia).
  assert (Hd : 24 <= Zdigits2 m)
    by (pose proof (Zdigits2_ge m 23 Hm Hlo); lia).
  assert (Hde : Zdigits2 m <= - e) by (apply Zdigits2_le; lia).
  unfold binary_round_aux.
  destruct (shr_fexp_exact m e l Hm ltac:(lia)) as (mrs1 & -> & Hm1 & _).
  replace (Z.max (Zdigits2 m - 24) 0) with (Zdigits2 m - 24) in * by lia.
  set (k := Zdigits2 m - 24) in *. set (e1 := e + k).
  destruct (Zdigits2_bounds m Hm) as (_ & Hdlo & Hdhi).
  assert (Hk : 0 <= k) by lia.
  assert (Hpk : 0 < 2 ^ k) by (apply Z.pow_pos_nonneg; lia).
  assert (Hsplit : 2 ^ Zdigits2 m = 2 ^ k * 2 ^ 24)
    by (rewrite <- Z.pow_add_r by lia; f_equal; lia).
  assert (Hsplit' : 2 ^ (Zdigits2 m - 1) = 2 ^ k * 2 ^ 23)
    by (rewrite <- Z.pow_add_r by lia; f_equal; lia).
  assert (Hsplit'' : 2 ^ (- e) = 2 ^ k * 2 ^ (- e1))
    by (rewrite <- Z.pow_add_r by lia; f_equal; lia).
  assert (B1 : 2 ^ 23 <= shr_m mrs1 < 2 ^ 24).
  { rewrite Hm1. split.
    - apply Z.div_le_lower_bound; lia.
    - apply Z.div_lt_upper_bound; lia. }
  assert (B2 : shr_m mrs1 < 2 ^ (- e1)).
  { rewrite Hm1. apply Z.div_lt_upper_bound; lia. }
  pose proof (round_nearest_even_bounds (shr_m mrs1) (loc_of_shr_record mrs1)) as Hr.
  set (m2 := round_nearest_even (shr_m mrs1) (loc_of_shr_record mrs1)) in *.
  change (2 ^ 23) with 8388608 in *. change (2 ^ 24) with 16777216 in *.
  assert (Hm2 : 0 < m2) by lia.
  destruct (Z.eq_dec m2 16777216) as [Hcarry | Hnc].
  - (* the rounding carried into a 25th bit *)
    assert (Hd2 : Zdigits2 m2 = 25) by (rewrite Hcarry; reflexivity).
    destruct (shr_fexp_exact m2 e1 loc_Exact Hm2 ltac:(lia)) as (mrs2 & -> & Hm3 & _).
    rewrite Hd2 in *. change (Z.max (25 - 24) 0) with 1 in *.
    rewrite Hcarry in Hm3. change (16777216 / 2 ^ 1) with 8388608 in Hm3.
    rewrite Hm3.
    replace (e1 + 1 <=? emax32 - prec32) with true
      by (symmetry; apply Z.leb_le; unfold emax32, prec32; lia).
    do 2 eexists. split; [reflexivity|].
    assert (16777216 <= 2 ^ (- e1)) by lia.
    assert (He1 : 24 <= - e1).
    { destruct (Z_le_gt_dec 24 (- e1)) as [|Hgt]; [assumption|].
      assert (2 ^ (- e1) <= 2 ^ 23) by (apply Z.pow_le_mono_r; lia).
      change (2 ^ 23) with 8388608 in *. lia. }
    split; [lia|]. split; [|lia].
    change 8388608 with (2 ^ 23). apply Z.pow_le_mono_r; lia.
  - assert (Hd2 : Zdigits2 m2 = 24)
      by (apply Zdigits2_eq; [lia|]; change (2 ^ (24 - 1)) with 8388608;
          change (2 ^ 24) with 16777216; lia).
    destruct (shr_fexp_exact m2 e1 loc_Exact Hm2 ltac:(lia)) as (mrs2 & -> & Hm3 & _).
    rewrite Hd2 in *. change (Z.max (24 - 24) 0) with 0 in *.
    rewrite Z.div_1_r in Hm3. rewrite Hm3, Z.add_0_r.
    destruct m2 as [|p|p]; try lia.
    replace (e1 <=? emax32 - prec32) with true
      by (symmetry; apply Z.leb_le; unfold emax32, prec32; lia).
    do 2 eexists. split; [reflexivity|].
    split; [lia|]. split; [lia|]. lia.
Qed.

Lemma f32_in_unit_normal (m : positive) (e : Z) :
  2 ^ 23 <= Zpos m -> Zpos m <= 2 ^ (- e) -> e <= 0 ->
  f32_in_unit (S754_finite false m e) = true.
Proof.
  intros Hlo Hhi He.
  assert (He' : e <= -23).
  { destruct (Z_le_gt_dec e (-23)) as [|Hgt]; [assumption|].
    assert (2 ^ (- e) <= 2 ^ 22) by (apply Z.pow_le_mono_r; lia).
    change (2 ^ 23) with 8388608 in *. change (2 ^ 22) with 4194304 in *. lia. }
  unfold f32_in_unit, f32_leb, SFleb, f32_zero, f32_one. cbn [SFcompare andb].
  destruct (Z.compare_spec e (-23)) as [-> | Hlt | Hgt]; [| reflexivity | lia].
  change (2 ^ (- -23)) with 8388608 in Hhi. change (2 ^ 23) with 8388608 in Hlo.
  assert (Hm : m = 8388608%positive) by lia. rewrite Hm. reflexivity.
Qed.

Lemma shr_1_spec (mrs : shr_record) :
  0 <= shr_m mrs ->
  shr_1 mrs = Build_shr_record (shr_m mrs / 2) (Z.odd (shr_m mrs))
                               (shr_r mrs || shr_s mrs).
Proof.
  destruct mrs as [m r s]. cbn [shr_m shr_r shr_s]. intros Hm.
  rewrite <- Z.div2_div.
  destruct m as [|[p|p|]|p]; try reflexivity. lia.
Qed.

Lemma mod_pow2_split (n j : Z) :
  0 <= n -> 0 <= j ->
  n mod 2 ^ (j + 1) = 2 ^ j * ((n / 2 ^ j) mod 2) + n mod 2 ^ j.
Proof.
  intros Hn Hj.
  assert (Hp : 0 < 2 ^ j) by (apply Z.pow_pos_nonneg; lia).
  pose proof (Z.div_mod n (2 ^ j) ltac:(lia)) as Hdm.
  pose proof (Z.mod_pos_bound n (2 ^ j) Hp) as Hb.
  set (a := n / 2 ^ j) in *. set (b := n mod 2 ^ j) in *.
  pose proof (Z.div_mod a 2 ltac:(lia)) as Hdm2.
  pose proof (Z.mod_pos_bound a 2 ltac:(lia)) as Hb2.
  symmetry. apply (Z.mod_unique_pos _ _ (a / 2)).
  - rewrite Z.pow_add_r by lia. change (2 ^ 1) with 2. nia.
  - rewrite Z.pow_add_r by lia. change (2 ^ 1) with 2. nia.
Qed.

Lemma mod_pow2_step (n j : Z) :
  0 <= n -> 0 <= j ->
  (n mod 2 ^ (j + 1) =? 0) = (n mod 2 ^ j =? 0) && Z.even (n / 2 ^ j).
Proof.
  intros Hn Hj. rewrite mod_pow2_split, Zeven_mod by assumption.
  assert (Hp : 0 < 2 ^ j) by (apply Z.pow_pos_nonneg; lia).
  pose proof (Z.mod_pos_bound n (2 ^ j) Hp) as Hb.
  pose proof (Z.mod_pos_bound (n / 2 ^ j) 2 ltac:(lia)) as Hb2.
  destruct (Z.eqb_spec (n mod 2 ^ j) 0) as [Hb0 | Hb0],
           (Z.eqb_spec ((n / 2 ^ j) mod 2) 0) as [Ha0 | Ha0];
    cbn [andb]; apply Z.eqb_eq || apply Z.eqb_neq; nia.
Qed.

(** The record after [j + 1] shifts: the quotient, the last bit shifted
    out, and whether any bit shifted out before it was set. *)
Lemma shr_iter_spec (n : Z) (j : nat) :
  0 <= n ->
  Nat.iter (S j) shr_1 (Build_shr_record n false false) =
  Build_shr_record (n / 2 ^ Z.of_nat (S j)) (Z.odd (n / 2 ^ Z.of_nat j))
                   (negb (n mod 2 ^ Z.of_nat j =? 0)).
Proof.
  intros Hn. induction j as [|j IH].
  - cbn [Nat.iter]. rewrite shr_1_spec by exact Hn. cbn [shr_m shr_r shr_s orb].
    change (2 ^ Z.of_nat 1) with 2. change (2 ^ Z.of_nat 0) with 1.
    rewrite Z.div_1_r, Z.mod_1_r. reflexivity.
  - rewrite Nat.iter_succ, IH.
    assert (Hq : 0 <= n / 2 ^ Z.of_nat (S j)) by (apply Z.div_pos; lia).
    rewrite shr_1_spec by exact Hq. cbn [shr_m shr_r shr_s].
    f_equal.
    + rewrite Z.div_div by lia. f_equal.
      rewrite (Nat2Z.inj_succ (S j)), Z.pow_succ_r by lia. lia.
    + rewrite (Nat2Z.inj_succ j). fold (Z.succ (Z.of_nat j)).
      replace (Z.succ (Z.of_nat j)) with (Z.of_nat j + 1) by lia.
      rewrite mod_pow2_step by lia.
      rewrite negb_andb, Z.negb_even. apply orb_comm.
Qed.

Lemma round_half_even_bounds (n k : Z) :
  n / 2 ^ k <= round_half_even n k <= n / 2 ^ k + 1.
Proof.
  unfold round_half_even.
  destruct (2 * (n mod 2 ^ k) ?= 2 ^ k); [destruct (Z.even _)| |]; lia.
Qed.

Lemma round_shr_half_even (n : Z) (j : nat) :
  0 <= n ->
  round_nearest_even
    (shr_m (Nat.iter (S j) shr_1 (Build_shr_record n false false)))
    (loc_of_shr_record (Nat.iter (S j) shr_1 (Build_shr_record n false false))) =
  round_half_even n (Z.of_nat (S j)).
Proof.
  intros Hn. rewrite shr_iter_spec by exact Hn. cbn [shr_m].
  unfold round_half_even.
  rewrite (Nat2Z.inj_succ j). replace (Z.succ (Z.of_nat j)) with (Z.of_nat j + 1) by lia.
  rewrite mod_pow2_split by lia.
  set (k := Z.of_nat j).
  assert (Hp : 0 < 2 ^ k) by (apply Z.pow_pos_nonneg; lia).
  pose proof (Z.mod_pos_bound n (2 ^ k) Hp) as Hb.
  pose proof (Z.mod_pos_bound (n / 2 ^ k) 2 ltac:(lia)) as Hb2.
  rewrite (Z.pow_add_r 2 k 1) by lia. change (2 ^ 1) with 2.
  rewrite <- Z.negb_even, Zeven_mod.
  destruct (Z.eqb_spec ((n / 2 ^ k) mod 2) 0) as [Ha | Ha],
           (Z.eqb_spec (n mod 2 ^ k) 0) as [Hb0 | Hb0]; cbn [negb loc_of_shr_record].
  - replace (2 * (2 ^ k * ((n / 2 ^ k) mod 2) + n mod 2 ^ k) ?= 2 ^ k * 2) with Lt
      by (symmetry; apply Z.compare_lt_iff; nia). reflexivity.
  - replace (2 * (2 ^ k * ((n / 2 ^ k) mod 2) + n mod 2 ^ k) ?= 2 ^ k * 2) with Lt
      by (symmetry; apply Z.compare_lt_iff; nia). reflexivity.
  - replace (2 * (2 ^ k * ((n / 2 ^ k) mod 2) + n mod 2 ^ k) ?= 2 ^ k * 2) with Eq
      by (symmetry; apply Z.compare_eq_iff; nia). reflexivity.
  - replace (2 * (2 ^ k * ((n / 2 ^ k) mod 2) + n mod 2 ^ k) ?= 2 ^ k * 2) with Gt
      by (symmetry; apply Z.compare_gt_iff; nia). reflexivity.
Qed.

Lemma round_half_even_mono (s l k : Z) :
  0 <= s <= l -> 0 <= k -> round_half_even s k <= round_half_even l k.
Proof.
  intros Hsl Hk.
  assert (Hp : 0 < 2 ^ k) by (apply Z.pow_pos_nonneg; lia).
  assert (Hq : s / 2 ^ k <= l / 2 ^ k) by (apply Z.div_le_mono; lia).
  pose proof (round_half_even_bounds s k) as Bs.
  pose proof (round_half_even_bounds l k) as Bl.
  destruct (Z.eq_dec (s / 2 ^ k) (l / 2 ^ k)) as [Heq | Hne]; [|lia].
  pose proof (Z.div_mod s (2 ^ k) ltac:(lia)) as Ds.
  pose proof (Z.div_mod l (2 ^ k) ltac:(lia)) as Dl.
  assert (Hr : s mod 2 ^ k <= l mod 2 ^ k) by (rewrite Heq in Ds; lia).
  unfold round_half_even in *. rewrite Heq in *.
  destruct (Z.compare_spec (2 * (s mod 2 ^ k)) (2 ^ k)) as [Es | Es | Es],
           (Z.compare_spec (2 * (l mod 2 ^ k)) (2 ^ k)) as [El | El | El];
    try lia; destruct (Z.even (l / 2 ^ k)); lia.
Qed.

Lemma Zdigits2_mono (s l : Z) : 0 < s <= l -> Zdigits2 s <= Zdigits2 l.
Proof.
  intros Hsl.
  destruct (Zdigits2_bounds s ltac:(lia)) as (_ & Hlo & _).
  destruct (Zdigits2_bounds l ltac:(lia)) as (Hd & _ & Hhi).
  assert (Zdigits2 s - 1 < Zdigits2 l); [|lia].
  apply (Z.pow_lt_mono_r_iff 2); lia.
Qed.

Lemma round_half_even_0 (n : Z) : round_half_even n 0 = n.
Proof.
  unfold round_half_even. change (2 ^ 0) with 1. rewrite Z.div_1_r, Z.mod_1_r. reflexivity.
Qed.

Lemma int_rounded_bounds (n : Z) :
  0 < n -> 2 ^ (Zdigits2 n - 1) <= int_rounded n <= 2 ^ Zdigits2 n.
Proof.
  intros Hn. destruct (Zdigits2_bounds n Hn) as (Hd & Hlo & Hhi).
  unfold int_rounded. cbv zeta.
  destruct (Z_le_gt_dec (Zdigits2 n) 24) as [Hs | Hl].
  - replace (Z.max (Zdigits2 n - 24) 0) with 0 by lia.
    rewrite round_half_even_0. change (2 ^ 0) with 1. lia.
  - replace (Z.max (Zdigits2 n - 24) 0) with (Zdigits2 n - 24) by lia.
    set (k := Zdigits2 n - 24).
    assert (Hp : 0 < 2 ^ k) by (apply Z.pow_pos_nonneg; lia).
    assert (Hsplit : 2 ^ Zdigits2 n = 2 ^ k * 2 ^ 24)
      by (rewrite <- Z.pow_add_r by lia; f_equal; lia).
    assert (Hsplit' : 2 ^ (Zdigits2 n - 1) = 2 ^ k * 2 ^ 23)
      by (rewrite <- Z.pow_add_r by lia; f_equal; lia).
    pose proof (round_half_even_bounds n k) as B.
    assert (2 ^ 23 <= n / 2 ^ k) by (apply Z.div_le_lower_bound; lia).
    assert (n / 2 ^ k < 2 ^ 24) by (apply Z.div_lt_upper_bound; lia).
    rewrite Hsplit, Hsplit'. nia.
Qed.

Lemma int_rounded_mono (s l : Z) :
  0 < s <= l -> int_rounded s <= int_rounded l.
Proof.
  intros Hsl. pose proof (Zdigits2_mono s l Hsl) as Hd.
  destruct (Z.eq_dec (Z.max (Zdigits2 s - 24) 0) (Z.max (Zdigits2 l - 24) 0)) as [Hk | Hk].
  - unfold int_rounded. cbv zeta. rewrite Hk.
    set (k := Z.max (Zdigits2 l - 24) 0).
    assert (Hp : 0 < 2 ^ k) by (apply Z.pow_pos_nonneg; lia).
    pose proof (round_half_even_mono s l k ltac:(lia) ltac:(lia)). nia.
  - pose proof (int_rounded_bounds s ltac:(lia)) as [_ Bs].
    pose proof (int_rounded_bounds l ltac:(lia)) as [Bl _].
    assert (2 ^ Zdigits2 s <= 2 ^ (Zdigits2 l - 1)); [|lia].
    apply Z.pow_le_mono_r; lia.
Qed.

Lemma pos_iter_xO (p k : positive) : Zpos (Pos.iter xO p k) = Zpos p * 2 ^ Zpos k.
Proof.
  induction k as [|k IH] using Pos.peano_ind.
  - cbn. lia.
  - rewrite Pos.iter_succ, Pos2Z.inj_xO, IH, Pos2Z.inj_succ, Z.pow_succ_r by lia. lia.
Qed.

(** A mantissa of exactly 24 bits with nothing to round is kept. *)
Lemma binary_round_aux_exact (m : positive) (e : Z) :
  2 ^ 23 <= Zpos m < 2 ^ 24 -> -149 <= e <= 104 ->
  binary_round_aux prec32 emax32 false (Zpos m) e loc_Exact = S754_finite false m e.
Proof.
  intros Hm He.
  assert (Hd : Zdigits2 (Zpos m) = 24) by (apply Zdigits2_eq; [lia | exact Hm]).
  unfold binary_round_aux.
  destruct (shr_fexp_exact (Zpos m) e loc_Exact ltac:(lia) ltac:(lia))
    as (mrs1 & -> & _ & Hrec). rewrite (Hrec ltac:(lia)).
  cbn [shr_record_of_loc shr_m loc_of_shr_record round_nearest_even].
  destruct (shr_fexp_exact (Zpos m) (e + Z.max (Zdigits2 (Zpos m) - 24) 0) loc_Exact
              ltac:(lia) ltac:(lia)) as (mrs2 & -> & _ & Hrec2).
  rewrite (Hrec2 ltac:(lia)). cbn [shr_record_of_loc shr_m].
  rewrite Hd. change (Z.max (24 - 24) 0) with 0. rewrite !Z.add_0_r.
  replace (e <=? emax32 - prec32) with true
    by (symmetry; apply Z.leb_le; unfold emax32, prec32; lia).
  reflexivity.
Qed.

(** The last step of rounding: a mantissa of 24 bits is kept, [2^24] is
    renormalised. *)
Lemma binary_round_aux_renormalise (m2 e1 : Z) :
  2 ^ 23 <= m2 <= 2 ^ 24 -> -149 <= e1 <= 103 ->
  exists m' e',
    (let '(mrs, e'') := shr_fexp prec32 emax32 m2 e1 loc_Exact in
     match shr_m mrs with
     | 0 => S754_zero false
     | Zpos m => if e'' <=? emax32 - prec32 then S754_finite false m e''
                 else S754_infinity false
     | Zneg _ => S754_nan
     end) = S754_finite false m' e' /\
    2 ^ 23 <= Zpos m' < 2 ^ 24 /\ e1 <= e' <= e1 + 1 /\
    Zpos m' * 2 ^ (e' - e1) = m2.
Proof.
  intros Hm He. change (2 ^ 23) with 8388608 in *. change (2 ^ 24) with 16777216 in *.
  assert (Hm2 : 0 < m2) by lia.
  destruct (Z.eq_dec m2 16777216) as [-> | Hnc].
  - destruct (shr_fexp_exact 16777216 e1 loc_Exact ltac:(lia))
      as (mrs2 & -> & Hm3 & _); [change (Zdigits2 16777216) with 25; lia|].
    change (Zdigits2 16777216) with 25 in *. change (Z.max (25 - 24) 0) with 1 in *.
    change (16777216 / 2 ^ 1) with 8388608 in Hm3. rewrite Hm3.
    replace (e1 + 1 <=? emax32 - prec32) with true
      by (symmetry; apply Z.leb_le; unfold emax32, prec32; lia).
    do 2 eexists. split; [reflexivity|]. split; [lia|]. split; [lia|].
    replace (e1 + 1 - e1) with 1 by lia. reflexivity.
  - assert (Hd2 : Zdigits2 m2 = 24)
      by (apply Zdigits2_eq; [lia|]; change (2 ^ (24 - 1)) with 8388608;
          change (2 ^ 24) with 16777216; lia).
    destruct (shr_fexp_exact m2 e1 loc_Exact Hm2 ltac:(lia)) as (mrs2 & -> & Hm3 & _).
    rewrite Hd2 in *. change (Z.max (24 - 24) 0) with 0 in *.
    rewrite Z.div_1_r in Hm3. rewrite Hm3, Z.add_0_r.
    destruct m2 as [|p|p]; try lia.
    replace (e1 <=? emax32 - prec32) with true
      by (symmetry; apply Z.leb_le; unfold emax32, prec32; lia).
    do 2 eexists. split; [reflexivity|]. split; [lia|]. split; [lia|].
    replace (e1 - e1) with 0 by lia. lia.
Qed.

(** [(float) n] is a normal number, and it stands for [int_rounded n]. *)
Lemma f32_of_int_value (n : Z) :
  0 < n < 2 ^ 31 ->
  exists m e,
    f32_of_int n = S754_finite false m e /\
    2 ^ 23 <= Zpos m < 2 ^ 24 /\ -23 <= e <= 8 /\
    Zpos m * 2 ^ (e + 23) = int_rounded n * 2 ^ 23.
Proof.
  intros [Hpos Hlt]. destruct n as [|p|p]; try lia.
  destruct (Zdigits2_bounds (Zpos p) ltac:(lia)) as (Hd & Hlo & Hhi).
  assert (Hd31 : Zdigits2 (Zpos p) <= 31) by (apply Zdigits2_le; lia).
  unfold f32_of_int, binary_normalize, binary_round.
  unfold int_rounded. cbv zeta.
  cbn [Zdigits2] in *.
  unfold shl_align, fexp, emin.
  replace (Z.max (Zpos (digits2_pos p) + 0 - prec32) (3 - emax32 - prec32) - 0)
    with (Zpos (digits2_pos p) - 24) by (unfold prec32, emax32; lia).
  destruct (Zpos (digits2_pos p) - 24) as [|k|k] eqn:Hk.
  - (* exactly 24 bits *)
    assert (Hd24 : Zpos (digits2_pos p) = 24) by lia. rewrite Hd24 in *.
    change (24 - 1) with 23 in Hlo.
    rewrite binary_round_aux_exact by lia.
    do 2 eexists. split; [reflexivity|]. split; [split; lia|]. split; [lia|].
    change (Z.max 0 0) with 0. rewrite round_half_even_0. change (2 ^ 0) with 1. lia.
  - (* more than 24 bits *)
    unfold binary_round_aux.
    unfold shr_fexp at 1. unfold fexp, emin.
    cbn [Zdigits2 shr_record_of_loc].
    replace (Z.max (Zpos (digits2_pos p) + 0 - prec32) (3 - emax32 - prec32) - 0)
      with (Zpos k) by (unfold prec32, emax32; lia).
    unfold shr. rewrite iter_pos_nat.
    destruct (Pos2Nat.is_succ k) as [j Hj]. rewrite Hj.
    rewrite round_shr_half_even by lia.
    rewrite <- Hj, positive_nat_Z.
    replace (Z.max (Zpos k) 0) with (Zpos k) by lia.
    assert (Hp : 0 < 2 ^ Zpos k) by (apply Z.pow_pos_nonneg; lia).
    assert (Hsplit : 2 ^ Zpos (digits2_pos p) = 2 ^ Zpos k * 2 ^ 24)
      by (rewrite <- Z.pow_add_r by lia; f_equal; lia).
    assert (Hsplit' : 2 ^ (Zpos (digits2_pos p) - 1) = 2 ^ Zpos k * 2 ^ 23)
      by (rewrite <- Z.pow_add_r by lia; f_equal; lia).
    pose proof (round_half_even_bounds (Zpos p) (Zpos k)) as B.
    assert (2 ^ 23 <= Zpos p / 2 ^ Zpos k) by (apply Z.div_le_lower_bound; lia).
    assert (Zpos p / 2 ^ Zpos k < 2 ^ 24) by (apply Z.div_lt_upper_bound; lia).
    destruct (binary_round_aux_renormalise (round_half_even (Zpos p) (Zpos k)) (0 + Zpos k))
      as (m' & e' & -> & Hm' & He' & Hval); [lia | lia |].
    do 2 eexists. split; [reflexivity|]. split; [exact Hm'|]. split; [lia|].
    rewrite <- Hval.
    destruct (Z.eq_dec e' (0 + Zpos k)) as [-> | Hne].
    + replace (0 + Zpos k - (0 + Zpos k)) with 0 by lia.
      replace (0 + Zpos k + 23) with (Zpos k + 23) by lia.
      rewrite Z.pow_add_r by lia. change (2 ^ 0) with 1. lia.
    + assert (He1 : e' = Zpos k + 1) by lia. subst e'.
      replace (Zpos k + 1 - (0 + Zpos k)) with 1 by lia.
      replace (Zpos k + 1 + 23) with (Zpos k + 1 + 23) by lia.
      rewrite !Z.pow_add_r by lia. change (2 ^ 1) with 2. lia.
  - (* fewer than 24 bits *)
    assert (Hpk : 0 < 2 ^ Zpos k) by (apply Z.pow_pos_nonneg; lia).
    assert (Hsplit : 2 ^ 24 = 2 ^ Zpos (digits2_pos p) * 2 ^ Zpos k)
      by (rewrite <- Z.pow_add_r by lia; f_equal; lia).
    assert (Hsplit' : 2 ^ 23 = 2 ^ (Zpos (digits2_pos p) - 1) * 2 ^ Zpos k)
      by (rewrite <- Z.pow_add_r by lia; f_equal; lia).
    replace (Z.max (Zpos (digits2_pos p) + 0 - prec32) (3 - emax32 - prec32))
      with (Zpos (digits2_pos p) - 24) by (unfold prec32, emax32; lia).
    assert (Hnorm : 2 ^ 23 <= Zpos (Pos.iter xO p k) < 2 ^ 24).
    { rewrite pos_iter_xO, Hsplit, Hsplit'. split.
      - apply Z.mul_le_mono_nonneg_r; lia.
      - apply Z.mul_lt_mono_pos_r; lia. }
    rewrite binary_round_aux_exact; [| exact Hnorm | lia].
    do 2 eexists. split; [reflexivity|].
    split; [exact Hnorm|]. split; [lia|].
    rewrite pos_iter_xO.
    replace (Z.max (Z.neg k) 0) with 0 by lia.
    rewrite round_half_even_0. change (2 ^ 0) with 1.
    replace (Zpos (digits2_pos p) - 24 + 23) with (Zpos (digits2_pos p) - 1) by lia.
    rewrite Hsplit'. lia.
Qed.

(** The quotient of two normal numbers, the first below the second. *)
Lemma f32_div_below_one (m1 m2 : positive) (e1 e2 : Z) :
  2 ^ 23 <= Zpos m1 < 2 ^ 24 -> 2 ^ 23 <= Zpos m2 < 2 ^ 24 ->
  e1 <= e2 <= e1 + 100 ->
  Zpos m1 < Zpos m2 * 2 ^ (e2 - e1) ->
  exists m' e',
    f32_div (S754_finite false m1 e1) (S754_finite false m2 e2) = S754_finite false m' e' /\
    2 ^ 23 <= Zpos m' < 2 ^ 24 /\ Zpos m' <= 2 ^ (- e') /\ e1 - e2 - 24 <= e' <= 0.
Proof.
  intros H1 H2 He Hlt.
  assert (Hd1 : Zdigits2 (Zpos m1) = 24) by (apply Zdigits2_eq; [lia | exact H1]).
  assert (Hd2 : Zdigits2 (Zpos m2) = 24) by (apply Zdigits2_eq; [lia | exact H2]).
  unfold f32_div, SFdiv, SFdiv_core_binary. rewrite Hd1, Hd2.
  unfold fexp, emin.
  replace (Z.min (Z.max (24 + e1 - (24 + e2) - prec32) (3 - emax32 - prec32)) (e1 - e2))
    with (e1 - e2 - 24) by (unfold prec32, emax32; lia).
  replace (e1 - e2 - (e1 - e2 - 24)) with 24 by lia.
  cbv iota beta.
  rewrite Z.shiftl_mul_pow2 by lia.
  pose proof (Z_div_mod (Zpos m1 * 2 ^ 24) (Zpos m2) ltac:(lia)) as Hdm.
  destruct (Z.div_eucl (Zpos m1 * 2 ^ 24) (Zpos m2)) as [q r].
  destruct Hdm as [Heq Hr]. cbn [xorb].
  assert (Hp : 0 < 2 ^ (e2 - e1)) by (apply Z.pow_pos_nonneg; lia).
  assert (Hpow : 2 ^ (- (e1 - e2 - 24)) = 2 ^ (e2 - e1) * 2 ^ 24)
    by (rewrite <- Z.pow_add_r by lia; f_equal; lia).
  change (2 ^ 23) with 8388608 in *. change (2 ^ 24) with 16777216 in *.
  assert (Hq1 : 8388608 <= q) by nia.
  assert (Hq2 : q < 2 ^ (- (e1 - e2 - 24))).
  { rewrite Hpow.
    assert (Zpos m2 * q < Zpos m2 * (2 ^ (e2 - e1) * 16777216)); [nia|].
    apply Z.mul_lt_mono_pos_l in H; [exact H | lia]. }
  destruct (binary_round_aux_le_one q (e1 - e2 - 24) (new_location (Zpos m2) r))
    as (m' & e' & -> & Hm' & Hle & He'); [exact Hq1 | lia | exact Hq2 |].
  do 2 eexists. split; [reflexivity|]. split; [exact Hm'|]. split; [exact Hle | lia].
Qed.

(** [1.0F - q] for a normal number [q] that is at most 1. *)
Lemma f32_one_minus_in_unit (m : positive) (e : Z) :
  2 ^ 23 <= Zpos m < 2 ^ 24 -> Zpos m <= 2 ^ (- e) -> -100 <= e <= 0 ->
  f32_in_unit (f32_sub f32_one (S754_finite false m e)) = true.
Proof.
  intros Hm Hle He.
  assert (He' : e <= -23).
  { destruct (Z_le_gt_dec e (-23)) as [|Hgt]; [assumption|].
    assert (2 ^ (- e) <= 2 ^ 22) by (apply Z.pow_le_mono_r; lia).
    change (2 ^ 23) with 8388608 in *. change (2 ^ 22) with 4194304 in *. lia. }
  unfold f32_sub, SFsub, f32_one.
  replace (Z.min (-23) e) with e by lia. cbn [cond_Zopp].
  assert (Hme : fst (shl_align m e e) = m)
    by (unfold shl_align; rewrite Z.sub_diag; reflexivity).
  assert (Hone : Zpos (fst (shl_align 8388608 (-23) e)) = 2 ^ (- e)).
  { unfold shl_align. destruct (e - -23) as [|k|k] eqn:Hk; try lia.
    - assert (e = -23) by lia. subst e. reflexivity.
    - cbn [fst]. rewrite pos_iter_xO. change (Zpos 8388608) with (2 ^ 23).
      rewrite <- Z.pow_add_r by lia. f_equal. lia. }
  rewrite Hme.
  set (A := fst (shl_align 8388608 (-23) e)) in *.
  destruct (Zpos A - Zpos m) as [|D|D] eqn:HD; [reflexivity | | lia].
  cbn [binary_normalize]. unfold binary_round.
  assert (HDlt : Zpos D < 2 ^ (- e)) by lia.
  destruct (Zdigits2_bounds (Zpos D) ltac:(lia)) as (Hd & Hlo & Hhi).
  cbn [Zdigits2] in Hd, Hlo, Hhi.
  assert (Hde : Zpos (digits2_pos D) <= - e)
    by (apply (Zdigits2_le (Zpos D)); lia).
  unfold shl_align, fexp, emin.
  replace (Z.max (Zpos (digits2_pos D) + e - prec32) (3 - emax32 - prec32) - e)
    with (Zpos (digits2_pos D) - 24) by (unfold prec32, emax32; lia).
  destruct (Zpos (digits2_pos D) - 24) as [|k|k] eqn:Hk.
  - assert (Hd24 : Zpos (digits2_pos D) = 24) by lia. rewrite Hd24 in *.
    change (24 - 1) with 23 in Hlo.
    destruct (binary_round_aux_le_one (Zpos D) e loc_Exact)
      as (m' & e' & -> & Hm' & Hle' & He''); [lia | lia | lia |].
    apply f32_in_unit_normal; lia.
  - assert (2 ^ 23 <= 2 ^ (Zpos (digits2_pos D) - 1)) by (apply Z.pow_le_mono_r; lia).
    destruct (binary_round_aux_le_one (Zpos D) e loc_Exact)
      as (m' & e' & -> & Hm' & Hle' & He''); [lia | lia | lia |].
    apply f32_in_unit_normal; lia.
  - replace (Z.max (Zpos (digits2_pos D) + e - prec32) (3 - emax32 - prec32))
      with (Zpos (digits2_pos D) + e - 24) by (unfold prec32, emax32; lia).
    assert (Hpk : 0 < 2 ^ Zpos k) by (apply Z.pow_pos_nonneg; lia).
    assert (Hsplit : 2 ^ 24 = 2 ^ Zpos (digits2_pos D) * 2 ^ Zpos k)
      by (rewrite <- Z.pow_add_r by lia; f_equal; lia).
    assert (Hsplit' : 2 ^ 23 = 2 ^ (Zpos (digits2_pos D) - 1) * 2 ^ Zpos k)
      by (rewrite <- Z.pow_add_r by lia; f_equal; lia).
    assert (Hnorm : 2 ^ 23 <= Zpos (Pos.iter xO D k) < 2 ^ 24).
    { rewrite pos_iter_xO, Hsplit, Hsplit'. split.
      - apply Z.mul_le_mono_nonneg_r; lia.
      - apply Z.mul_lt_mono_pos_r; lia. }
    assert (Hroom : 2 ^ 24 <= 2 ^ (- (Zpos (digits2_pos D) + e - 24)))
      by (apply Z.pow_le_mono_r; lia).
    destruct (binary_round_aux_le_one (Zpos (Pos.iter xO D k))
                (Zpos (digits2_pos D) + e - 24) loc_Exact)
      as (m' & e' & -> & Hm' & Hle' & He''); [lia | lia | lia |].
    apply f32_in_unit_normal; lia.
Qed.

(** The quotient of two counts, the first at most the second, and its
    complement to one. *)
Lemma f32_ratio_in_unit (s l : Z) :
  0 <= s <= l -> 0 < l < 2 ^ 31 ->
  f32_in_unit (f32_div (f32_of_int s) (f32_of_int l)) = true /\
  f32_in_unit (f32_sub f32_one (f32_div (f32_of_int s) (f32_of_int l))) = true.
Proof.
  intros Hs Hl.
  destruct (Z.eq_dec s 0) as [-> | Hs0].
  - rewrite f32_div_zero_int by (change (2 ^ 64) with 18446744073709551616;
                                  change (2 ^ 31) with 2147483648 in Hl; lia).
    split; reflexivity.
  - destruct (f32_of_int_value s ltac:(lia)) as (m1 & e1 & -> & N1 & E1 & V1).
    destruct (f32_of_int_value l Hl) as (m2 & e2 & -> & N2 & E2 & V2).
    pose proof (int_rounded_mono s l ltac:(lia)) as Hmono.
    assert (Hval : Zpos m1 * 2 ^ (e1 + 23) <= Zpos m2 * 2 ^ (e2 + 23)) by nia.
    assert (He : e1 <= e2).
    { destruct (Z_le_gt_dec e1 e2) as [|Hgt]; [assumption|]. exfalso.
      assert (Hp2 : 0 < 2 ^ (e2 + 23)) by (apply Z.pow_pos_nonneg; lia).
      assert (Hpow : 2 ^ (e1 + 23) = 2 ^ (e1 - e2) * 2 ^ (e2 + 23))
        by (rewrite <- Z.pow_add_r by lia; f_equal; lia).
      assert (2 ^ 1 <= 2 ^ (e1 - e2)) by (apply Z.pow_le_mono_r; lia).
      change (2 ^ 1) with 2 in *. change (2 ^ 23) with 8388608 in *.
      change (2 ^ 24) with 16777216 in *. rewrite Hpow in Hval. nia. }
    assert (Hp1 : 0 < 2 ^ (e1 + 23)) by (apply Z.pow_pos_nonneg; lia).
    assert (Hpow : 2 ^ (e2 + 23) = 2 ^ (e2 - e1) * 2 ^ (e1 + 23))
      by (rewrite <- Z.pow_add_r by lia; f_equal; lia).
    assert (Hle : Zpos m1 <= Zpos m2 * 2 ^ (e2 - e1)).
    { rewrite Hpow in Hval.
      apply (Z.mul_le_mono_pos_r _ _ (2 ^ (e1 + 23))); [exact Hp1 | lia]. }
    destruct (Z.eq_dec (Zpos m1) (Zpos m2 * 2 ^ (e2 - e1))) as [Heq | Hne].
    + assert (He12 : e2 = e1).
      { destruct (Z.eq_dec e2 e1) as [|Hd]; [assumption|]. exfalso.
        assert (2 ^ 1 <= 2 ^ (e2 - e1)) by (apply Z.pow_le_mono_r; lia).
        change (2 ^ 1) with 2 in *. change (2 ^ 23) with 8388608 in *.
        change (2 ^ 24) with 16777216 in *. nia. }
      subst e2. rewrite Z.sub_diag in Heq. change (2 ^ 0) with 1 in Heq.
      assert (m1 = m2) by lia. subst m2.
      rewrite f32_div_same. split; reflexivity.
    + destruct (f32_div_below_one m1 m2 e1 e2 N1 N2 ltac:(lia) ltac:(lia))
        as (m' & e' & -> & Hm' & Hle' & He').
      split.
      * apply f32_in_unit_normal; lia.
      * apply f32_one_minus_in_unit; [exact Hm' | exact Hle' | lia].
Qed.

Lemma in_range_below_2_31 (a : Alignment) (L : Z) :
  residues_in_range a -> 0 < L <= originalNumberOfResidues a -> 0 < L < 2 ^ 31.
Proof.
  unfold residues_in_range, INT_MAX. change (2 ^ 31) with 2147483648.
  change (NLANES_8 * UCHAR_MAX) with 4080. lia.
Qed.

Lemma naive_identity_counts (a : Alignment) (i j : nat) :
  0 <= fst (naive_scan (naive_identity_contrib (indet_of a) (seq_data a i) (seq_data a j))
                       (originalNumberOfResidues a))
    <= snd (naive_scan (naive_identity_contrib (indet_of a) (seq_data a i) (seq_data a j))
                       (originalNumberOfResidues a)) /\
  snd (naive_scan (naive_identity_contrib (indet_of a) (seq_data a i) (seq_data a j))
                  (originalNumberOfResidues a))
    <= Z.of_nat (Z.to_nat (originalNumberOfResidues a)).
Proof.
  rewrite naive_scan_rsum. cbn [fst snd].
  set (m := Z.to_nat (originalNumberOfResidues a)).
  assert (Hbit : forall p,
    0 <= fst (naive_identity_contrib (indet_of a) (seq_data a i) (seq_data a j) p)
      <= snd (naive_identity_contrib (indet_of a) (seq_data a i) (seq_data a j) p) /\
    snd (naive_identity_contrib (indet_of a) (seq_data a i) (seq_data a j) p) <= 1).
  { intros p. unfold naive_identity_contrib. cbv zeta. cbn [fst snd].
    destruct (is_gap_or_indet (indet_of a) (byte_at (seq_data a i) p)),
             (is_gap_or_indet (indet_of a) (byte_at (seq_data a j) p)),
             (byte_at (seq_data a i) p =? byte_at (seq_data a j) p); cbn; lia. }
  pose proof (rsum_bounds
    (fun p => fst (naive_identity_contrib (indet_of a) (seq_data a i) (seq_data a j) p)) 0 m
    ltac:(intros p; specialize (Hbit p); cbv beta; lia)) as B1.
  pose proof (rsum_bounds
    (fun p => snd (naive_identity_contrib (indet_of a) (seq_data a i) (seq_data a j) p)) 0 m
    ltac:(intros p; specialize (Hbit p); cbv beta; lia)) as B2.
  pose proof (rsum_le
    (fun p => fst (naive_identity_contrib (indet_of a) (seq_data a i) (seq_data a j) p))
    (fun p => snd (naive_identity_contrib (indet_of a) (seq_data a i) (seq_data a j) p)) 0 m
    ltac:(intros p; specialize (Hbit p); cbv beta; lia)) as L.
  lia.
Qed.

Lemma naive_seqid_counts (a : Alignment) (i j : nat) :
  0 <= snd (naive_scan (naive_seqid_contrib (indet_of a) a (seq_data a i) (seq_data a j))
                       (originalNumberOfResidues a))
    <= fst (naive_scan (naive_seqid_contrib (indet_of a) a (seq_data a i) (seq_data a j))
                       (originalNumberOfResidues a)) /\
  fst (naive_scan (naive_seqid_contrib (indet_of a) a (seq_data a i) (seq_data a j))
                  (originalNumberOfResidues a))
    <= Z.of_nat (Z.to_nat (originalNumberOfResidues a)).
Proof.
  rewrite naive_scan_rsum. cbn [fst snd].
  set (m := Z.to_nat (originalNumberOfResidues a)).
  assert (Hbit : forall p,
    0 <= snd (naive_seqid_contrib (indet_of a) a (seq_data a i) (seq_data a j) p)
      <= fst (naive_seqid_contrib (indet_of a) a (seq_data a i) (seq_data a j) p) /\
    fst (naive_seqid_contrib (indet_of a) a (seq_data a i) (seq_data a j) p) <= 1).
  { intros p. unfold naive_seqid_contrib. cbv zeta. cbn [fst snd].
    destruct (nth (Z.to_nat p) (saveResidues a) 0 =? -1),
             (is_gap_or_indet (indet_of a) (byte_at (seq_data a i) p)),
             (is_gap_or_indet (indet_of a) (byte_at (seq_data a j) p)),
             (byte_at (seq_data a i) p =? byte_at (seq_data a j) p); cbn; lia. }
  pose proof (rsum_bounds
    (fun p => snd (naive_seqid_contrib (indet_of a) a (seq_data a i) (seq_data a j) p)) 0 m
    ltac:(intros p; specialize (Hbit p); cbv beta; lia)) as B1.
  pose proof (rsum_bounds
    (fun p => fst (naive_seqid_contrib (indet_of a) a (seq_data a i) (seq_data a j) p)) 0 m
    ltac:(intros p; specialize (Hbit p); cbv beta; lia)) as B2.
  pose proof (rsum_le
    (fun p => snd (naive_seqid_contrib (indet_of a) a (seq_data a i) (seq_data a j) p))
    (fun p => fst (naive_seqid_contrib (indet_of a) a (seq_data a i) (seq_data a j) p)) 0 m
    ltac:(intros p; specialize (Hbit p); cbv beta; lia)) as L.
  lia.
Qed.

Lemma naive_identity_in_unit (a : Alignment) (i j : nat) :
  residues_in_range a ->
  (exists p, 0 <= p < originalNumberOfResidues a /\
     is_gap_or_indet (indet_of a) (byte_at (seq_data a i) p)
     && is_gap_or_indet (indet_of a) (byte_at (seq_data a j) p) = false) ->
  f32_in_unit (naive_identity a i j) = true.
Proof.
  intros Hn (p & Hp & Hres). unfold naive_identity. cbv zeta.
  pose proof (naive_identity_counts a i j) as [Hc1 Hc2].
  assert (Hlen : 0 < snd (naive_scan
    (naive_identity_contrib (indet_of a) (seq_data a i) (seq_data a j))
    (originalNumberOfResidues a))).
  { rewrite naive_scan_rsum. cbn [snd].
    apply (count_in_range _ _ p); [| exact Hp |].
    - intros q. unfold naive_identity_contrib. cbv zeta. cbn [snd].
      destruct (negb _); lia.
    - unfold naive_identity_contrib. cbv zeta. cbn [snd]. rewrite Hres. reflexivity. }
  apply f32_ratio_in_unit; [lia|].
  apply (in_range_below_2_31 a); [exact Hn|]. destruct Hn. lia.
Qed.

Lemma naive_seqid_in_unit (a : Alignment) (i j : nat) :
  residues_in_range a -> f32_in_unit (naive_seqid a i j) = true.
Proof.
  intros Hn. unfold naive_seqid. cbv zeta.
  pose proof (naive_seqid_counts a i j) as [Hc1 Hc2].
  destruct (Z.eqb_spec (fst (naive_scan
    (naive_seqid_contrib (indet_of a) a (seq_data a i) (seq_data a j))
    (originalNumberOfResidues a))) 0) as [H0 | Hne]; [reflexivity|].
  apply f32_ratio_in_unit; [lia|].
  apply (in_range_below_2_31 a); [exact Hn|]. destruct Hn. lia.
Qed.

(** X17.  For every pair of sequences with at least one column in
    which not both hold a gap or the indeterminate symbol ([length] is
    not 0), the distance that [calculateMatrixIdentity] stores is a
    [float] between 0 and 1, both included: no rounding of the division
    or of the subtraction takes it outside. *)
Theorem X17_identity_distances_lie_in_unit_interval (aarch64 : bool)
    (s : NEONSimilarity) (i j : nat)
    (Hn : residues_in_range (sim_alig s))
    (Hnull : matrixIdentity s = None)
    (Hij : (i < j)%nat)
    (Hj : Z.of_nat j < originalNumberOfSequences (sim_alig s))
    (Hres : exists p, 0 <= p < originalNumberOfResidues (sim_alig s) /\
       is_gap_or_indet (indet_of (sim_alig s)) (byte_at (seq_data (sim_alig s) i) p)
       && is_gap_or_indet (indet_of (sim_alig s)) (byte_at (seq_data (sim_alig s) j) p)
       = false) :
  exists m v,
    calculateMatrixIdentity aarch64 s = Some (set_matrixIdentity (Some m) s) /\
    m !! (i, j) = Some v /\ m !! (j, i) = Some v /\
    f32_in_unit v = true.
Proof.
  destruct (identity_matrix_entries aarch64 (sim_alig s) i j Hn Hij Hj) as (m & Hm & H1 & H2).
  exists m, (naive_identity (sim_alig s) i j).
  unfold calculateMatrixIdentity. rewrite Hnull, Hm. cbn [mbind option_bind].
  split; [reflexivity|]. split; [exact H1|]. split; [exact H2|].
  apply naive_identity_in_unit; assumption.
Qed.

Lemma X17_identity_distances_lie_in_unit_interval_witness :
  residues_in_range (sim_alig (fresh_scorer unit_distance acgt3)) /\
  matrixIdentity (fresh_scorer unit_distance acgt3) = None /\
  is_gap_or_indet (indet_of acgt3) (byte_at (seq_data acgt3 0) 0)
  && is_gap_or_indet (indet_of acgt3) (byte_at (seq_data acgt3 1) 0) = false /\
  exists m v,
    calculateMatrixIdentity true (fresh_scorer unit_distance acgt3)
      = Some (set_matrixIdentity (Some m) (fresh_scorer unit_distance acgt3)) /\
    m !! (0%nat, 1%nat) = Some v /\ m !! (1%nat, 0%nat) = Some v /\
    f32_in_unit v = true.
Proof.
  assert (H1 : residues_in_range (sim_alig (fresh_scorer unit_distance acgt3)))
    by in_range.
  assert (H2 : matrixIdentity (fresh_scorer unit_distance acgt3) = None) by reflexivity.
  assert (H3 : is_gap_or_indet (indet_of acgt3) (byte_at (seq_data acgt3 0) 0)
               && is_gap_or_indet (indet_of acgt3) (byte_at (seq_data acgt3 1) 0) = false)
    by reflexivity.
  split; [exact H1|]. split; [exact H2|]. split; [exact H3|].
  apply (X17_identity_distances_lie_in_unit_interval true
           (fresh_scorer unit_distance acgt3) 0 1 H1 H2).
  - lia.
  - reflexivity.
  - exists 0. split; [split; [lia | reflexivity] | exact H3].
Defined.

(** X18.  For every pair of kept sequences, the identity that
    [calculateSeqIdentity] stores is a [float] between 0 and 1, both
    included. *)
Theorem X18_sequence_identities_lie_in_unit_interval (aarch64 : bool) (a : Alignment)
    (i j : nat)
    (Hn : residues_in_range a)
    (Hij : (i < j)%nat)
    (Hj : Z.of_nat j < originalNumberOfSequences a)
    (Hki : removed a i = false) (Hkj : removed a j = false) :
  exists ident log v,
    calculateSeqIdentity aarch64 a = Some (ident, log) /\
    ident !! (i, j) = Some v /\ ident !! (j, i) = Some v /\
    f32_in_unit v = true.
Proof.
  destruct (seqid_matrix_entries aarch64 a i j Hn Hij Hj) as (ident & Hc & H1 & H2).
  - unfold kept. rewrite Hki. reflexivity.
  - unfold kept. rewrite Hkj. reflexivity.
  - exists ident, (seqid_log a), (naive_seqid a i j).
    split; [exact Hc|]. split; [exact H1|]. split; [exact H2|].
    apply naive_seqid_in_unit. exact Hn.
Qed.

Lemma X18_sequence_identities_lie_in_unit_interval_witness :
  residues_in_range acgt3 /\
  removed acgt3 0 = false /\ removed acgt3 1 = false /\
  exists ident log v,
    calculateSeqIdentity true acgt3 = Some (ident, log) /\
    ident !! (0%nat, 1%nat) = Some v /\ ident !! (1%nat, 0%nat) = Some v /\
    f32_in_unit v = true.
Proof.
  assert (H1 : residues_in_range acgt3) by in_range.
  assert (H2 : removed acgt3 0 = false) by reflexivity.
  assert (H3 : removed acgt3 1 = false) by reflexivity.
  split; [exact H1|]. split; [exact H2|]. split; [exact H3|].
  apply (X18_sequence_identities_lie_in_unit_interval true acgt3 0 1 H1).
  - lia.
  - reflexivity.
  - exact H2.
  - exact H3.
Defined.

(** X19.  With at least one residue per sequence, every score that
    [calculateSpuriousVector] writes is a [float] between 0 and 1, both
    included. *)
Theorem X19_spurious_scores_lie_in_unit_interval (overlap : float32) (a : Alignment)
    (v : list float32) (ovrlap : Z) (i : nat)
    (Hn : spurious_in_range a)
    (Hpos : 0 < originalNumberOfResidues a)
    (Ht : spurious_threshold overlap a = Some ovrlap)
    (Hi : Z.of_nat i < originalNumberOfSequences a)
    (Hlen : (i < length v)%nat) :
  exists v' x,
    calculateSpuriousVector overlap a (Some v) = Some (true, Some v') /\
    v' !! i = Some x /\ f32_in_unit x = true.
Proof.
  do 2 eexists. split; [apply spurious_scores_fold; eassumption|]. split.
  - apply (fold_insert_lookup
      (fun i => f32_div (f32_of_int (count_reached ovrlap (hits_of a i)))
                        (f32_of_int (originalNumberOfResidues a))));
      [exact Hlen | apply in_index_range; lia].
  - cbv beta. apply f32_ratio_in_unit.
    + pose proof (residues_below_2_32 a Hn) as Hlt.
      rewrite count_reached_filter by (rewrite length_hits_of; exact Hlt).
      pose proof (filter_length_le (fun h => ovrlap <=? h) (hits_of a i)) as Hle.
      rewrite length_hits_of in Hle. lia.
    + split; [exact Hpos|]. unfold spurious_in_range, INT_MAX in Hn.
      change NLANES_8 with 16 in Hn. change (2 ^ 31) with 2147483648 in *. lia.
Qed.

Lemma X19_spurious_scores_lie_in_unit_interval_witness :
  spurious_in_range acgt3 /\
  0 < originalNumberOfResidues acgt3 /\
  spurious_threshold f32_half acgt3 = Some 1 /\
  Z.of_nat 2 < originalNumberOfSequences acgt3 /\
  (2 < length [f32_nan; f32_nan; f32_nan])%nat /\
  exists v' x,
    calculateSpuriousVector f32_half acgt3 (Some [f32_nan; f32_nan; f32_nan])
      = Some (true, Some v') /\
    v' !! 2%nat = Some x /\ f32_in_unit x = true.
Proof.
  assert (H1 : spurious_in_range acgt3) by in_range.
  assert (H2 : 0 < originalNumberOfResidues acgt3) by reflexivity.
  assert (H3 : spurious_threshold f32_half acgt3 = Some 1) by (vm_compute; reflexivity).
  assert (H4 : Z.of_nat 2 < originalNumberOfSequences acgt3) by reflexivity.
  assert (H5 : (2 < length [f32_nan; f32_nan; f32_nan])%nat) by (cbn; lia).
  repeat (split; [assumption|]).
  exact (X19_spurious_scores_lie_in_unit_interval f32_half acgt3
           [f32_nan; f32_nan; f32_nan] 1 2 H1 H2 H3 H4 H5).
Defined.

